(** * SimpleShootingStar: the per-frame simulation of [main.go]

    A shallow embedding of [Game.Update], [NewGame], [createExplosion] and
    [nextWave] (the first, current version of [main.go], the one with the
    boss enemy) and of the sound manager of the [audio] package, followed by
    the properties of the simulation loop and of the sound channels.

    Conventions of the embedding:
    - a Go [int] is a [Z] and every [+], [-], [++], [--] of the source goes
      through [Go.wrap], the 64-bit two's-complement wrap-around;
    - a Go [float64] is a primitive binary64 [float]: [+ - * /] and the
      comparisons are the IEEE 754 ones the Go code runs;
    - [math.Sin], [math.Cos] and [math.Hypot] belong to the Go library, not
      to the repository: they are the fields of a [Math.Lib] the simulation
      is parameterised by;
    - [math/rand] and the audio singleton are global mutable state: they are
      the [World] every effectful step threads;
    - [ebiten.IsKeyPressed] is sampled into a [Key.t] per frame;
    - an index out of range is a run-time panic in Go: [None]. *)

From Stdlib Require Import ZArith List Bool Lia String.
From Stdlib Require Import Floats.
From Stdlib Require Uint63.
Import ListNotations.

Set Warnings "-inexact-float".
Local Open Scope Z_scope.

(** ** Go's numbers *)

Module Go.

Definition minInt : Z := - 2 ^ 63.
Definition maxInt : Z := 2 ^ 63 - 1.

(** Wrap-around of a 64-bit signed [int]. *)
Definition wrap (z : Z) : Z := (z + 2 ^ 63) mod 2 ^ 64 - 2 ^ 63.

Definition add (a b : Z) : Z := wrap (a + b).
Definition sub (a b : Z) : Z := wrap (a - b).

(** [a % b]: the remainder of the division truncated toward zero. *)
Definition rem (a b : Z) : Z := Z.rem a b.

(** [len(s)]. *)
Definition len {A : Type} (s : list A) : Z := Z.of_nat (List.length s).

(** [s[i]]: panics outside [0 <= i < len(s)]. *)
Definition index {A : Type} (s : list A) (i : Z) : option A :=
  if 0 <=? i then nth_error s (Z.to_nat i) else None.

(** [float64(i)] for an [int] [i], rounded to nearest even. *)
Definition float64_of_int (i : Z) : float :=
  if 0 <=? i then of_uint63 (Uint63.of_Z i)
  else if i =? minInt then (- (of_uint63 (Uint63.of_Z (2 ^ 62)) * 2))%float
  else (- of_uint63 (Uint63.of_Z (- i)))%float.

(** [a <= b] and [a >= b], [a > b] on [float64]. *)
Definition fle (a b : float) : bool := (a <=? b)%float.
Definition flt (a b : float) : bool := (a <? b)%float.
Definition fgt (a b : float) : bool := (b <? a)%float.
Definition fge (a b : float) : bool := (b <=? a)%float.

End Go.

(** ** The collaborators outside the repository *)

Module Math.

(** The three functions of Go's [math] package the simulation calls. *)
Record Lib : Type := mkLib {
  Sin : float -> float;
  Cos : float -> float;
  Hypot : float -> float -> float
}.

(** [math.Pi] as a [float64], and the constant expression [math.Pi / 180]
    (Go evaluates it exactly and rounds once). *)
Definition Pi : float := 3.141592653589793%float.
Definition PiOver180 : float := 0.017453292519943295%float.

End Math.

(** The process-wide state behind [math/rand] and [audio.GetInstance()]:
    an arbitrary sequence of raw draws with a cursor, and the log of the
    sound effects played. *)
Record World : Type := mkWorld {
  draws : nat -> Z;
  drawn : nat;
  played : list string
}.

Module Rand.

Definition next (w : World) : World :=
  mkWorld (draws w) (S (drawn w)) (played w).

(** [rand.Intn(n)]: some value of [0, n). *)
Definition Intn (n : Z) (w : World) : Z * World :=
  (draws w (drawn w) mod n, next w).

(** [rand.Float64()]: some value of [0.0, 1.0), a 53-bit fraction. *)
Definition Float64 (w : World) : float * World :=
  ((of_uint63 (Uint63.of_Z (draws w (drawn w) mod 2 ^ 53)) / 9007199254740992)%float,
   next w).

End Rand.

Module Audio.

(** [audio.GetInstance().Play(name)]: fire and forget. *)
Definition Play (name : string) (w : World) : World :=
  mkWorld (draws w) (drawn w) (name :: played w).

End Audio.

(** The keys [Update] polls with [ebiten.IsKeyPressed], sampled once. *)
Module Key.

Record t : Type := mk {
  Left : bool;
  Right : bool;
  Up : bool;
  Down : bool;
  Space : bool;
  R : bool
}.

Definition none : t := mk false false false false false false.

End Key.

(** ** The data model *)

(** [color.RGBA]. *)
Record RGBA : Type := mkRGBA { cR : Z; cG : Z; cB : Z; cA : Z }.

(** The top-level states, in the order of the [iota] block. *)
Inductive GameState : Type :=
| GameStateTitle
| GameStatePlaying
| GameStateStageClear
| GameStatePlayerExplosion
| GameStateGameOver.

(** The [EnemyType] constants. *)
Definition EnemyTypeStraight : Z := 0.
Definition EnemyTypeSine : Z := 1.
Definition EnemyTypeSpecial : Z := 2.
Definition EnemyTypeBoss : Z := 3.

(** [type Bullet struct]: a player bullet. *)
Module Bullet.

Record t : Type := mk {
  x : float;
  y : float;
  vx : float;
  vy : float
}.

End Bullet.

(** [type Star struct]: a background streak. *)
Module Star.

Record t : Type := mk {
  x : float;
  y : float;
  speed : float;
  length : float;
  color : RGBA
}.

End Star.

(** [type EnemyBullet struct]. *)
Module EnemyBullet.

Record t : Type := mk {
  x : float;
  y : float;
  vx : float;
  vy : float
}.

End EnemyBullet.

(** [type Enemy struct]; the last three fields are only used by the boss. *)
Module Enemy.

Record t : Type := mk {
  x : float;
  y : float;
  speed : float;
  enemyType : Z;
  time : float;
  phase : Z;
  hp : Z;
  shootsBullet : bool;
  bulletType : Z;
  bulletCooldown : Z;
  turnDirection : Z;
  bossState : Z;
  bossTimer : Z;
  moveDirection : Z
}.

Definition set_x (v : float) (r : t) : t :=
  mk v (y r) (speed r) (enemyType r) (time r) (phase r) (hp r) (shootsBullet r) (bulletType r) (bulletCooldown r) (turnDirection r) (bossState r) (bossTimer r) (moveDirection r).

Definition set_y (v : float) (r : t) : t :=
  mk (x r) v (speed r) (enemyType r) (time r) (phase r) (hp r) (shootsBullet r) (bulletType r) (bulletCooldown r) (turnDirection r) (bossState r) (bossTimer r) (moveDirection r).

Definition set_time (v : float) (r : t) : t :=
  mk (x r) (y r) (speed r) (enemyType r) v (phase r) (hp r) (shootsBullet r) (bulletType r) (bulletCooldown r) (turnDirection r) (bossState r) (bossTimer r) (moveDirection r).

Definition set_phase (v : Z) (r : t) : t :=
  mk (x r) (y r) (speed r) (enemyType r) (time r) v (hp r) (shootsBullet r) (bulletType r) (bulletCooldown r) (turnDirection r) (bossState r) (bossTimer r) (moveDirection r).

Definition set_hp (v : Z) (r : t) : t :=
  mk (x r) (y r) (speed r) (enemyType r) (time r) (phase r) v (shootsBullet r) (bulletType r) (bulletCooldown r) (turnDirection r) (bossState r) (bossTimer r) (moveDirection r).

Definition set_bulletCooldown (v : Z) (r : t) : t :=
  mk (x r) (y r) (speed r) (enemyType r) (time r) (phase r) (hp r) (shootsBullet r) (bulletType r) v (turnDirection r) (bossState r) (bossTimer r) (moveDirection r).

Definition set_bossState (v : Z) (r : t) : t :=
  mk (x r) (y r) (speed r) (enemyType r) (time r) (phase r) (hp r) (shootsBullet r) (bulletType r) (bulletCooldown r) (turnDirection r) v (bossTimer r) (moveDirection r).

Definition set_bossTimer (v : Z) (r : t) : t :=
  mk (x r) (y r) (speed r) (enemyType r) (time r) (phase r) (hp r) (shootsBullet r) (bulletType r) (bulletCooldown r) (turnDirection r) (bossState r) v (moveDirection r).

Definition set_moveDirection (v : Z) (r : t) : t :=
  mk (x r) (y r) (speed r) (enemyType r) (time r) (phase r) (hp r) (shootsBullet r) (bulletType r) (bulletCooldown r) (turnDirection r) (bossState r) (bossTimer r) v.

End Enemy.

(** [type Wave struct]: one spawn descriptor of a stage. *)
Module Wave.

Record t : Type := mk {
  EnemyType : Z;
  X : Z;
  Delay : Z;
  ShootsBullet : bool;
  BulletType : Z;
  Speed : float;
  TurnDirection : Z
}.

End Wave.

(** [type Particle struct]; [ptype] 0 is a normal particle, 1 a firing line. *)
Module Particle.

Record t : Type := mk {
  x : float;
  y : float;
  vx : float;
  vy : float;
  size : float;
  alpha : float;
  lifetime : Z;
  ptype : Z
}.

End Particle.

(** [type Stage struct]. *)
Module Stage.

Record t : Type := mk {
  Name : string;
  Waves : list Wave.t
}.

End Stage.

(** [type Game struct]: the whole session. *)
Module Game.

Record t : Type := mk {
  playerX : float;
  playerY : float;
  bullets : list Bullet.t;
  shootCooldown : Z;
  stars : list Star.t;
  enemies : list Enemy.t;
  waves : list Wave.t;
  waveTimer : Z;
  currentSpawn : Z;
  score : Z;
  gameState : GameState;
  highScore : Z;
  particles : list Particle.t;
  currentStage : Z;
  stageClearTimer : Z;
  stageClearKeyReleased : bool;
  playerExplosionTimer : Z;
  enemyBullets : list EnemyBullet.t
}.

Definition set_playerX (v : float) (r : t) : t :=
  mk v (playerY r) (bullets r) (shootCooldown r) (stars r) (enemies r) (waves r) (waveTimer r) (currentSpawn r) (score r) (gameState r) (highScore r) (particles r) (currentStage r) (stageClearTimer r) (stageClearKeyReleased r) (playerExplosionTimer r) (enemyBullets r).

Definition set_playerY (v : float) (r : t) : t :=
  mk (playerX r) v (bullets r) (shootCooldown r) (stars r) (enemies r) (waves r) (waveTimer r) (currentSpawn r) (score r) (gameState r) (highScore r) (particles r) (currentStage r) (stageClearTimer r) (stageClearKeyReleased r) (playerExplosionTimer r) (enemyBullets r).

Definition set_bullets (v : list Bullet.t) (r : t) : t :=
  mk (playerX r) (playerY r) v (shootCooldown r) (stars r) (enemies r) (waves r) (waveTimer r) (currentSpawn r) (score r) (gameState r) (highScore r) (particles r) (currentStage r) (stageClearTimer r) (stageClearKeyReleased r) (playerExplosionTimer r) (enemyBullets r).

Definition set_shootCooldown (v : Z) (r : t) : t :=
  mk (playerX r) (playerY r) (bullets r) v (stars r) (enemies r) (waves r) (waveTimer r) (currentSpawn r) (score r) (gameState r) (highScore r) (particles r) (currentStage r) (stageClearTimer r) (stageClearKeyReleased r) (playerExplosionTimer r) (enemyBullets r).

Definition set_stars (v : list Star.t) (r : t) : t :=
  mk (playerX r) (playerY r) (bullets r) (shootCooldown r) v (enemies r) (waves r) (waveTimer r) (currentSpawn r) (score r) (gameState r) (highScore r) (particles r) (currentStage r) (stageClearTimer r) (stageClearKeyReleased r) (playerExplosionTimer r) (enemyBullets r).

Definition set_enemies (v : list Enemy.t) (r : t) : t :=
  mk (playerX r) (playerY r) (bullets r) (shootCooldown r) (stars r) v (waves r) (waveTimer r) (currentSpawn r) (score r) (gameState r) (highScore r) (particles r) (currentStage r) (stageClearTimer r) (stageClearKeyReleased r) (playerExplosionTimer r) (enemyBullets r).

Definition set_waves (v : list Wave.t) (r : t) : t :=
  mk (playerX r) (playerY r) (bullets r) (shootCooldown r) (stars r) (enemies r) v (waveTimer r) (currentSpawn r) (score r) (gameState r) (highScore r) (particles r) (currentStage r) (stageClearTimer r) (stageClearKeyReleased r) (playerExplosionTimer r) (enemyBullets r).

Definition set_waveTimer (v : Z) (r : t) : t :=
  mk (playerX r) (playerY r) (bullets r) (shootCooldown r) (stars r) (enemies r) (waves r) v (currentSpawn r) (score r) (gameState r) (highScore r) (particles r) (currentStage r) (stageClearTimer r) (stageClearKeyReleased r) (playerExplosionTimer r) (enemyBullets r).

Definition set_currentSpawn (v : Z) (r : t) : t :=
  mk (playerX r) (playerY r) (bullets r) (shootCooldown r) (stars r) (enemies r) (waves r) (waveTimer r) v (score r) (gameState r) (highScore r) (particles r) (currentStage r) (stageClearTimer r) (stageClearKeyReleased r) (playerExplosionTimer r) (enemyBullets r).

Definition set_score (v : Z) (r : t) : t :=
  mk (playerX r) (playerY r) (bullets r) (shootCooldown r) (stars r) (enemies r) (waves r) (waveTimer r) (currentSpawn r) v (gameState r) (highScore r) (particles r) (currentStage r) (stageClearTimer r) (stageClearKeyReleased r) (playerExplosionTimer r) (enemyBullets r).

Definition set_gameState (v : GameState) (r : t) : t :=
  mk (playerX r) (playerY r) (bullets r) (shootCooldown r) (stars r) (enemies r) (waves r) (waveTimer r) (currentSpawn r) (score r) v (highScore r) (particles r) (currentStage r) (stageClearTimer r) (stageClearKeyReleased r) (playerExplosionTimer r) (enemyBullets r).

Definition set_highScore (v : Z) (r : t) : t :=
  mk (playerX r) (playerY r) (bullets r) (shootCooldown r) (stars r) (enemies r) (waves r) (waveTimer r) (currentSpawn r) (score r) (gameState r) v (particles r) (currentStage r) (stageClearTimer r) (stageClearKeyReleased r) (playerExplosionTimer r) (enemyBullets r).

Definition set_particles (v : list Particle.t) (r : t) : t :=
  mk (playerX r) (playerY r) (bullets r) (shootCooldown r) (stars r) (enemies r) (waves r) (waveTimer r) (currentSpawn r) (score r) (gameState r) (highScore r) v (currentStage r) (stageClearTimer r) (stageClearKeyReleased r) (playerExplosionTimer r) (enemyBullets r).

Definition set_currentStage (v : Z) (r : t) : t :=
  mk (playerX r) (playerY r) (bullets r) (shootCooldown r) (stars r) (enemies r) (waves r) (waveTimer r) (currentSpawn r) (score r) (gameState r) (highScore r) (particles r) v (stageClearTimer r) (stageClearKeyReleased r) (playerExplosionTimer r) (enemyBullets r).

Definition set_stageClearTimer (v : Z) (r : t) : t :=
  mk (playerX r) (playerY r) (bullets r) (shootCooldown r) (stars r) (enemies r) (waves r) (waveTimer r) (currentSpawn r) (score r) (gameState r) (highScore r) (particles r) (currentStage r) v (stageClearKeyReleased r) (playerExplosionTimer r) (enemyBullets r).

Definition set_stageClearKeyReleased (v : bool) (r : t) : t :=
  mk (playerX r) (playerY r) (bullets r) (shootCooldown r) (stars r) (enemies r) (waves r) (waveTimer r) (currentSpawn r) (score r) (gameState r) (highScore r) (particles r) (currentStage r) (stageClearTimer r) v (playerExplosionTimer r) (enemyBullets r).

Definition set_playerExplosionTimer (v : Z) (r : t) : t :=
  mk (playerX r) (playerY r) (bullets r) (shootCooldown r) (stars r) (enemies r) (waves r) (waveTimer r) (currentSpawn r) (score r) (gameState r) (highScore r) (particles r) (currentStage r) (stageClearTimer r) (stageClearKeyReleased r) v (enemyBullets r).

Definition set_enemyBullets (v : list EnemyBullet.t) (r : t) : t :=
  mk (playerX r) (playerY r) (bullets r) (shootCooldown r) (stars r) (enemies r) (waves r) (waveTimer r) (currentSpawn r) (score r) (gameState r) (highScore r) (particles r) (currentStage r) (stageClearTimer r) (stageClearKeyReleased r) (playerExplosionTimer r) v.

End Game.

Import Game.

(** ** The simulation *)

Section Simulation.

(** The [math] package, and the package variable [stages] that
    [loadStages] fills once before the game starts. *)
Variable M : Math.Lib.
Variable stages : list Stage.t.

(** A loop over a slice whose body draws random numbers. *)
Fixpoint forEachW {A B : Type} (f : A -> World -> B * World)
    (s : list A) (w : World) : list B * World :=
  match s with
  | [] => ([], w)
  | a :: rest =>
      let '(b, w1) := f a w in
      let '(bs, w2) := forEachW f rest w1 in
      (b :: bs, w2)
  end.

(** *** [NewGame] *)

Definition starColors : list RGBA :=
  [ mkRGBA 180 180 255 100; mkRGBA 140 180 255 100; mkRGBA 100 140 255 100;
    mkRGBA 200 200 255 80; mkRGBA 80 120 255 80 ].

Definition newStar (w : World) : Star.t * World :=
  let '(i, w) := Rand.Intn (Go.len starColors) w in
  let c := nth (Z.to_nat i) starColors (mkRGBA 0 0 0 0) in
  let '(r1, w) := Rand.Float64 w in
  let '(r2, w) := Rand.Float64 w in
  let '(r3, w) := Rand.Float64 w in
  let '(r4, w) := Rand.Float64 w in
  (Star.mk (r1 * 640) (r2 * 480) (2 + r3 * 3) (8 + r4 * 8) c, w).

Fixpoint newStars (n : nat) (w : World) : list Star.t * World :=
  match n with
  | O => ([], w)
  | S n' =>
      let '(s, w1) := newStar w in
      let '(ss, w2) := newStars n' w1 in
      (s :: ss, w2)
  end.

(** [NewGame()]; [stages[0]] panics when no stage was loaded.  The audio
    initialisation (which ends the process when it fails) is taken to
    succeed. *)
Definition NewGame (w : World) : option (Game.t * World) :=
  let '(ss, w1) := newStars 60 w in
  match Go.index stages 0 with
  | None => None
  | Some st =>
      Some (Game.mk 320 408 [] 0 ss [] (Stage.Waves st) 0 0 0
              GameStateTitle 0 [] 0 0 false 0 [], w1)
  end.

(** *** [createExplosion] *)

Definition explosionParticle (x y : float) (w : World) : Particle.t * World :=
  let '(r1, w) := Rand.Float64 w in
  let angle := (r1 * Math.Pi * 2)%float in
  let '(r2, w) := Rand.Float64 w in
  let speed := (2 + r2 * 3)%float in
  let '(r3, w) := Rand.Float64 w in
  let '(n, w) := Rand.Intn 20 w in
  (Particle.mk x y (Math.Cos M angle * speed) (Math.Sin M angle * speed)
     (4 + r3 * 4) 1 (Go.add 30 n) 0, w).

Fixpoint explosionLoop (n : nat) (x y : float) (ps : list Particle.t)
    (w : World) : list Particle.t * World :=
  match n with
  | O => (ps, w)
  | S n' =>
      let '(p, w1) := explosionParticle x y w in
      explosionLoop n' x y (ps ++ [p]) w1
  end.

(** The colour is received and never used: particles carry none. *)
Definition createExplosion (x y : float) (color : RGBA) (g : Game.t)
    (w : World) : Game.t * World :=
  let '(ps, w1) := explosionLoop 20 x y (particles g) w in
  (set_particles ps g, w1).

(** *** Stars and particles: updated in every state *)

Definition stepStar (s : Star.t) (w : World) : Star.t * World :=
  let y1 := (Star.y s + Star.speed s)%float in
  if Go.fgt y1 480 then
    let '(r1, w) := Rand.Float64 w in
    let '(r2, w) := Rand.Float64 w in
    let '(r3, w) := Rand.Float64 w in
    (Star.mk (r1 * 640) (- Star.length s) (2 + r2 * 3) (8 + r3 * 8)
       (Star.color s), w)
  else (Star.mk (Star.x s) y1 (Star.speed s) (Star.length s) (Star.color s), w).

Definition updateStars (g : Game.t) (w : World) : Game.t * World :=
  let '(ss, w1) := forEachW stepStar (stars g) w in
  (set_stars ss g, w1).

(** The body of the particle loop up to the survival test. *)
Definition stepParticle (p : Particle.t) : Particle.t :=
  let p1 :=
    if negb (Particle.ptype p =? 1) then
      Particle.mk (Particle.x p + Particle.vx p) (Particle.y p + Particle.vy p)
        (Particle.vx p) (Particle.vy p + 0.1)
        (Particle.size p) (Particle.alpha p) (Particle.lifetime p)
        (Particle.ptype p)
    else p in
  Particle.mk (Particle.x p1) (Particle.y p1) (Particle.vx p1) (Particle.vy p1)
    (Particle.size p1)
    (Particle.alpha p1 - 1 / Go.float64_of_int (Particle.lifetime p1))
    (Go.sub (Particle.lifetime p1) 1) (Particle.ptype p1).

(** [p.lifetime > 0 && p.alpha > 0]. *)
Definition survives (p : Particle.t) : bool :=
  (0 <? Particle.lifetime p) && Go.fgt (Particle.alpha p) 0.

Fixpoint decayParticles (ps : list Particle.t) : list Particle.t :=
  match ps with
  | [] => []
  | p :: rest =>
      let p1 := stepParticle p in
      if survives p1 then p1 :: decayParticles rest else decayParticles rest
  end.

Definition updateParticles (g : Game.t) : Game.t :=
  set_particles (decayParticles (particles g)) g.

(** *** Playing: the player *)

Definition movePlayer (k : Key.t) (g : Game.t) : Game.t :=
  let g :=
    if Key.Left k then
      let x := (playerX g - 8)%float in
      set_playerX (if Go.flt x 20 then 20%float else x) g
    else g in
  let g :=
    if Key.Right k then
      let x := (playerX g + 8)%float in
      set_playerX (if Go.fgt x 600 then 600%float else x) g
    else g in
  let g :=
    if Key.Up k then
      let y := (playerY g - 8)%float in
      set_playerY (if Go.flt y 40 then 40%float else y) g
    else g in
  if Key.Down k then
    let y := (playerY g + 8)%float in
    set_playerY (if Go.fgt y 460 then 460%float else y) g
  else g.

(** *** Playing: the wave scheduler *)

(** The loop [for i := 0; i <= currentSpawn; i++ { totalDelay += waves[i].Delay }]
    (run only under [currentSpawn < len(waves)]). *)
Definition totalDelay (ws : list Wave.t) (cursor : Z) : Z :=
  fold_left (fun acc wv => Go.add acc (Wave.Delay wv))
    (firstn (Z.to_nat (cursor + 1)) ws) 0.

Definition spawnHP (enemyType : Z) : Z :=
  if enemyType =? EnemyTypeStraight then 2
  else if enemyType =? EnemyTypeSine then 3
  else if enemyType =? EnemyTypeSpecial then 4
  else if enemyType =? EnemyTypeBoss then 50
  else 1.

Definition newEnemy (wv : Wave.t) (cooldown : Z) : Enemy.t :=
  let speed := if (Wave.Speed wv =? 0)%float then 2%float else Wave.Speed wv in
  let turnDir := if Wave.TurnDirection wv =? 0 then 1 else Wave.TurnDirection wv in
  Enemy.mk (Go.float64_of_int (Wave.X wv)) (-20) speed (Wave.EnemyType wv) 0 0
    (spawnHP (Wave.EnemyType wv)) (Wave.ShootsBullet wv) (Wave.BulletType wv)
    cooldown turnDir 0 0 1.

Definition spawnWave (g : Game.t) (w : World) : option (Game.t * World) :=
  if currentSpawn g <? Go.len (waves g) then
    if totalDelay (waves g) (currentSpawn g) <=? waveTimer g then
      match Go.index (waves g) (currentSpawn g) with
      | None => None
      | Some wv =>
          let '(n, w1) := Rand.Intn 60 w in
          Some (set_currentSpawn (Go.add (currentSpawn g) 1)
                  (set_enemies (enemies g ++ [newEnemy wv (Go.add 60 n)]) g),
                w1)
      end
    else Some (g, w)
  else Some (g, w).

(** *** Playing: enemy movement and enemy fire *)

(** [case EnemyTypeSpecial] of the Playing loop. *)
Definition moveSpecial (e : Enemy.t) : Enemy.t :=
  if Enemy.phase e =? 0 then
    let e1 := Enemy.set_y (Enemy.y e + Enemy.speed e) e in
    if Go.fgt (Enemy.y e1) 240 then Enemy.set_phase 1 e1 else e1
  else if Enemy.phase e =? 1 then
    let e1 :=
      Enemy.set_x
        (Enemy.x e + Enemy.speed e * Go.float64_of_int (Enemy.turnDirection e)) e in
    if ((Enemy.turnDirection e1 =? 1) && Go.fgt (Enemy.x e1) 600)
       || ((Enemy.turnDirection e1 =? -1) && Go.flt (Enemy.x e1) 20)
    then Enemy.set_phase 2 e1 else e1
  else if Enemy.phase e =? 2 then
    Enemy.set_y (Enemy.y e + Enemy.speed e) e
  else e.

(** The five bullets of one boss volley, [j] from -2 to 2. *)
Definition bossVolley (e : Enemy.t) : list EnemyBullet.t :=
  map (fun j : Z =>
         let angle := (Go.float64_of_int j * 0.3)%float in
         EnemyBullet.mk (Enemy.x e + 20) (Enemy.y e + 30)
           (Math.Sin M angle * 3) (Math.Cos M angle * 3))
      [-2; -1; 0; 1; 2].

Definition bossFlash (e : Enemy.t) : Particle.t :=
  Particle.mk (Enemy.x e + 20) (Enemy.y e + 30) 0 4 100 1 8 1.

(** [case EnemyTypeBoss]: the boss with its new fields, the enemy bullets
    and the particles it appends. *)
Definition moveBoss (e : Enemy.t)
    : Enemy.t * list EnemyBullet.t * list Particle.t :=
  let e := Enemy.set_bossTimer (Go.add (Enemy.bossTimer e) 1) e in
  if Enemy.bossState e =? 0 then
    if Go.flt (Enemy.y e) 80 then
      (Enemy.set_y (Enemy.y e + Enemy.speed e) e, [], [])
    else
      let e :=
        Enemy.set_x
          (Enemy.x e + Enemy.speed e * Go.float64_of_int (Enemy.moveDirection e)) e in
      let e :=
        if Go.fle (Enemy.x e) 50 then Enemy.set_moveDirection 1 e
        else if Go.fge (Enemy.x e) 550 then Enemy.set_moveDirection (-1) e
        else e in
      if 120 <? Enemy.bossTimer e
      then (Enemy.set_bossTimer 0 (Enemy.set_bossState 1 e), [], [])
      else (e, [], [])
  else if Enemy.bossState e =? 1 then
    if 60 <? Enemy.bossTimer e
    then (Enemy.set_bossTimer 0 (Enemy.set_bossState 2 e), [], [])
    else (e, [], [])
  else if Enemy.bossState e =? 2 then
    let '(shots, flashes) :=
      if (Go.rem (Enemy.bossTimer e) 8 =? 0) && (Enemy.bossTimer e <? 80)
      then (bossVolley e, [bossFlash e])
      else ([], []) in
    if 80 <? Enemy.bossTimer e
    then (Enemy.set_bossTimer 0 (Enemy.set_bossState 3 e), shots, flashes)
    else (e, shots, flashes)
  else if Enemy.bossState e =? 3 then
    if 90 <? Enemy.bossTimer e
    then (Enemy.set_bossTimer 0 (Enemy.set_bossState 0 e), [], [])
    else (e, [], [])
  else (e, [], []).

(** [e.time += 0.05] and the [switch e.enemyType] of the Playing loop. *)
Definition moveEnemy (e : Enemy.t)
    : Enemy.t * list EnemyBullet.t * list Particle.t :=
  let e := Enemy.set_time (Enemy.time e + 0.05) e in
  if Enemy.enemyType e =? EnemyTypeStraight then
    (Enemy.set_y (Enemy.y e + Enemy.speed e) e, [], [])
  else if Enemy.enemyType e =? EnemyTypeSine then
    let e := Enemy.set_y (Enemy.y e + Enemy.speed e) e in
    (Enemy.set_x (Enemy.x e + Math.Sin M (Enemy.time e) * 3) e, [], [])
  else if Enemy.enemyType e =? EnemyTypeSpecial then (moveSpecial e, [], [])
  else if Enemy.enemyType e =? EnemyTypeBoss then moveBoss e
  else (e, [], []).

(** The velocity of an aimed bullet ([case 0]): the vector to the player
    divided by its length, times 4. *)
Definition aimedVelocity (px py : float) (e : Enemy.t) : float * float :=
  let dx := (px - Enemy.x e)%float in
  let dy := (py - Enemy.y e)%float in
  let dist := Math.Hypot M dx dy in
  ((dx / dist * 4)%float, (dy / dist * 4)%float).

(** The velocity chosen by [switch e.bulletType]; no case, no bullet. *)
Definition bulletVelocity (px py : float) (e : Enemy.t) : option (float * float) :=
  if Enemy.bulletType e =? 0 then Some (aimedVelocity px py e)
  else if Enemy.bulletType e =? 1 then Some (0, 4)%float
  else if Enemy.bulletType e =? 2 then Some (2, 4)%float
  else if Enemy.bulletType e =? 3 then Some (-2, 4)%float
  else None.

(** [if e.shootsBullet { ... }] for a player at [(px, py)]. *)
Definition fireEnemy (px py : float) (e : Enemy.t) (w : World)
    : Enemy.t * list EnemyBullet.t * list Particle.t * World :=
  if Enemy.shootsBullet e then
    let e := Enemy.set_bulletCooldown (Go.sub (Enemy.bulletCooldown e) 1) e in
    if Enemy.bulletCooldown e <=? 0 then
      let '(shots, flashes) :=
        match bulletVelocity px py e with
        | Some (vx, vy) =>
            ([EnemyBullet.mk (Enemy.x e + 10) (Enemy.y e + 20) vx vy],
             [Particle.mk (Enemy.x e + 10) (Enemy.y e + 20) vx vy 80 1 5 1])
        | None => ([], [])
        end in
      let '(n, w1) := Rand.Intn 60 w in
      (Enemy.set_bulletCooldown (Go.add 60 n) e, shots, flashes, w1)
    else (e, [], [], w)
  else (e, [], [], w).

(** One iteration of [for i := range g.enemies] in Playing. *)
Definition stepEnemy (px py : float) (e : Enemy.t) (w : World)
    : Enemy.t * list EnemyBullet.t * list Particle.t * World :=
  let '(e1, shots1, flashes1) := moveEnemy e in
  let '(e2, shots2, flashes2, w1) := fireEnemy px py e1 w in
  (e2, shots1 ++ shots2, flashes1 ++ flashes2, w1).

Fixpoint enemiesLoop (px py : float) (es : list Enemy.t)
    (ebs : list EnemyBullet.t) (ps : list Particle.t) (w : World)
    : list Enemy.t * list EnemyBullet.t * list Particle.t * World :=
  match es with
  | [] => ([], ebs, ps, w)
  | e :: rest =>
      let '(e1, shots, flashes, w1) := stepEnemy px py e w in
      let '(rest1, ebs1, ps1, w2) :=
        enemiesLoop px py rest (ebs ++ shots) (ps ++ flashes) w1 in
      (e1 :: rest1, ebs1, ps1, w2)
  end.

Definition updateEnemies (g : Game.t) (w : World) : Game.t * World :=
  let '(es, ebs, ps, w1) :=
    enemiesLoop (playerX g) (playerY g) (enemies g) (enemyBullets g)
      (particles g) w in
  (set_particles ps (set_enemyBullets ebs (set_enemies es g)), w1).

(** [if e.y < screenHeight+20 { keep }]. *)
Definition onScreen (e : Enemy.t) : bool := Go.flt (Enemy.y e) 500.

Definition cullEnemies (g : Game.t) : Game.t :=
  set_enemies (filter onScreen (enemies g)) g.

(** *** Playing: stage completion *)

Definition stageCleared (g : Game.t) : bool :=
  (Go.len (waves g) <=? currentSpawn g) && (Go.len (enemies g) =? 0).

Definition checkStageClear (g : Game.t) : Game.t :=
  if stageCleared g then
    set_stageClearKeyReleased false
      (set_stageClearTimer 0 (set_gameState GameStateStageClear g))
  else g.

(** *** Playing: the player's fire *)

(** The three bullets of a volley: angle in degrees and x offset. *)
Definition playerVolley (g : Game.t) : list Bullet.t :=
  map (fun '(deg, offset) =>
         let rad := (Math.PiOver180 * deg)%float in
         Bullet.mk (playerX g + offset) (playerY g)
           (Math.Sin M rad * 12) (- Math.Cos M rad * 12))
      [((-3)%float, 0%float); (0%float, 8%float); (3%float, 16%float)].

(** [if IsKeyPressed(Space) && shootCooldown == 0 { ... }]. *)
Definition fireVolley (k : Key.t) (g : Game.t) (w : World) : Game.t * World :=
  if Key.Space k && (shootCooldown g =? 0) then
    (set_shootCooldown 5 (set_bullets (bullets g ++ playerVolley g) g),
     Audio.Play "shoot" w)
  else (g, w).

(** [if shootCooldown > 0 { shootCooldown-- }]. *)
Definition coolDown (g : Game.t) : Game.t :=
  if 0 <? shootCooldown g
  then set_shootCooldown (Go.sub (shootCooldown g) 1) g
  else g.

Definition playerFire (k : Key.t) (g : Game.t) (w : World) : Game.t * World :=
  let '(g1, w1) := fireVolley k g w in (coolDown g1, w1).

(** *** Playing: player bullets against enemies *)

(** The hit box of an enemy: 60x40 for the boss, 20x20 otherwise. *)
Definition enemyBox (e : Enemy.t) : float * float :=
  if Enemy.enemyType e =? EnemyTypeBoss then (60, 40)%float else (20, 20)%float.

Definition bulletHits (b : Bullet.t) (e : Enemy.t) : bool :=
  let '(width, height) := enemyBox e in
  Go.flt (Bullet.x b) (Enemy.x e + width)
  && Go.fgt (Bullet.x b + 4) (Enemy.x e)
  && Go.flt (Bullet.y b) (Enemy.y e + height)
  && Go.fgt (Bullet.y b + 8) (Enemy.y e).

(** What the inner loop [for i := range g.enemies] does for one bullet: it
    stops at the first enemy the bullet overlaps, takes one hit point, and
    removes that enemy when none is left. *)
Inductive Strike : Type :=
| Miss
| Wound (es : list Enemy.t)
| Kill (es : list Enemy.t) (dead : Enemy.t).

Fixpoint strike (b : Bullet.t) (es : list Enemy.t) : Strike :=
  match es with
  | [] => Miss
  | e :: rest =>
      if bulletHits b e then
        let e1 := Enemy.set_hp (Go.sub (Enemy.hp e) 1) e in
        if Enemy.hp e1 <=? 0 then Kill rest e1 else Wound (e1 :: rest)
      else
        match strike b rest with
        | Miss => Miss
        | Wound rest1 => Wound (e :: rest1)
        | Kill rest1 dead => Kill (e :: rest1) dead
        end
  end.

Definition killScore (e : Enemy.t) : Z :=
  if Enemy.enemyType e =? EnemyTypeBoss then 1000 else 100.

(** The zero value of [color.RGBA] when no case matches. *)
Definition explosionColor (e : Enemy.t) : RGBA :=
  if Enemy.enemyType e =? EnemyTypeStraight then mkRGBA 255 0 0 255
  else if Enemy.enemyType e =? EnemyTypeSine then mkRGBA 255 165 0 255
  else if Enemy.enemyType e =? EnemyTypeSpecial then mkRGBA 255 0 255 255
  else if Enemy.enemyType e =? EnemyTypeBoss then mkRGBA 255 215 0 255
  else mkRGBA 0 0 0 0.

(** [b.y > -8 && b.x > -8 && b.x < screenWidth+8]. *)
Definition bulletInBounds (b : Bullet.t) : bool :=
  Go.fgt (Bullet.y b) (-8) && Go.fgt (Bullet.x b) (-8) && Go.flt (Bullet.x b) 648.

Definition advanceBullet (b : Bullet.t) : Bullet.t :=
  Bullet.mk (Bullet.x b + Bullet.vx b) (Bullet.y b + Bullet.vy b)
    (Bullet.vx b) (Bullet.vy b).

(** One iteration of [for _, b := range g.bullets]: the bullets kept so
    far, the session and the world. *)
Definition stepBullet (b : Bullet.t) (kept : list Bullet.t) (g : Game.t)
    (w : World) : list Bullet.t * Game.t * World :=
  match strike b (enemies g) with
  | Miss =>
      let b1 := advanceBullet b in
      (if bulletInBounds b1 then kept ++ [b1] else kept, g, w)
  | Wound es => (kept, set_enemies es g, w)
  | Kill es dead =>
      let g1 := set_score (Go.add (score g) (killScore dead)) g in
      let '(g2, w1) :=
        createExplosion (Enemy.x dead + 10) (Enemy.y dead + 10)
          (explosionColor dead) g1 w in
      (kept, set_enemies es g2, w1)
  end.

Fixpoint bulletsLoop (bs kept : list Bullet.t) (g : Game.t) (w : World)
    : list Bullet.t * Game.t * World :=
  match bs with
  | [] => (kept, g, w)
  | b :: rest =>
      let '(kept1, g1, w1) := stepBullet b kept g w in
      bulletsLoop rest kept1 g1 w1
  end.

Definition updateBullets (g : Game.t) (w : World) : Game.t * World :=
  let '(kept, g1, w1) := bulletsLoop (bullets g) [] g w in
  (set_bullets kept g1, w1).

(** *** Playing: enemy bullets and enemy bodies against the player *)

Definition green : RGBA := mkRGBA 0 255 0 255.

Definition advanceEnemyBullet (eb : EnemyBullet.t) : EnemyBullet.t :=
  EnemyBullet.mk (EnemyBullet.x eb + EnemyBullet.vx eb)
    (EnemyBullet.y eb + EnemyBullet.vy eb) (EnemyBullet.vx eb) (EnemyBullet.vy eb).

Definition enemyBulletHits (g : Game.t) (eb : EnemyBullet.t) : bool :=
  Go.flt (EnemyBullet.x eb) (playerX g + 20)
  && Go.fgt (EnemyBullet.x eb + 4) (playerX g)
  && Go.flt (EnemyBullet.y eb) (playerY g + 24)
  && Go.fgt (EnemyBullet.y eb + 8) (playerY g).

(** [eb.y < screenHeight+8 && eb.x > -8 && eb.x < screenWidth+8]. *)
Definition enemyBulletInBounds (eb : EnemyBullet.t) : bool :=
  Go.flt (EnemyBullet.y eb) 488 && Go.fgt (EnemyBullet.x eb) (-8)
  && Go.flt (EnemyBullet.x eb) 648.

(** [for _, eb := range g.enemyBullets], with its [break] at the first
    bullet that reaches the player: the bullets after it are not kept. *)
Fixpoint enemyBulletsLoop (ebs kept : list EnemyBullet.t) (g : Game.t)
    (w : World) : list EnemyBullet.t * Game.t * World :=
  match ebs with
  | [] => (kept, g, w)
  | eb :: rest =>
      let eb1 := advanceEnemyBullet eb in
      if enemyBulletHits g eb1 then
        let '(g1, w1) :=
          createExplosion (playerX g + 10) (playerY g + 12) green g w in
        (kept,
         set_playerExplosionTimer 0 (set_gameState GameStatePlayerExplosion g1),
         w1)
      else
        enemyBulletsLoop rest
          (if enemyBulletInBounds eb1 then kept ++ [eb1] else kept) g w
  end.

Definition updateEnemyBullets (g : Game.t) (w : World) : Game.t * World :=
  let '(kept, g1, w1) := enemyBulletsLoop (enemyBullets g) [] g w in
  (set_enemyBullets kept g1, w1).

Definition playerTouches (g : Game.t) (e : Enemy.t) : bool :=
  let '(width, height) := enemyBox e in
  Go.flt (playerX g) (Enemy.x e + width)
  && Go.fgt (playerX g + 20) (Enemy.x e)
  && Go.flt (playerY g) (Enemy.y e + height)
  && Go.fgt (playerY g + 24) (Enemy.y e).

(** [if g.score > g.highScore { g.highScore = g.score }]. *)
Definition recordHighScore (g : Game.t) : Game.t :=
  if highScore g <? score g then set_highScore (score g) g else g.

(** [for _, e := range g.enemies], left at the first enemy that touches
    the player. *)
Definition collidePlayer (g : Game.t) (w : World) : Game.t * World :=
  if existsb (playerTouches g) (enemies g) then
    let '(g1, w1) :=
      createExplosion (playerX g + 10) (playerY g + 12) green
        (recordHighScore g) w in
    (set_playerExplosionTimer 0 (set_gameState GameStatePlayerExplosion g1), w1)
  else (g, w).

(** [case GameStatePlaying], in two halves: up to the removal of the
    enemies that left the screen, and from the stage-completion test on. *)
Definition advanceEnemies (k : Key.t) (g : Game.t) (w : World)
    : option (Game.t * World) :=
  match spawnWave (movePlayer k g) w with
  | None => None
  | Some (g1, w1) =>
      let g2 := set_waveTimer (Go.add (waveTimer g1) 1) g1 in
      let '(g3, w3) := updateEnemies g2 w1 in
      Some (cullEnemies g3, w3)
  end.

Definition resolveCombat (k : Key.t) (g : Game.t) (w : World)
    : Game.t * World :=
  let '(g1, w1) := playerFire k (checkStageClear g) w in
  let '(g2, w2) := updateBullets g1 w1 in
  let '(g3, w3) := updateEnemyBullets g2 w2 in
  collidePlayer g3 w3.

Definition updatePlaying (k : Key.t) (g : Game.t) (w : World)
    : option (Game.t * World) :=
  match advanceEnemies k g w with
  | None => None
  | Some (g1, w1) => Some (resolveCombat k g1 w1)
  end.

(** *** The other states *)

(** [case GameStatePlayerExplosion]. *)
Definition updatePlayerExplosion (g : Game.t) : Game.t :=
  let g1 := set_playerExplosionTimer (Go.add (playerExplosionTimer g) 1) g in
  if 60 <? playerExplosionTimer g1 then set_gameState GameStateGameOver g1 else g1.

(** [g.currentStage++] and what follows it, twice in [case GameStateStageClear]. *)
Definition advanceStage (g : Game.t) : option Game.t :=
  let g1 := set_currentStage (Go.add (currentStage g) 1) g in
  if Go.len stages <=? currentStage g1 then
    Some (recordHighScore (set_gameState GameStateGameOver g1))
  else
    match Go.index stages (currentStage g1) with
    | None => None
    | Some st =>
        Some (set_gameState GameStatePlaying
                (set_enemyBullets []
                   (set_bullets []
                      (set_enemies []
                         (set_waveTimer 0
                            (set_currentSpawn 0 (set_waves (Stage.Waves st) g1)))))))
    end.

(** [case GameStateStageClear]; the first branch ends in [return nil]. *)
Definition updateStageClear (k : Key.t) (g : Game.t) : option Game.t :=
  let g1 := set_stageClearTimer (Go.add (stageClearTimer g) 1) g in
  let g2 :=
    if (60 <? stageClearTimer g1) && negb (Key.Space k)
    then set_stageClearKeyReleased true g1 else g1 in
  if (60 <? stageClearTimer g2) && stageClearKeyReleased g2 && Key.Space k
  then advanceStage g2
  else if 120 <? stageClearTimer g2 then advanceStage g2
  else Some g2.

(** The enemy loop of [case GameStateGameOver]: no boss case, no fire, and
    a second copy of the special enemy's phases. *)
Definition moveSpecialGameOver (e : Enemy.t) : Enemy.t :=
  if Enemy.phase e =? 0 then
    let e1 := Enemy.set_y (Enemy.y e + Enemy.speed e) e in
    if Go.fgt (Enemy.y e1) 240 then Enemy.set_phase 1 e1 else e1
  else if Enemy.phase e =? 1 then
    let e1 := Enemy.set_x (Enemy.x e + Enemy.speed e) e in
    if Go.fgt (Enemy.x e1) 600 then Enemy.set_phase 2 e1 else e1
  else if Enemy.phase e =? 2 then
    Enemy.set_y (Enemy.y e + Enemy.speed e) e
  else e.

Definition moveEnemyGameOver (e : Enemy.t) : Enemy.t :=
  let e := Enemy.set_time (Enemy.time e + 0.05) e in
  if Enemy.enemyType e =? EnemyTypeStraight then
    Enemy.set_y (Enemy.y e + Enemy.speed e) e
  else if Enemy.enemyType e =? EnemyTypeSine then
    let e := Enemy.set_y (Enemy.y e + Enemy.speed e) e in
    Enemy.set_x (Enemy.x e + Math.Sin M (Enemy.time e) * 3) e
  else if Enemy.enemyType e =? EnemyTypeSpecial then moveSpecialGameOver e
  else e.

(** [case GameStateGameOver]: [*g = *NewGame()] replaces every field. *)
Definition updateGameOver (k : Key.t) (g : Game.t) (w : World)
    : option (Game.t * World) :=
  let g1 := cullEnemies (set_enemies (map moveEnemyGameOver (enemies g)) g) in
  if Key.R k then
    match NewGame w with
    | None => None
    | Some (fresh, w1) => Some (set_gameState GameStatePlaying fresh, w1)
    end
  else Some (g1, w).

(** [nextWave], kept in the source without a caller: the test follows the
    reset of the cursor. *)
Definition nextWave (g : Game.t) : option Game.t :=
  let g1 := set_waveTimer 0 (set_currentSpawn 0 g) in
  if Go.len (waves g1) <=? currentSpawn g1 then
    let g2 := set_currentStage (Go.add (currentStage g1) 1) g1 in
    if Go.len stages <=? currentStage g2 then
      Some (recordHighScore (set_gameState GameStateGameOver g2))
    else
      match Go.index stages (currentStage g2) with
      | None => None
      | Some st => Some (set_currentSpawn 0 (set_waves (Stage.Waves st) g2))
      end
  else Some g1.

(** *** [Update] *)

(** The part of [Update] that runs in every state. *)
Definition ambient (g : Game.t) (w : World) : Game.t * World :=
  let '(g1, w1) := updateStars g w in (updateParticles g1, w1).

Definition Update (k : Key.t) (g : Game.t) (w : World)
    : option (Game.t * World) :=
  let '(g2, w1) := ambient g w in
  match gameState g2 with
  | GameStateTitle =>
      Some (if Key.Space k then set_gameState GameStatePlaying g2 else g2, w1)
  | GameStatePlaying => updatePlaying k g2 w1
  | GameStatePlayerExplosion => Some (updatePlayerExplosion g2, w1)
  | GameStateStageClear =>
      match updateStageClear k g2 with
      | None => None
      | Some g3 => Some (g3, w1)
      end
  | GameStateGameOver => updateGameOver k g2 w1
  end.

(** One frame per sampled key state, in order. *)
Fixpoint frames (ks : list Key.t) (g : Game.t) (w : World)
    : option (Game.t * World) :=
  match ks with
  | [] => Some (g, w)
  | k :: rest =>
      match Update k g w with
      | None => None
      | Some (g1, w1) => frames rest g1 w1
      end
  end.

End Simulation.

(** * The sound manager of [audio/sound.go] and [audio/init.go]

    Conventions of the embedding:
    - an ebiten [audio.Player] is what the package can tell of it: whether
      it plays, where in the sample it stands, and its volume; [Play],
      [Pause], [Rewind] and [SetVolume] are its four methods the package
      calls, and a player that plays moves forward in its sample as time
      passes;
    - a timer of [time.AfterFunc] waits, is stopped, or has expired with
      its function started; [Stop] only prevents a waiting timer from
      firing.  The function begins with [sound.mutex.Lock()], so between
      the expiry and the run of its body other methods may run;
    - every method holds [sound.mutex] from the lookup of the name to its
      end: a method is one step;
    - [sm.sounds] maps a name to one [SoundEffect]: an association list
      with one entry per name;
    - reading and decoding the sample belong to [io] and [mp3]: whether
      they succeed is an argument of [LoadSound];
    - a slice index out of range is a run-time panic: [None]. *)

Module Sound.

Definition MaxChannels : nat := 8.

(** ** The collaborators outside the package *)

Record Player : Type := mkPlayer {
  running : bool;
  position : nat;
  gain : float
}.

Definition playerPlay (p : Player) : Player :=
  mkPlayer true (position p) (gain p).

Definition playerPause (p : Player) : Player :=
  mkPlayer false (position p) (gain p).

Definition playerRewind (p : Player) : Player :=
  mkPlayer (running p) 0 (gain p).

Definition playerSetVolume (v : float) (p : Player) : Player :=
  mkPlayer (running p) (position p) v.

(** A player as [context.NewPlayer] returns it: paused at the start, at
    full volume. *)
Definition newPlayer : Player := mkPlayer false 0 1.

Inductive TimerState : Type :=
| Waiting
| Stopped
| Expired
| Finished.

(** A timer of [time.AfterFunc]: the channel its function closes over, and
    its state. *)
Record Timer : Type := mkTimer {
  channel : nat;
  state : TimerState
}.

Definition timerStop (t : Timer) : Timer :=
  match state t with
  | Waiting => mkTimer (channel t) Stopped
  | _ => t
  end.

(** ** [SoundEffect] *)

(** [stopTimers] holds [nil] or a reference into [timers], the timers
    armed for this effect so far. *)
Record SoundEffect : Type := mkEffect {
  players : list Player;
  volume : float;
  pan : float;
  isPlaying : list bool;
  stopTimers : list (option nat);
  timers : list Timer
}.

Definition set_players (v : list Player) (s : SoundEffect) : SoundEffect :=
  mkEffect v (volume s) (pan s) (isPlaying s) (stopTimers s) (timers s).

Definition set_volume (v : float) (s : SoundEffect) : SoundEffect :=
  mkEffect (players s) v (pan s) (isPlaying s) (stopTimers s) (timers s).

Definition set_pan (v : float) (s : SoundEffect) : SoundEffect :=
  mkEffect (players s) (volume s) v (isPlaying s) (stopTimers s) (timers s).

Definition set_isPlaying (v : list bool) (s : SoundEffect) : SoundEffect :=
  mkEffect (players s) (volume s) (pan s) v (stopTimers s) (timers s).

Definition set_stopTimers (v : list (option nat)) (s : SoundEffect)
    : SoundEffect :=
  mkEffect (players s) (volume s) (pan s) (isPlaying s) v (timers s).

Definition set_timers (v : list Timer) (s : SoundEffect) : SoundEffect :=
  mkEffect (players s) (volume s) (pan s) (isPlaying s) (stopTimers s) v.

(** The steps of a method that may panic. *)
Definition bind {A B : Type} (o : option A) (k : A -> option B) : option B :=
  match o with
  | Some a => k a
  | None => None
  end.

Notation "x <- e ;; k" := (bind e (fun x => k))
  (at level 61, e at next level, right associativity).

(** [l[i] = a]. *)
Fixpoint assign {A : Type} (l : list A) (i : nat) (a : A) {struct l}
    : option (list A) :=
  match l, i with
  | [], _ => None
  | _ :: rest, O => Some (a :: rest)
  | x :: rest, S i' => option_map (cons x) (assign rest i' a)
  end.

(** A method call on the timer a reference points at. *)
Fixpoint onTimer (f : Timer -> Timer) (t : nat) (l : list Timer) {struct l}
    : list Timer :=
  match l, t with
  | [], _ => []
  | x :: rest, O => f x :: rest
  | x :: rest, S t' => x :: onTimer f t' rest
  end.

(** [sound.players[ch].m()] for a method [m] of the player. *)
Definition onPlayer (m : Player -> Player) (ch : nat) (s : SoundEffect)
    : option SoundEffect :=
  p <- nth_error (players s) ch ;;
  ps <- assign (players s) ch (m p) ;;
  Some (set_players ps s).

(** [if sound.stopTimers[ch] != nil { sound.stopTimers[ch].Stop() }]. *)
Definition stopTimerOf (ch : nat) (s : SoundEffect) : option SoundEffect :=
  ref <- nth_error (stopTimers s) ch ;;
  match ref with
  | None => Some s
  | Some t => Some (set_timers (onTimer timerStop t (timers s)) s)
  end.

(** The search for a free channel: [Some None] is the [-1] of the source. *)
Fixpoint findFree (n i : nat) (flags : list bool) : option (option nat) :=
  match n with
  | O => Some None
  | S n' =>
      flag <- nth_error flags i ;;
      if negb flag then Some (Some i) else findFree n' (S i) flags
  end.

(** The body of [Play] under [sound.mutex]. *)
Definition play (s : SoundEffect) : option SoundEffect :=
  found <- findFree MaxChannels 0 (isPlaying s) ;;
  chs <- match found with
         | Some ch => Some (ch, s)
         | None =>
             s <- stopTimerOf 0 s ;;
             s <- onPlayer playerPause 0 s ;;
             s <- onPlayer playerRewind 0 s ;;
             Some (O, s)
         end ;;
  let '(ch, s) := chs in
  s <- onPlayer playerPlay ch s ;;
  flags <- assign (isPlaying s) ch true ;;
  s <- stopTimerOf ch (set_isPlaying flags s) ;;
  refs <- assign (stopTimers s) ch (Some (List.length (timers s))) ;;
  Some (set_timers (timers s ++ [mkTimer ch Waiting]) (set_stopTimers refs s)).

(** The function given to [time.AfterFunc], for the channel it closes
    over. *)
Definition callback (ch : nat) (s : SoundEffect) : option SoundEffect :=
  flag <- nth_error (isPlaying s) ch ;;
  if flag then
    s <- onPlayer playerPause ch s ;;
    s <- onPlayer playerRewind ch s ;;
    flags <- assign (isPlaying s) ch false ;;
    refs <- assign (stopTimers (set_isPlaying flags s)) ch None ;;
    Some (set_stopTimers refs (set_isPlaying flags s))
  else Some s.

(** One iteration of the loop of [Stop]. *)
Definition stopChannel (i : nat) (s : SoundEffect) : option SoundEffect :=
  flag <- nth_error (isPlaying s) i ;;
  if flag then
    ref <- nth_error (stopTimers s) i ;;
    s <- match ref with
         | None => Some s
         | Some t =>
             refs <- assign (stopTimers s) i None ;;
             Some (set_stopTimers refs
                     (set_timers (onTimer timerStop t (timers s)) s))
         end ;;
    s <- onPlayer playerPause i s ;;
    s <- onPlayer playerRewind i s ;;
    flags <- assign (isPlaying s) i false ;;
    Some (set_isPlaying flags s)
  else Some s.

Fixpoint stopFrom (n i : nat) (s : SoundEffect) : option SoundEffect :=
  match n with
  | O => Some s
  | S n' => s1 <- stopChannel i s ;; stopFrom n' (S i) s1
  end.

(** The body of [Stop] under [sound.mutex]. *)
Definition stop (s : SoundEffect) : option SoundEffect :=
  stopFrom MaxChannels 0 s.

(** The body of [SetVolume]. *)
Definition setVolume (v : float) (s : SoundEffect) : SoundEffect :=
  set_players (map (playerSetVolume v) (players s)) (set_volume v s).

(** The body of [SetPan]: the field only. *)
Definition setPan (p : float) (s : SoundEffect) : SoundEffect := set_pan p s.

(** The effect [LoadSound] builds. *)
Definition newEffect : SoundEffect :=
  mkEffect (repeat newPlayer MaxChannels) 1 0 (repeat false MaxChannels)
    (repeat None MaxChannels) [].

(** ** What happens between two methods *)

(** A waiting timer expires: its function is started. *)
Definition expire (t : nat) (s : SoundEffect) : SoundEffect :=
  set_timers
    (onTimer (fun tm => match state tm with
                        | Waiting => mkTimer (channel tm) Expired
                        | _ => tm
                        end) t (timers s)) s.

(** The function of an expired timer gets the mutex and runs. *)
Definition run (t : nat) (s : SoundEffect) : option SoundEffect :=
  match nth_error (timers s) t with
  | Some tm =>
      match state tm with
      | Expired =>
          callback (channel tm)
            (set_timers (onTimer (fun tm => mkTimer (channel tm) Finished) t
                           (timers s)) s)
      | _ => Some s
      end
  | None => Some s
  end.

(** Time passes: a playing player moves [d] samples on. *)
Definition elapse (ch d : nat) (s : SoundEffect) : SoundEffect :=
  match nth_error (players s) ch with
  | Some p =>
      if running p then
        match assign (players s) ch (mkPlayer true (position p + d) (gain p)) with
        | Some ps => set_players ps s
        | None => s
        end
      else s
  | None => s
  end.

(** A playing player reaches the end of its sample and stops by itself. *)
Definition finish (ch : nat) (s : SoundEffect) : SoundEffect :=
  match nth_error (players s) ch with
  | Some p =>
      if running p then
        match assign (players s) ch (playerPause p) with
        | Some ps => set_players ps s
        | None => s
        end
      else s
  | None => s
  end.

Inductive Event : Type :=
| EvPlay
| EvStop
| EvSetVolume (v : float)
| EvSetPan (p : float)
| EvExpire (t : nat)
| EvRun (t : nat)
| EvElapse (ch d : nat)
| EvFinish (ch : nat).

Definition step (ev : Event) (s : SoundEffect) : option SoundEffect :=
  match ev with
  | EvPlay => play s
  | EvStop => stop s
  | EvSetVolume v => Some (setVolume v s)
  | EvSetPan p => Some (setPan p s)
  | EvExpire t => Some (expire t s)
  | EvRun t => run t s
  | EvElapse ch d => Some (elapse ch d s)
  | EvFinish ch => Some (finish ch s)
  end.

Fixpoint steps (evs : list Event) (s : SoundEffect) : option SoundEffect :=
  match evs with
  | [] => Some s
  | ev :: rest => s1 <- step ev s ;; steps rest s1
  end.

(** ** [SoundManager] *)

(** [sm.sounds]; the audio context is not modelled. *)
Record SoundManager : Type := mkManager {
  sounds : list (string * SoundEffect)
}.

Fixpoint lookup (name : string) (m : list (string * SoundEffect))
    : option SoundEffect :=
  match m with
  | [] => None
  | (n, s) :: rest => if String.eqb n name then Some s else lookup name rest
  end.

Fixpoint store (name : string) (s : SoundEffect)
    (m : list (string * SoundEffect)) : list (string * SoundEffect) :=
  match m with
  | [] => [(name, s)]
  | (n, s0) :: rest =>
      if String.eqb n name then (n, s) :: rest else (n, s0) :: store name s rest
  end.

(** [GetInstance()] on its first call. *)
Definition GetInstance : SoundManager := mkManager [].

(** [LoadSound]; with [ok = false] reading or decoding fails and the error
    is returned. *)
Definition LoadSound (name : string) (ok : bool) (sm : SoundManager)
    : SoundManager * bool :=
  if ok then (mkManager (store name newEffect (sounds sm)), true)
  else (sm, false).

(** A method that looks the name up, returns when it is not there, and
    runs [body] on the effect otherwise. *)
Definition withSound (name : string) (body : SoundEffect -> option SoundEffect)
    (sm : SoundManager) : option SoundManager :=
  match lookup name (sounds sm) with
  | None => Some sm
  | Some s =>
      s1 <- body s ;;
      Some (mkManager (store name s1 (sounds sm)))
  end.

Definition Play (name : string) (sm : SoundManager) : option SoundManager :=
  withSound name play sm.

Definition Stop (name : string) (sm : SoundManager) : option SoundManager :=
  withSound name stop sm.

Definition SetVolume (name : string) (v : float) (sm : SoundManager)
    : option SoundManager :=
  withSound name (fun s => Some (setVolume v s)) sm.

Definition SetPan (name : string) (p : float) (sm : SoundManager)
    : option SoundManager :=
  withSound name (fun s => Some (setPan p s)) sm.

(** [Initialize]; [opens] is the outcome of [os.Open], [decodes] that of
    [LoadSound].  The boolean is [err == nil]. *)
Definition Initialize (opens decodes : bool) (sm : SoundManager)
    : option (SoundManager * bool) :=
  if opens then
    let '(sm1, ok) := LoadSound "shoot" decodes sm in
    if ok then
      sm2 <- SetVolume "shoot" 0.7 sm1 ;;
      sm3 <- SetPan "shoot" 0 sm2 ;;
      Some (sm3, true)
    else Some (sm, false)
  else Some (sm, false).

(** ** Notions for the properties *)

(** The effects a program can hold: a new one, and what the methods, the
    timers and the passing of time make of one. *)
Inductive Reachable : SoundEffect -> Prop :=
| reach_new : Reachable newEffect
| reach_step (ev : Event) (s s1 : SoundEffect) :
    Reachable s -> step ev s = Some s1 -> Reachable s1.

(** The number of channels in use. *)
Definition busy (s : SoundEffect) : nat :=
  List.length (filter (fun b => b) (isPlaying s)).

(** A channel not in use has its player paused at the start. *)
Definition idleRewound (s : SoundEffect) : Prop :=
  forall i p,
    nth_error (isPlaying s) i = Some false ->
    nth_error (players s) i = Some p ->
    running p = false /\ position p = O.

(** A channel not in use has no timer. *)
Definition idleUnarmed (s : SoundEffect) : Prop :=
  forall i,
    nth_error (isPlaying s) i = Some false ->
    nth_error (stopTimers s) i = Some None.

(** The three slices have [MaxChannels] elements and every timer closes
    over a channel below [MaxChannels]. *)
Definition shaped (s : SoundEffect) : Prop :=
  List.length (players s) = MaxChannels
  /\ List.length (isPlaying s) = MaxChannels
  /\ List.length (stopTimers s) = MaxChannels
  /\ Forall (fun tm => (channel tm < MaxChannels)%nat) (timers s).

(** What a channel is made of: its player, its flag and its timer. *)
Definition chan (s : SoundEffect) (j : nat)
    : option Player * option bool * option (option nat) :=
  (nth_error (players s) j, nth_error (isPlaying s) j,
   nth_error (stopTimers s) j).

(** A channel not in use has no timer and its player is paused at the
    start. *)
Definition atRest (c : option Player * option bool * option (option nat))
    : Prop :=
  let '(p, b, r) := c in
  b = Some false ->
  r = Some None
  /\ forall p1, p = Some p1 -> running p1 = false /\ position p1 = O.

Definition invariant (s : SoundEffect) : Prop :=
  shaped s /\ forall j, atRest (chan s j).

(** The timers of [l1] are those of [l], waiting ones possibly stopped. *)
Definition keeps (l l1 : list Timer) : Prop :=
  List.length l1 = List.length l
  /\ forall j tm,
       nth_error l j = Some tm ->
       exists tm1,
         nth_error l1 j = Some tm1 /\ channel tm1 = channel tm
         /\ (state tm <> Waiting -> tm1 = tm).

(** Channel [ch] of [s] stopped: its player paused and rewound, its flag
    and its timer reference cleared; the rest of [s] as it was. *)
Definition silenced (ch : nat) (s s1 : SoundEffect) : Prop :=
  exists p ps flags refs ts,
    nth_error (players s) ch = Some p
    /\ assign (players s) ch (playerRewind (playerPause p)) = Some ps
    /\ assign (isPlaying s) ch false = Some flags
    /\ assign (stopTimers s) ch None = Some refs
    /\ keeps (timers s) ts
    /\ s1 = mkEffect ps (volume s) (pan s) flags refs ts.

(** Every channel is in use. *)
Definition allBusy (s : SoundEffect) : Prop :=
  forall i, (i < MaxChannels)%nat -> nth_error (isPlaying s) i = Some true.

(** Eight calls of [Play] on a new effect, and the first timer expired. *)
Definition crowded : option SoundEffect :=
  steps (repeat EvPlay 8 ++ [EvExpire 0]) newEffect.

(** Three calls of [Play] on a new effect, the first sound over. *)
Definition trio : option SoundEffect :=
  steps [EvPlay; EvPlay; EvPlay; EvElapse 0 100; EvExpire 0; EvRun 0]
    newEffect.

(** A manager with two sounds, one playing. *)
Definition twoSounds : SoundManager :=
  mkManager [("shoot"%string, newEffect); ("boom"%string, newEffect)].

End Sound.

(** Arithmetic over the number of channels. *)
Ltac chlia := unfold Sound.MaxChannels in *; cbn [List.length] in *; lia.
(** ** A concrete environment to run the simulation *)

Module Sample.

Local Open Scope float_scope.

(** [math.Hypot] after the portable algorithm of Go's library: the larger
    magnitude times the square root of one plus the squared ratio, with
    the infinite, not-a-number and zero cases first. *)
Definition hypot (p q : float) : float :=
  let p := abs p in
  let q := abs q in
  if (p =? infinity) || (q =? infinity) then infinity
  else if is_nan p || is_nan q then nan
  else
    let hi := if p <? q then q else p in
    let lo := if p <? q then p else q in
    if hi =? 0 then 0
    else let r := lo / hi in hi * PrimFloat.sqrt (1 + r * r).

(** Stand-ins for [math.Sin] and [math.Cos]: the Taylor polynomials of
    degree 11 and 10.  They are close to the real functions on the small
    angles the game uses and are not bit-exact; every theorem below holds
    for an arbitrary [Math.Lib]. *)
Definition sin (x : float) : float :=
  let z := x * x in
  x * (1 - z / 6 * (1 - z / 20 * (1 - z / 42 * (1 - z / 72 * (1 - z / 110))))).

Definition cos (x : float) : float :=
  let z := x * x in
  1 - z / 2 * (1 - z / 12 * (1 - z / 30 * (1 - z / 56 * (1 - z / 90)))).

Definition math : Math.Lib := Math.mkLib sin cos hypot.

(** A world whose raw draws are a linear congruential sequence. *)
Definition world : World :=
  mkWorld (fun n => (Z.of_nat n * 6364136223846793005 + 1442695040888963407) mod 2 ^ 63)%Z
    O [].

(** A straight enemy that does not shoot, entering at [x] after [delay]. *)
Definition straight (x delay : Z) : Wave.t :=
  Wave.mk EnemyTypeStraight x delay false 0 0 0.

(** One stage whose delays are 0, 30, 30. *)
Definition stages : list Stage.t :=
  [ Stage.mk "Stage 1" [ straight 100 0; straight 320 30; straight 540 30 ] ].

End Sample.

(** ** Notions used to state the properties *)

(** The sum of the [Delay] fields of waves [0..i], as an integer. *)
Definition prefixDelay (ws : list Wave.t) (i : Z) : Z :=
  fold_right Z.add 0 (map Wave.Delay (firstn (Z.to_nat (i + 1)) ws)).

(** An enemy bullet reaches the player of [g] after its move. *)
Definition shotBy (g : Game.t) (eb : EnemyBullet.t) : bool :=
  enemyBulletHits g (advanceEnemyBullet eb).

(** One bullet of the player's volley: [deg] degrees off straight up,
    [offset] to the right of the player, speed 12. *)
Definition volleyBullet (M : Math.Lib) (g : Game.t) (deg offset : float) : Bullet.t :=
  Bullet.mk (playerX g + offset) (playerY g)
    (Math.Sin M (Math.PiOver180 * deg) * 12)
    (- Math.Cos M (Math.PiOver180 * deg) * 12).

(** The session is in play, or left play at most [m] frames ago: the
    timer of the stage-clear or explosion screen is still at most [m]. *)
Definition settled (m : Z) (g : Game.t) : Prop :=
  gameState g = GameStatePlaying
  \/ (gameState g = GameStateStageClear /\ 0 <= stageClearTimer g <= m)
  \/ (gameState g = GameStatePlayerExplosion /\ 0 <= playerExplosionTimer g <= m).








(** The lifetimes particles are created with: 5 (an enemy's muzzle
    flash), 8 (the boss's) and 30 to 49 (an explosion). *)
Definition spawnLifetimes : list Z :=
  [5; 8] ++ map (fun n => 30 + Z.of_nat n) (seq 0 20).

(** Alpha and lifetime after [n] runs of the particle loop's body. *)
Fixpoint decayed (n : nat) (a : float) (l : Z) : float * Z :=
  match n with
  | O => (a, l)
  | S n' =>
      let '(a1, l1) := decayed n' a l in
      ((a1 - 1 / Go.float64_of_int l1)%float, Go.sub l1 1)
  end.

(** A particle as the code creates it. *)
Definition fresh (p : Particle.t) : Prop :=
  Particle.alpha p = 1%float /\ In (Particle.lifetime p) spawnLifetimes.

(** A particle of the collection: created by the code, aged by the
    particle loop for some frames, and still passing its survival test. *)
Definition sound (p : Particle.t) : Prop :=
  (exists life n,
      In life spawnLifetimes /\ (n <= Z.to_nat life)%nat
      /\ (Particle.alpha p, Particle.lifetime p) = decayed n 1 life)
  /\ survives p = true.

(** A step that only appends particles the code has just created. *)
Definition grows (g g1 : Game.t) : Prop :=
  exists news, particles g1 = particles g ++ news /\ Forall fresh news.

(** An enemy of the live collection: between 1 and 50 hit points. *)
Definition healthy (e : Enemy.t) : Prop := 0 < Enemy.hp e <= 50.

(** The player-bullet pass of one frame, bullet by bullet: the bullets
    still to test, the bullets kept, the live enemies, the score and the
    number of explosions so far, then the same at the end of the pass.  A
    bullet that overlaps no live enemy moves on and is kept while in bounds;
    one that overlaps takes exactly one hit point from the first enemy it
    overlaps and is not kept; an enemy whose last hit point is taken leaves
    the live enemies, pays its score and sets off one explosion. *)
Inductive BulletPass :
    list Bullet.t -> list Bullet.t -> list Enemy.t -> Z -> nat ->
    list Bullet.t -> list Enemy.t -> Z -> nat -> Prop :=
| pass_end (kept : list Bullet.t) (es : list Enemy.t) (s : Z) (n : nat) :
    BulletPass [] kept es s n kept es s n
| pass_miss (b : Bullet.t) (rest kept : list Bullet.t) (es : list Enemy.t)
    (s : Z) (n : nat) (kept1 : list Bullet.t) (es1 : list Enemy.t) (s1 : Z)
    (n1 : nat) :
    Forall (fun e => bulletHits b e = false) es ->
    BulletPass rest
      (if bulletInBounds (advanceBullet b) then kept ++ [advanceBullet b]
       else kept) es s n kept1 es1 s1 n1 ->
    BulletPass (b :: rest) kept es s n kept1 es1 s1 n1
| pass_wound (b : Bullet.t) (rest kept : list Bullet.t) (l : list Enemy.t)
    (e : Enemy.t) (r : list Enemy.t) (s : Z) (n : nat)
    (kept1 : list Bullet.t) (es1 : list Enemy.t) (s1 : Z) (n1 : nat) :
    Forall (fun e0 => bulletHits b e0 = false) l ->
    bulletHits b e = true ->
    1 < Enemy.hp e ->
    BulletPass rest kept (l ++ Enemy.set_hp (Enemy.hp e - 1) e :: r) s n
      kept1 es1 s1 n1 ->
    BulletPass (b :: rest) kept (l ++ e :: r) s n kept1 es1 s1 n1
| pass_kill (b : Bullet.t) (rest kept : list Bullet.t) (l : list Enemy.t)
    (e : Enemy.t) (r : list Enemy.t) (s : Z) (n : nat)
    (kept1 : list Bullet.t) (es1 : list Enemy.t) (s1 : Z) (n1 : nat) :
    Forall (fun e0 => bulletHits b e0 = false) l ->
    bulletHits b e = true ->
    Enemy.hp e = 1 ->
    BulletPass rest kept (l ++ r)
      (Go.add s (if Enemy.enemyType e =? EnemyTypeBoss then 1000 else 100))
      (S n) kept1 es1 s1 n1 ->
    BulletPass (b :: rest) kept (l ++ e :: r) s n kept1 es1 s1 n1.

(** The sessions the program can be in: the one [NewGame] builds, and
    whatever [Update] makes of a session it can be in, under any keys and
    any state of the random source. *)
Inductive Reachable (M : Math.Lib) (stages : list Stage.t) : Game.t -> Prop :=
| reach_NewGame (w : World) (g : Game.t) (w1 : World) :
    NewGame stages w = Some (g, w1) -> Reachable M stages g
| reach_Update (k : Key.t) (g : Game.t) (w : World) (g1 : Game.t) (w1 : World) :
    Reachable M stages g -> Update M stages k g w = Some (g1, w1) ->
    Reachable M stages g1.

(** The indices [Update] uses stay inside their slices. *)
Definition wellFormed (stages : list Stage.t) (g : Game.t) : Prop :=
  stages <> []
  /\ 0 <= currentSpawn g <= Go.len (waves g) /\ Go.len (waves g) <= Go.maxInt
  /\ 0 <= currentStage g <= Go.len stages
  /\ (gameState g <> GameStateGameOver -> currentStage g < Go.len stages).

Module Scenario.

(** A session in play on [Sample.stages], as [NewGame] leaves it once the
    title screen is left, without the decorative stars. *)
Definition playing : Game.t :=
  Game.mk 320 408 [] 0 [] []
    [ Sample.straight 100 0; Sample.straight 320 30; Sample.straight 540 30 ]
    0 0 0 GameStatePlaying 0 [] 0 0 false 0 [].

(** The session [NewGame] builds, after one frame with the fire key held
    to leave the title screen. *)
Definition start : option (Game.t * World) :=
  match NewGame Sample.stages Sample.world with
  | None => None
  | Some (g, w) =>
      Update Sample.math Sample.stages (Key.mk false false false false true false) g w
  end.

(** The values of [waveTimer] at the start of the frames, among [n]
    frames without keys, during which the spawn cursor moved. *)
Fixpoint spawnTicks (n : nat) (g : Game.t) (w : World) : list Z :=
  match n with
  | O => []
  | S n' =>
      match Update Sample.math Sample.stages Key.none g w with
      | None => []
      | Some (g1, w1) =>
          (if currentSpawn g1 =? currentSpawn g then [] else [waveTimer g])
            ++ spawnTicks n' g1 w1
      end
  end.

(** A stage without waves, just entered. *)
Definition emptyStage : Game.t :=
  Game.mk 320 408 [] 0 [] [] [] 0 0 0 GameStatePlaying 0 [] 0 0 false 0 [].

(** The same, with one enemy bullet at rest over the player. *)
Definition emptyStageUnderFire : Game.t :=
  Game.mk 320 408 [] 0 [] [] [] 0 0 0 GameStatePlaying 0 [] 0 0 false 0
    [ EnemyBullet.mk 325 410 0 0 ].

(** A straight enemy with two hit points at [(x, y)]. *)
Definition grunt (x y : float) : Enemy.t :=
  Enemy.mk x y 2 EnemyTypeStraight 0 0 2 false 0 0 1 0 0 1.

Definition allWaves : list Wave.t :=
  [ Sample.straight 100 0; Sample.straight 320 30; Sample.straight 540 30 ].

(** Every wave spawned, one enemy far from the player, a score of 300 over
    a high score of 0, and an enemy bullet at rest over the player. *)
Definition shot : Game.t :=
  Game.mk 320 408 [] 0 [] [ grunt 100 100 ] allWaves 61 3 300
    GameStatePlaying 0 [] 0 0 false 0 [ EnemyBullet.mk 325 410 0 0 ].

(** The same without the bullet, the enemy about to touch the player. *)
Definition rammed : Game.t :=
  Game.mk 320 408 [] 0 [] [ grunt 320 400 ] allWaves 61 3 300
    GameStatePlaying 0 [] 0 0 false 0 [].

(** A finished session: 500 points, recorded as the high score. *)
Definition over : Game.t :=
  Game.mk 320 408 [ Bullet.mk 10 10 0 (-12) ] 0 [] [ grunt 100 100 ] allWaves
    400 3 500 GameStateGameOver 500
    [ Particle.mk 5 5 1 1 4 0.5 10 0 ] 1 0 false 61 [ EnemyBullet.mk 50 50 0 4 ].

(** An aiming enemy about to fire, standing exactly on the player. *)
Definition onPlayer : Enemy.t :=
  Enemy.mk 320 408 2 EnemyTypeStraight 0 0 2 true 0 1 1 0 0 1.


(** A session on the title screen with one particle of an explosion. *)
Definition sparkling : Game.t :=
  Game.mk 320 408 [] 0 [] [] allWaves 0 0 0 GameStateTitle 0
    [ Particle.mk 5 5 1 1 4 1 30 0 ] 0 0 false 0 [].

(** Every wave spawned, one enemy left with one player bullet inside it. *)
Definition duel : Game.t :=
  Game.mk 320 408 [ Bullet.mk 105 105 0 (-12) ] 0 [] [ grunt 100 100 ] allWaves
    61 3 0 GameStatePlaying 0 [] 0 0 false 0 [].


(** The stage-clear screen just entered, and the explosion just begun. *)
Definition cleared : Game.t :=
  Game.mk 320 408 [] 0 [] [] allWaves 300 3 200 GameStateStageClear 0 [] 0 0
    false 0 [].

Definition exploding : Game.t :=
  Game.mk 320 408 [] 0 [] [ grunt 100 100 ] allWaves 61 3 300
    GameStatePlayerExplosion 0 [] 0 0 false 0 [].

Definition keySpace : Key.t := Key.mk false false false false true false.
Definition keyR : Key.t := Key.mk false false false false false true.
Definition keyLeftFire : Key.t := Key.mk true false false false true false.

(** A session begun by [NewGame] and run for 45 frames with the left and
    fire keys held. *)
Abbreviation session :=
  (match NewGame Sample.stages Sample.world with
   | Some (g0, w0) =>
       frames Sample.math Sample.stages (repeat keyLeftFire 45) g0 w0
   | None => None
   end).

End Scenario.

(** ** Proof steps used throughout *)

(** A record is the chain of updates that writes back its own fields. *)
Ltac eta g := destruct g; reflexivity.

(** Case analysis on every test of the goal. *)
Ltac split_ifs :=
  repeat match goal with
         | |- context [if ?c then _ else _] => destruct c eqn:?
         end.

(** Linear arithmetic over the bounds of [int] and the lengths of slices. *)
Ltac golia := unfold Go.len, Go.minInt, Go.maxInt in *; lia.

(** ** Notions for the properties of the state machine and the collections *)

(** The transitions of the top-level state that one frame can make. *)
Definition mayFollow (s s1 : GameState) : bool :=
  match s, s1 with
  | GameStateTitle, (GameStateTitle | GameStatePlaying) => true
  | GameStatePlaying,
    (GameStatePlaying | GameStateStageClear | GameStatePlayerExplosion) => true
  | GameStateStageClear,
    (GameStateStageClear | GameStatePlaying | GameStateGameOver) => true
  | GameStatePlayerExplosion,
    (GameStatePlayerExplosion | GameStateGameOver) => true
  | GameStateGameOver, (GameStateGameOver | GameStatePlaying) => true
  | _, _ => false
  end.

(** The frames under the keys [ks] all run and each ends in state [s]. *)
Fixpoint staysIn (M : Math.Lib) (stages : list Stage.t) (s : GameState)
    (ks : list Key.t) (g : Game.t) (w : World) : Prop :=
  match ks with
  | [] => True
  | k :: rest =>
      match Update M stages k g w with
      | Some (g1, w1) => gameState g1 = s /\ staysIn M stages s rest g1 w1
      | None => False
      end
  end.

(** What the explosion, stage-clear and game-over screens leave alone. *)
Definition sameBoard (g g1 : Game.t) : Prop :=
  score g1 = score g /\ playerX g1 = playerX g /\ playerY g1 = playerY g
  /\ bullets g1 = bullets g /\ enemyBullets g1 = enemyBullets g
  /\ waves g1 = waves g /\ currentSpawn g1 = currentSpawn g
  /\ waveTimer g1 = waveTimer g /\ shootCooldown g1 = shootCooldown g.


(** Splits the conjunctions of the goal, leaving defined notions folded. *)
Ltac conjs := repeat match goal with |- _ /\ _ => split end.

(** The 4-pixel grid of the playfield: columns 20 to 600, rows 40 to 460. *)
Definition columns : list float :=
  map (fun i => Go.float64_of_int (4 * Z.of_nat i)) (seq 5 146).

Definition rows : list float :=
  map (fun i => Go.float64_of_int (4 * Z.of_nat i)) (seq 10 106).

Definition among (x : float) (l : list float) : bool :=
  existsb (Leibniz.eqb x) l.

Definition onPlayfield (g : Game.t) : bool :=
  among (playerX g) columns && among (playerY g) rows.

(** A session with the player at [(x, y)] and nothing else. *)
Definition playerAt (x y : float) : Game.t :=
  Game.mk x y [] 0 [] [] [] 0 0 0 GameStatePlaying 0 [] 0 0 false 0 [].

(** The sixteen states of the four arrow keys. *)
Definition arrows : list Key.t :=
  flat_map (fun l =>
    flat_map (fun r =>
      flat_map (fun u =>
        map (fun d => Key.mk l r u d false false) [false; true])
        [false; true])
      [false; true])
    [false; true].

(** The wave list in use is the one of the stage the index points at. *)
Definition stageInUse (stages : list Stage.t) (g : Game.t) : Prop :=
  currentStage g < Go.len stages ->
  exists st, Go.index stages (currentStage g) = Some st
             /\ waves g = Stage.Waves st.

(** Nothing of the three moving collections is past the margins at which
    the loops drop it. *)
Definition inBounds (g : Game.t) : bool :=
  forallb onScreen (enemies g)
  && forallb bulletInBounds (bullets g)
  && forallb enemyBulletInBounds (enemyBullets g).

(** The points a list of enemies is worth when shot down. *)
Definition worth (es : list Enemy.t) : Z :=
  fold_right (fun e acc => killScore e + acc) 0 es.

(** The frame fires a volley: playing, fire key down, cooldown at 0. *)
Definition firesVolley (k : Key.t) (g : Game.t) : bool :=
  match gameState g with
  | GameStatePlaying => Key.Space k && (shootCooldown g =? 0)
  | _ => false
  end.

(** The world moved on by random draws only. *)
Definition quiet (w w1 : World) : Prop :=
  played w1 = played w /\ draws w1 = draws w /\ (drawn w <= drawn w1)%nat.

(** A particle as [createExplosion] makes it at [(x, y)]. *)
Definition sparkAt (x y : float) (p : Particle.t) : Prop :=
  Particle.x p = x /\ Particle.y p = y /\ Particle.alpha p = 1%float
  /\ Particle.ptype p = 0 /\ 30 <= Particle.lifetime p <= 49.

(** One enemy under the Playing loop, the player at [(px, py)]: the enemy
    and the world after [n] frames, and the bullets of the frame after
    them. *)
Fixpoint enemyAfter (M : Math.Lib) (px py : float) (n : nat) (e : Enemy.t)
    (w : World) : Enemy.t * World :=
  match n with
  | O => (e, w)
  | S n' =>
      let '(e1, _, _, w1) := stepEnemy M px py e w in
      enemyAfter M px py n' e1 w1
  end.

Definition shotsAfter (M : Math.Lib) (px py : float) (n : nat) (e : Enemy.t)
    (w : World) : list EnemyBullet.t :=
  let '(e1, w1) := enemyAfter M px py n e w in
  snd (fst (fst (stepEnemy M px py e1 w1))).

(** An enemy that shoots, armed as the scheduler arms it. *)
Definition gunner : Enemy.t :=
  newEnemy (Wave.mk EnemyTypeStraight 100 0 true 1 0 0) 60.
(** * Properties *)

(** ** Go's [int] arithmetic *)

Lemma wrap_small (z : Z) : Go.minInt <= z <= Go.maxInt -> Go.wrap z = z.
Proof.
  unfold Go.wrap, Go.minInt, Go.maxInt. intros H.
  rewrite Z.mod_small; lia.
Qed.

Lemma wrap_add_wrap (a b : Z) : Go.wrap (Go.wrap a + b) = Go.wrap (a + b).
Proof.
  unfold Go.wrap. f_equal.
  replace ((a + 2 ^ 63) mod 2 ^ 64 - 2 ^ 63 + b + 2 ^ 63)
    with ((a + 2 ^ 63) mod 2 ^ 64 + b) by ring.
  replace (a + b + 2 ^ 63) with ((a + 2 ^ 63) + b) by ring.
  rewrite Z.add_mod_idemp_l by lia. reflexivity.
Qed.

Lemma add_small (a b : Z) :
  Go.minInt <= a + b <= Go.maxInt -> Go.add a b = a + b.
Proof. apply wrap_small. Qed.

Lemma sub_small (a b : Z) :
  Go.minInt <= a - b <= Go.maxInt -> Go.sub a b = a - b.
Proof. apply wrap_small. Qed.

Lemma len_nonneg {A : Type} (s : list A) : 0 <= Go.len s.
Proof. unfold Go.len. lia. Qed.

Lemma index_Some_range {A : Type} (s : list A) (i : Z) (a : A) :
  Go.index s i = Some a -> 0 <= i < Go.len s.
Proof.
  unfold Go.index, Go.len. destruct (0 <=? i) eqn:E; [| discriminate].
  intros H. apply Z.leb_le in E.
  assert (Hn : (Z.to_nat i < List.length s)%nat)
    by (apply nth_error_Some; rewrite H; discriminate).
  lia.
Qed.

(** ** What each step of [Update] may change

    Every step is shown to be a chain of field updates of its argument;
    the fields a step leaves alone then follow by computation. *)

Section Frames.

Variable M : Math.Lib.
Variable stages : list Stage.t.

Lemma createExplosion_shape (x y : float) (c : RGBA) (g : Game.t) (w : World) :
  createExplosion M x y c g w =
    (set_particles (fst (explosionLoop M 20 x y (particles g) w)) g,
     snd (explosionLoop M 20 x y (particles g) w)).
Proof.
  unfold createExplosion.
  destruct (explosionLoop M 20 x y (particles g) w); reflexivity.
Qed.

Lemma ambient_shape (g : Game.t) (w : World) :
  exists ss w1,
    ambient g w = (set_particles (decayParticles (particles g)) (set_stars ss g), w1).
Proof.
  unfold ambient, updateStars, updateParticles.
  destruct (forEachW stepStar (stars g) w) as [ss w1].
  exists ss, w1. reflexivity.
Qed.

Lemma movePlayer_shape (k : Key.t) (g : Game.t) :
  movePlayer k g =
    set_playerY (playerY (movePlayer k g)) (set_playerX (playerX (movePlayer k g)) g).
Proof.
  unfold movePlayer.
  destruct (Key.Left k), (Key.Right k), (Key.Up k), (Key.Down k);
    destruct g; reflexivity.
Qed.

Lemma spawnWave_shape (g g1 : Game.t) (w w1 : World) :
  spawnWave g w = Some (g1, w1) ->
  exists c es, g1 = set_currentSpawn c (set_enemies es g).
Proof.
  unfold spawnWave. intros H.
  destruct (currentSpawn g <? Go.len (waves g)).
  - destruct (totalDelay (waves g) (currentSpawn g) <=? waveTimer g).
    + destruct (Go.index (waves g) (currentSpawn g)); [| discriminate].
      destruct (Rand.Intn 60 w). inversion H; subst. eexists; eexists; reflexivity.
    + inversion H; subst. exists (currentSpawn g1), (enemies g1). eta g1.
  - inversion H; subst. exists (currentSpawn g1), (enemies g1). eta g1.
Qed.

Lemma updateEnemies_shape (g : Game.t) (w : World) :
  exists es ebs ps w1,
    updateEnemies M g w =
      (set_particles ps (set_enemyBullets ebs (set_enemies es g)), w1)
    /\ enemiesLoop M (playerX g) (playerY g) (enemies g) (enemyBullets g)
         (particles g) w = (es, ebs, ps, w1).
Proof.
  unfold updateEnemies.
  destruct (enemiesLoop M (playerX g) (playerY g) (enemies g) (enemyBullets g)
              (particles g) w) as [[[es ebs] ps] w1].
  exists es, ebs, ps, w1. split; reflexivity.
Qed.

Lemma checkStageClear_shape (g : Game.t) :
  exists st t f,
    checkStageClear g =
      set_stageClearKeyReleased f (set_stageClearTimer t (set_gameState st g)).
Proof.
  unfold checkStageClear. destruct (stageCleared g).
  - eexists; eexists; eexists; reflexivity.
  - exists (gameState g), (stageClearTimer g), (stageClearKeyReleased g). eta g.
Qed.

Lemma playerFire_shape (k : Key.t) (g : Game.t) (w : World) :
  exists bs c w1,
    playerFire M k g w = (set_shootCooldown c (set_bullets bs g), w1).
Proof.
  unfold playerFire, fireVolley, coolDown.
  destruct (Key.Space k && (shootCooldown g =? 0)).
  - cbn. eexists; eexists; eexists; reflexivity.
  - destruct (0 <? shootCooldown g).
    + exists (bullets g), (Go.sub (shootCooldown g) 1), w. eta g.
    + exists (bullets g), (shootCooldown g), w. eta g.
Qed.

Lemma stepBullet_shape (b : Bullet.t) (kept : list Bullet.t) (g : Game.t)
    (w : World) :
  exists kept1 es s ps w1,
    stepBullet M b kept g w =
      (kept1, set_particles ps (set_score s (set_enemies es g)), w1).
Proof.
  unfold stepBullet. destruct (strike b (enemies g)) as [| es | es dead].
  - eexists. exists (enemies g), (score g), (particles g), w.
    eta g.
  - exists kept, es, (score g), (particles g), w. eta g.
  - rewrite createExplosion_shape.
    exists kept, es, (Go.add (score g) (killScore dead)).
    eexists; eexists. cbn [particles set_score]. reflexivity.
Qed.

Lemma bulletsLoop_shape (bs kept : list Bullet.t) (g : Game.t) (w : World) :
  exists kept1 es s ps w1,
    bulletsLoop M bs kept g w =
      (kept1, set_particles ps (set_score s (set_enemies es g)), w1).
Proof.
  revert kept g w. induction bs as [| b rest IH]; intros kept g w.
  - exists kept, (enemies g), (score g), (particles g), w.
    cbn. eta g.
  - cbn [bulletsLoop].
    destruct (stepBullet_shape b kept g w) as (k1 & es1 & s1 & ps1 & w1 & E).
    rewrite E.
    destruct (IH k1 (set_particles ps1 (set_score s1 (set_enemies es1 g))) w1)
      as (k2 & es2 & s2 & ps2 & w2 & E2).
    rewrite E2. exists k2, es2, s2, ps2, w2. reflexivity.
Qed.

Lemma updateBullets_shape (g : Game.t) (w : World) :
  exists bs es s ps w1,
    updateBullets M g w =
      (set_bullets bs (set_particles ps (set_score s (set_enemies es g))), w1).
Proof.
  unfold updateBullets.
  destruct (bulletsLoop_shape (bullets g) [] g w) as (k1 & es & s & ps & w1 & E).
  rewrite E. exists k1, es, s, ps, w1. reflexivity.
Qed.

Lemma enemyBulletsLoop_shape (ebs kept : list EnemyBullet.t) (g : Game.t)
    (w : World) :
  exists kept1 ps st t w1,
    enemyBulletsLoop M ebs kept g w =
      (kept1, set_playerExplosionTimer t (set_gameState st (set_particles ps g)), w1).
Proof.
  revert kept. induction ebs as [| eb rest IH]; intros kept.
  - exists kept, (particles g), (gameState g), (playerExplosionTimer g), w.
    cbn. eta g.
  - cbn [enemyBulletsLoop].
    destruct (enemyBulletHits g (advanceEnemyBullet eb)).
    + rewrite createExplosion_shape.
      eexists; eexists; eexists; eexists; eexists. reflexivity.
    + apply IH.
Qed.

Lemma updateEnemyBullets_shape (g : Game.t) (w : World) :
  exists ebs ps st t w1,
    updateEnemyBullets M g w =
      (set_enemyBullets ebs
         (set_playerExplosionTimer t (set_gameState st (set_particles ps g))), w1).
Proof.
  unfold updateEnemyBullets.
  destruct (enemyBulletsLoop_shape (enemyBullets g) [] g w)
    as (k1 & ps & st & t & w1 & E).
  rewrite E. exists k1, ps, st, t, w1. reflexivity.
Qed.

Lemma collidePlayer_shape (g : Game.t) (w : World) :
  exists hs ps st t w1,
    collidePlayer M g w =
      (set_playerExplosionTimer t
         (set_gameState st (set_particles ps (set_highScore hs g))), w1).
Proof.
  unfold collidePlayer. destruct (existsb (playerTouches g) (enemies g)).
  - rewrite createExplosion_shape. unfold recordHighScore.
    destruct (highScore g <? score g).
    + eexists; eexists; eexists; eexists; eexists. reflexivity.
    + exists (highScore g),
        (fst (explosionLoop M 20 (playerX g + 10) (playerY g + 12) (particles g) w)),
        GameStatePlayerExplosion, 0,
        (snd (explosionLoop M 20 (playerX g + 10) (playerY g + 12) (particles g) w)).
      eta g.
  - exists (highScore g), (particles g), (gameState g), (playerExplosionTimer g), w.
    f_equal. eta g.
Qed.

End Frames.

(** ** The wave scheduler *)

Lemma totalDelay_fold (l : list Wave.t) (a : Z) :
  fold_left (fun acc wv => Go.add acc (Wave.Delay wv)) l (Go.wrap a) =
    Go.wrap (a + fold_right Z.add 0 (map Wave.Delay l)).
Proof.
  revert a. induction l as [| wv rest IH]; intros a; cbn [fold_left map fold_right].
  - rewrite Z.add_0_r. reflexivity.
  - unfold Go.add at 2. rewrite wrap_add_wrap, IH. f_equal. ring.
Qed.

(** The loop of the source computes the prefix sum, modulo 2^64. *)
Lemma totalDelay_prefix (ws : list Wave.t) (i : Z) :
  totalDelay ws i = Go.wrap (prefixDelay ws i).
Proof.
  unfold totalDelay, prefixDelay.
  change 0 with (Go.wrap 0) at 1. rewrite totalDelay_fold. reflexivity.
Qed.

Lemma spawnWave_spec (g : Game.t) (w : World) (wv : Wave.t) :
  Go.index (waves g) (currentSpawn g) = Some wv ->
  Go.len (waves g) <= Go.maxInt ->
  Go.minInt <= prefixDelay (waves g) (currentSpawn g) <= Go.maxInt ->
  spawnWave g w =
    Some (if prefixDelay (waves g) (currentSpawn g) <=? waveTimer g
          then (set_currentSpawn (currentSpawn g + 1)
                  (set_enemies
                     (enemies g ++ [newEnemy wv (Go.add 60 (fst (Rand.Intn 60 w)))]) g),
                snd (Rand.Intn 60 w))
          else (g, w)).
Proof.
  intros Hi Hlen Hsum. pose proof (index_Some_range _ _ _ Hi) as Hr.
  unfold spawnWave.
  replace (currentSpawn g <? Go.len (waves g)) with true
    by (symmetry; apply Z.ltb_lt; lia).
  rewrite totalDelay_prefix, (wrap_small _ Hsum), Hi.
  destruct (prefixDelay (waves g) (currentSpawn g) <=? waveTimer g); [| reflexivity].
  destruct (Rand.Intn 60 w) as [n w1]. cbn [fst snd].
  rewrite add_small by (unfold Go.minInt, Go.maxInt in *; lia). reflexivity.
Qed.

Section PlayingFrames.

Variable M : Math.Lib.
Variable stages : list Stage.t.

(** The second half of a playing frame leaves the scheduler, the stage and
    the player's position alone. *)
Lemma resolveCombat_frame (k : Key.t) (g : Game.t) (w : World) :
  let g1 := fst (resolveCombat M k g w) in
  currentSpawn g1 = currentSpawn g /\ waveTimer g1 = waveTimer g
  /\ waves g1 = waves g /\ currentStage g1 = currentStage g
  /\ playerX g1 = playerX g /\ playerY g1 = playerY g /\ stars g1 = stars g.
Proof.
  unfold resolveCombat.
  destruct (checkStageClear_shape g) as (st & t & f & E1). rewrite E1.
  destruct (playerFire_shape M k
              (set_stageClearKeyReleased f (set_stageClearTimer t (set_gameState st g))) w)
    as (bs & c & w1 & E2). rewrite E2.
  match goal with |- context [updateBullets M ?a ?b] =>
    destruct (updateBullets_shape M a b) as (bs3 & es3 & s3 & ps3 & w3 & E3) end.
  rewrite E3.
  match goal with |- context [updateEnemyBullets M ?a ?b] =>
    destruct (updateEnemyBullets_shape M a b) as (eb4 & ps4 & st4 & t4 & w4 & E4) end.
  rewrite E4.
  match goal with |- context [collidePlayer M ?a ?b] =>
    destruct (collidePlayer_shape M a b) as (hs5 & ps5 & st5 & t5 & w5 & E5) end.
  rewrite E5. cbn. repeat split; reflexivity.
Qed.

(** The first half leaves the stage, the score and the top-level state
    alone, and counts one more frame. *)
Lemma advanceEnemies_frame (k : Key.t) (g g1 : Game.t) (w w1 : World) :
  advanceEnemies M k g w = Some (g1, w1) ->
  exists gs ws,
    spawnWave (movePlayer k g) w = Some (gs, ws)
    /\ currentSpawn g1 = currentSpawn gs
    /\ waveTimer g1 = Go.add (waveTimer g) 1
    /\ waves g1 = waves g /\ currentStage g1 = currentStage g
    /\ gameState g1 = gameState g /\ score g1 = score g
    /\ highScore g1 = highScore g /\ bullets g1 = bullets g
    /\ shootCooldown g1 = shootCooldown g
    /\ stageClearTimer g1 = stageClearTimer g
    /\ stageClearKeyReleased g1 = stageClearKeyReleased g
    /\ playerExplosionTimer g1 = playerExplosionTimer g
    /\ playerX g1 = playerX (movePlayer k g)
    /\ playerY g1 = playerY (movePlayer k g).
Proof.
  unfold advanceEnemies. intros H.
  destruct (spawnWave (movePlayer k g) w) as [[gs ws] |] eqn:Es; [| discriminate].
  exists gs, ws. split; [reflexivity |].
  destruct (spawnWave_shape _ _ _ _ Es) as (c & es & Egs).
  rewrite (movePlayer_shape k g) in Egs.
  destruct (updateEnemies_shape M (set_waveTimer (Go.add (waveTimer gs) 1) gs) ws)
    as (es3 & ebs3 & ps3 & w3 & E3 & _).
  rewrite E3 in H. inversion H; subst g1 w1. subst gs.
  cbn. repeat split; reflexivity.
Qed.

Lemma Update_playing (k : Key.t) (g : Game.t) (w : World) :
  gameState g = GameStatePlaying ->
  Update M stages k g w =
    updatePlaying M k (fst (ambient g w)) (snd (ambient g w)).
Proof.
  intros H. unfold Update.
  destruct (ambient_shape g w) as (ss & w1 & E). rewrite E.
  cbn [fst snd gameState set_particles set_stars]. rewrite H. reflexivity.
Qed.

End PlayingFrames.

(** C3. In a playing frame whose spawn cursor stands on wave [i], the
    enemy of that wave is appended exactly when the wave timer has reached
    the sum of the delays of waves 0 to [i], and the cursor then moves on by
    one; otherwise nothing is spawned.  Either way the timer counts the
    frame.  On a stage with delays 0, 30, 30 the cursor moves in the frames
    where the timer reads 0, 30 and 60. *)
Theorem wave_spawns_at_prefix_sum (M : Math.Lib) (stages : list Stage.t)
    (k : Key.t) (g : Game.t) (w : World) (wv : Wave.t) :
  gameState g = GameStatePlaying ->
  Go.index (waves g) (currentSpawn g) = Some wv ->
  Go.len (waves g) <= Go.maxInt ->
  Go.minInt <= prefixDelay (waves g) (currentSpawn g) <= Go.maxInt ->
  spawnWave g w =
    Some (if prefixDelay (waves g) (currentSpawn g) <=? waveTimer g
          then (set_currentSpawn (currentSpawn g + 1)
                  (set_enemies
                     (enemies g ++ [newEnemy wv (Go.add 60 (fst (Rand.Intn 60 w)))]) g),
                snd (Rand.Intn 60 w))
          else (g, w))
  /\ (exists g1 w1,
        Update M stages k g w = Some (g1, w1)
        /\ currentSpawn g1 =
             (if prefixDelay (waves g) (currentSpawn g) <=? waveTimer g
              then currentSpawn g + 1 else currentSpawn g)
        /\ waveTimer g1 = Go.add (waveTimer g) 1
        /\ waves g1 = waves g)
  /\ match Scenario.start with
     | Some (g0, w0) => Scenario.spawnTicks 100 g0 w0 = [0; 30; 60]
     | None => False
     end.
Proof.
  intros Hst Hi Hlen Hsum. split; [| split].
  - apply spawnWave_spec; assumption.
  - rewrite Update_playing by exact Hst.
    destruct (ambient_shape g w) as (ss & wa & Ea). rewrite Ea. cbn [fst snd].
    set (ga := set_particles (decayParticles (particles g)) (set_stars ss g)).
    assert (Hsp := spawnWave_spec (movePlayer k ga) wa wv).
    rewrite (movePlayer_shape k ga) in Hsp. cbn in Hsp.
    specialize (Hsp Hi Hlen Hsum).
    unfold updatePlaying.
    destruct (advanceEnemies M k ga wa) as [[g1 w1] |] eqn:Ead.
    + destruct (advanceEnemies_frame M k ga g1 wa w1 Ead)
        as (gs & ws & Es & Hc & Ht & Hw & _).
      rewrite (movePlayer_shape k ga) in Es. cbn in Es. rewrite Hsp in Es.
      destruct (resolveCombat_frame M k g1 w1) as (Rc & Rt & Rw & _).
      exists (fst (resolveCombat M k g1 w1)), (snd (resolveCombat M k g1 w1)).
      split; [rewrite <- surjective_pairing; reflexivity |].
      rewrite Rc, Rt, Rw, Hc, Ht, Hw. repeat split.
      destruct (prefixDelay (waves g) (currentSpawn g) <=? waveTimer g);
        inversion Es; reflexivity.
    + exfalso. unfold advanceEnemies in Ead.
      rewrite (movePlayer_shape k ga) in Ead. cbn in Ead. rewrite Hsp in Ead.
      destruct (prefixDelay (waves g) (currentSpawn g) <=? waveTimer g);
        match type of Ead with
        | context [updateEnemies M ?a ?b] => destruct (updateEnemies M a b)
        end; discriminate.
  - vm_compute. reflexivity.
Qed.

Lemma wave_spawns_at_prefix_sum_witness :
  exists g1 w1,
    Update Sample.math Sample.stages Key.none Scenario.playing Sample.world
      = Some (g1, w1)
    /\ currentSpawn g1 = 1.
Proof.
  destruct (wave_spawns_at_prefix_sum Sample.math Sample.stages Key.none
              Scenario.playing Sample.world (Sample.straight 100 0))
    as (_ & (g1 & w1 & E & C & _) & _).
  - reflexivity.
  - reflexivity.
  - vm_compute. discriminate.
  - vm_compute. split; discriminate.
  - exists g1, w1. split; [exact E | exact C].
Defined.

(** ** The outcome of the second half of a playing frame *)

Section Combat.

Variable M : Math.Lib.

Lemma resolveCombat_unfold (k : Key.t) (g : Game.t) (w : World) :
  exists g1 w1 g2 w2 g3 w3,
    playerFire M k (checkStageClear g) w = (g1, w1)
    /\ updateBullets M g1 w1 = (g2, w2)
    /\ updateEnemyBullets M g2 w2 = (g3, w3)
    /\ resolveCombat M k g w = collidePlayer M g3 w3.
Proof.
  unfold resolveCombat.
  destruct (playerFire M k (checkStageClear g) w) as [g1 w1] eqn:E1.
  destruct (updateBullets M g1 w1) as [g2 w2] eqn:E2.
  destruct (updateEnemyBullets M g2 w2) as [g3 w3] eqn:E3.
  exists g1, w1, g2, w2, g3, w3. repeat split; assumption.
Qed.

(** The enemy-bullet loop: the state it leaves, and what it never writes. *)
Lemma enemyBulletsLoop_state (ebs kept : list EnemyBullet.t) (g : Game.t)
    (w : World) :
  let g1 := snd (fst (enemyBulletsLoop M ebs kept g w)) in
  gameState g1 =
    (if existsb (shotBy g) ebs then GameStatePlayerExplosion else gameState g)
  /\ playerExplosionTimer g1 =
       (if existsb (shotBy g) ebs then 0 else playerExplosionTimer g)
  /\ highScore g1 = highScore g /\ score g1 = score g.
Proof.
  revert kept. induction ebs as [| eb rest IH]; intros kept.
  - cbn. repeat split; reflexivity.
  - cbn [enemyBulletsLoop existsb]. unfold shotBy at 1 3.
    destruct (enemyBulletHits g (advanceEnemyBullet eb)).
    + rewrite createExplosion_shape. cbn. repeat split; reflexivity.
    + cbn [orb]. apply IH.
Qed.

Lemma updateEnemyBullets_state (g : Game.t) (w : World) :
  let g1 := fst (updateEnemyBullets M g w) in
  gameState g1 =
    (if existsb (shotBy g) (enemyBullets g)
     then GameStatePlayerExplosion else gameState g)
  /\ playerExplosionTimer g1 =
       (if existsb (shotBy g) (enemyBullets g) then 0 else playerExplosionTimer g)
  /\ highScore g1 = highScore g /\ score g1 = score g.
Proof.
  unfold updateEnemyBullets.
  pose proof (enemyBulletsLoop_state (enemyBullets g) [] g w) as H.
  destruct (enemyBulletsLoop M (enemyBullets g) [] g w) as [[kept g1] w1].
  cbn in *. exact H.
Qed.

Lemma collidePlayer_state (g : Game.t) (w : World) :
  let g1 := fst (collidePlayer M g w) in
  gameState g1 =
    (if existsb (playerTouches g) (enemies g)
     then GameStatePlayerExplosion else gameState g)
  /\ playerExplosionTimer g1 =
       (if existsb (playerTouches g) (enemies g) then 0 else playerExplosionTimer g)
  /\ highScore g1 =
       (if existsb (playerTouches g) (enemies g)
        then highScore (recordHighScore g) else highScore g).
Proof.
  unfold collidePlayer. destruct (existsb (playerTouches g) (enemies g)).
  - rewrite createExplosion_shape. cbn. repeat split; reflexivity.
  - cbn. repeat split; reflexivity.
Qed.

(** Without enemies no bullet strikes anything. *)
Lemma bulletsLoop_no_enemies (bs kept : list Bullet.t) (g : Game.t) (w : World) :
  enemies g = [] ->
  snd (fst (bulletsLoop M bs kept g w)) = g /\ snd (bulletsLoop M bs kept g w) = w.
Proof.
  intros He. revert kept. induction bs as [| b rest IH]; intros kept.
  - cbn. split; reflexivity.
  - cbn [bulletsLoop]. unfold stepBullet. rewrite He. cbn [strike]. apply IH.
Qed.

Lemma updateBullets_no_enemies (g : Game.t) (w : World) :
  enemies g = [] ->
  enemies (fst (updateBullets M g w)) = []
  /\ gameState (fst (updateBullets M g w)) = gameState g
  /\ enemyBullets (fst (updateBullets M g w)) = enemyBullets g
  /\ playerX (fst (updateBullets M g w)) = playerX g
  /\ playerY (fst (updateBullets M g w)) = playerY g.
Proof.
  intros He. unfold updateBullets.
  destruct (bulletsLoop_no_enemies (bullets g) [] g w He) as [Hg Hw].
  destruct (bulletsLoop M (bullets g) [] g w) as [[kept g1] w1].
  cbn in Hg, Hw. subst g1 w1. cbn. repeat split; try reflexivity. exact He.
Qed.

(** Fields the steps of the second half leave alone. *)
Lemma playerFire_keeps (k : Key.t) (g : Game.t) (w : World) :
  let g1 := fst (playerFire M k g w) in
  gameState g1 = gameState g /\ stageClearTimer g1 = stageClearTimer g
  /\ stageClearKeyReleased g1 = stageClearKeyReleased g
  /\ playerExplosionTimer g1 = playerExplosionTimer g
  /\ highScore g1 = highScore g /\ score g1 = score g
  /\ enemies g1 = enemies g /\ enemyBullets g1 = enemyBullets g
  /\ playerX g1 = playerX g /\ playerY g1 = playerY g.
Proof.
  destruct (playerFire_shape M k g w) as (bs & c & w1 & E). rewrite E.
  cbn. repeat split; reflexivity.
Qed.

Lemma updateBullets_keeps (g : Game.t) (w : World) :
  let g1 := fst (updateBullets M g w) in
  gameState g1 = gameState g /\ stageClearTimer g1 = stageClearTimer g
  /\ stageClearKeyReleased g1 = stageClearKeyReleased g
  /\ playerExplosionTimer g1 = playerExplosionTimer g
  /\ highScore g1 = highScore g /\ shootCooldown g1 = shootCooldown g
  /\ enemyBullets g1 = enemyBullets g
  /\ playerX g1 = playerX g /\ playerY g1 = playerY g.
Proof.
  destruct (updateBullets_shape M g w) as (bs & es & s & ps & w1 & E). rewrite E.
  cbn. repeat split; reflexivity.
Qed.

Lemma updateEnemyBullets_keeps (g : Game.t) (w : World) :
  let g1 := fst (updateEnemyBullets M g w) in
  stageClearTimer g1 = stageClearTimer g
  /\ stageClearKeyReleased g1 = stageClearKeyReleased g
  /\ shootCooldown g1 = shootCooldown g /\ enemies g1 = enemies g
  /\ bullets g1 = bullets g
  /\ playerX g1 = playerX g /\ playerY g1 = playerY g.
Proof.
  destruct (updateEnemyBullets_shape M g w) as (ebs & ps & st & t & w1 & E).
  rewrite E. cbn. repeat split; reflexivity.
Qed.

Lemma collidePlayer_keeps (g : Game.t) (w : World) :
  let g1 := fst (collidePlayer M g w) in
  stageClearTimer g1 = stageClearTimer g
  /\ stageClearKeyReleased g1 = stageClearKeyReleased g
  /\ shootCooldown g1 = shootCooldown g /\ enemies g1 = enemies g
  /\ bullets g1 = bullets g /\ enemyBullets g1 = enemyBullets g
  /\ score g1 = score g.
Proof.
  destruct (collidePlayer_shape M g w) as (hs & ps & st & t & w1 & E).
  rewrite E. cbn. repeat split; reflexivity.
Qed.

(** What the second half does to the top-level state and to the two
    timers that guard the way to game over. *)
Lemma resolveCombat_state (k : Key.t) (g : Game.t) (w : World) :
  let g1 := fst (resolveCombat M k g w) in
  stageClearTimer g1 = stageClearTimer (checkStageClear g)
  /\ stageClearKeyReleased g1 = stageClearKeyReleased (checkStageClear g)
  /\ ((gameState g1 = gameState (checkStageClear g)
       /\ playerExplosionTimer g1 = playerExplosionTimer g)
      \/ (gameState g1 = GameStatePlayerExplosion /\ playerExplosionTimer g1 = 0)).
Proof.
  destruct (resolveCombat_unfold k g w)
    as (g1 & w1 & g2 & w2 & g3 & w3 & E1 & E2 & E3 & E).
  rewrite E. clear E.
  pose proof (playerFire_keeps k (checkStageClear g) w) as F1.
  rewrite E1 in F1. cbn [fst] in F1.
  destruct F1 as (A1 & B1 & C1 & D1 & _).
  pose proof (updateBullets_keeps g1 w1) as F2.
  rewrite E2 in F2. cbn [fst] in F2.
  destruct F2 as (A2 & B2 & C2 & D2 & _).
  pose proof (updateEnemyBullets_keeps g2 w2) as F3.
  pose proof (updateEnemyBullets_state g2 w2) as G3.
  rewrite E3 in F3, G3. cbn [fst] in F3, G3.
  destruct F3 as (B3 & C3 & _). destruct G3 as (A3 & D3 & _).
  pose proof (collidePlayer_keeps g3 w3) as F4.
  pose proof (collidePlayer_state g3 w3) as G4.
  cbn zeta in F4, G4. cbn zeta.
  destruct F4 as (B4 & C4 & _). destruct G4 as (A4 & D4 & _).
  assert (Dg : playerExplosionTimer (checkStageClear g) = playerExplosionTimer g).
  { destruct (checkStageClear_shape g) as (st & t & f & Ec). rewrite Ec. reflexivity. }
  split; [congruence |]. split; [congruence |].
  rewrite A4, D4.
  destruct (existsb (playerTouches g3) (enemies g3)).
  - right. split; reflexivity.
  - rewrite A3, D3. destruct (existsb (shotBy g2) (enemyBullets g2)).
    + right. split; reflexivity.
    + left. split; congruence.
Qed.

(** The cooldown after the frame is the one the fire block leaves. *)
Lemma resolveCombat_cooldown (k : Key.t) (g : Game.t) (w : World) :
  shootCooldown (fst (resolveCombat M k g w)) =
    shootCooldown (coolDown (fst (fireVolley M k g w))).
Proof.
  destruct (resolveCombat_unfold k g w)
    as (g1 & w1 & g2 & w2 & g3 & w3 & E1 & E2 & E3 & E).
  rewrite E. clear E.
  pose proof (updateBullets_keeps g1 w1) as F2.
  rewrite E2 in F2. cbn [fst] in F2.
  destruct F2 as (_ & _ & _ & _ & _ & S2 & _).
  pose proof (updateEnemyBullets_keeps g2 w2) as F3.
  rewrite E3 in F3. cbn [fst] in F3. destruct F3 as (_ & _ & S3 & _).
  pose proof (collidePlayer_keeps g3 w3) as F4. cbn zeta in F4.
  destruct F4 as (_ & _ & S4 & _).
  rewrite S4, S3, S2.
  unfold playerFire in E1. destruct (checkStageClear_shape g) as (st & t & f & Ec).
  rewrite Ec in E1. unfold fireVolley, coolDown in *. cbn in E1.
  destruct (Key.Space k && (shootCooldown g =? 0)).
  - cbn in E1. inversion E1; subst. reflexivity.
  - cbn in E1 |- *. destruct (0 <? shootCooldown g);
      inversion E1; subst; reflexivity.
Qed.

End Combat.

(** ** The player's fire and its cooldown *)

Section Cooldown.

Variable M : Math.Lib.
Variable stages : list Stage.t.

Lemma ambient_keeps (g : Game.t) (w : World) :
  let g1 := fst (ambient g w) in
  gameState g1 = gameState g /\ shootCooldown g1 = shootCooldown g
  /\ stageClearTimer g1 = stageClearTimer g
  /\ stageClearKeyReleased g1 = stageClearKeyReleased g
  /\ playerExplosionTimer g1 = playerExplosionTimer g
  /\ currentSpawn g1 = currentSpawn g /\ waves g1 = waves g
  /\ enemies g1 = enemies g /\ bullets g1 = bullets g
  /\ enemyBullets g1 = enemyBullets g /\ score g1 = score g
  /\ highScore g1 = highScore g /\ currentStage g1 = currentStage g
  /\ waveTimer g1 = waveTimer g
  /\ playerX g1 = playerX g /\ playerY g1 = playerY g.
Proof.
  destruct (ambient_shape g w) as (ss & w1 & E). rewrite E.
  cbn. repeat split; reflexivity.
Qed.

(** A playing frame does not panic when the cursor is not negative. *)
Lemma advanceEnemies_total (k : Key.t) (g : Game.t) (w : World) :
  0 <= currentSpawn g -> exists g1 w1, advanceEnemies M k g w = Some (g1, w1).
Proof.
  intros Hc. unfold advanceEnemies.
  assert (Hs : exists gs ws, spawnWave (movePlayer k g) w = Some (gs, ws)).
  { unfold spawnWave. rewrite (movePlayer_shape k g). cbn.
    destruct (currentSpawn g <? Go.len (waves g)) eqn:Elt; [| eauto].
    destruct (totalDelay (waves g) (currentSpawn g) <=? waveTimer g); [| eauto].
    apply Z.ltb_lt in Elt. unfold Go.index, Go.len in *.
    replace (0 <=? currentSpawn g) with true by (symmetry; apply Z.leb_le; lia).
    destruct (nth_error (waves g) (Z.to_nat (currentSpawn g))) eqn:En.
    - destruct (Rand.Intn 60 w). eauto.
    - apply nth_error_None in En. lia. }
  destruct Hs as (gs & ws & Es). rewrite Es.
  destruct (updateEnemies M (set_waveTimer (Go.add (waveTimer gs) 1) gs) ws).
  eauto.
Qed.

Lemma Update_playing_total (k : Key.t) (g : Game.t) (w : World) :
  gameState g = GameStatePlaying -> 0 <= currentSpawn g ->
  exists g1 w1, Update M stages k g w = Some (g1, w1).
Proof.
  intros Hs Hc. rewrite Update_playing by exact Hs. unfold updatePlaying.
  destruct (ambient_keeps g w) as (_ & _ & _ & _ & _ & Hcs & _).
  assert (Hc' : 0 <= currentSpawn (fst (ambient g w))) by (rewrite Hcs; exact Hc).
  destruct (advanceEnemies_total k (fst (ambient g w)) (snd (ambient g w)) Hc')
    as (g1 & w1 & E).
  rewrite E. destruct (resolveCombat M k g1 w1) as [g2 w2]. eauto.
Qed.

(** The cooldown at the end of a playing frame. *)
Lemma Update_playing_cooldown (k : Key.t) (g g1 : Game.t) (w w1 : World) :
  gameState g = GameStatePlaying ->
  Update M stages k g w = Some (g1, w1) ->
  shootCooldown g1 =
    (if Key.Space k && (shootCooldown g =? 0) then Go.sub 5 1
     else if 0 <? shootCooldown g then Go.sub (shootCooldown g) 1
     else shootCooldown g)
  /\ settled 0 g1.
Proof.
  intros Hs HU. rewrite Update_playing in HU by exact Hs.
  unfold updatePlaying in HU.
  destruct (advanceEnemies M k (fst (ambient g w)) (snd (ambient g w)))
    as [[gm wm] |] eqn:Ea; [| discriminate].
  assert (Eg : g1 = fst (resolveCombat M k gm wm))
    by (inversion HU as [Hp]; rewrite Hp; reflexivity).
  subst g1. clear HU.
  destruct (advanceEnemies_frame M k _ _ _ _ Ea)
    as (gs & ws & _ & _ & _ & _ & _ & Hst & _ & _ & _ & Hcd & _ & _ & Hpe & _).
  destruct (ambient_keeps g w) as (As & Ac & _ & _ & Ape & _).
  rewrite As in Hst. rewrite Ac in Hcd. rewrite Ape in Hpe.
  split.
  - rewrite resolveCombat_cooldown. unfold fireVolley, coolDown. rewrite Hcd.
    destruct (Key.Space k && (shootCooldown g =? 0)); cbn; [reflexivity |].
    rewrite Hcd. destruct (0 <? shootCooldown g); cbn; try rewrite Hcd; reflexivity.
  - destruct (resolveCombat_state M k gm wm) as (Ht & _ & Hd).
    unfold settled. unfold checkStageClear in Ht, Hd.
    destruct (stageCleared gm); cbn in Ht, Hd.
    + destruct Hd as [[Hd _] | [Hd He]].
      * right. left. split; [exact Hd | lia].
      * right. right. split; [exact Hd | lia].
    + destruct Hd as [[Hd _] | [Hd He]].
      * left. congruence.
      * right. right. split; [exact Hd | lia].
Qed.

(** The stage-clear and explosion screens wait for more than 60 frames. *)
Lemma Update_waiting (k : Key.t) (g g1 : Game.t) (w w1 : World) (m : Z) :
  m < 60 ->
  (gameState g = GameStateStageClear /\ 0 <= stageClearTimer g <= m)
  \/ (gameState g = GameStatePlayerExplosion /\ 0 <= playerExplosionTimer g <= m) ->
  Update M stages k g w = Some (g1, w1) ->
  shootCooldown g1 = shootCooldown g /\ settled (m + 1) g1.
Proof.
  intros Hm Hw HU. unfold Update in HU.
  destruct (ambient_keeps g w) as (As & Ac & At & _ & Ape & _).
  destruct (ambient g w) as [ga wa]. cbn [fst] in *.
  destruct Hw as [[Hs Ht] | [Hs Ht]]; rewrite As, Hs in HU.
  - assert (Eadd : Go.add (stageClearTimer g) 1 = stageClearTimer g + 1)
      by (apply add_small; unfold Go.minInt, Go.maxInt; lia).
    assert (E60 : (60 <? stageClearTimer g + 1) = false) by (apply Z.ltb_ge; lia).
    assert (E120 : (120 <? stageClearTimer g + 1) = false) by (apply Z.ltb_ge; lia).
    unfold updateStageClear in HU. rewrite At, Eadd in HU.
    cbn [stageClearTimer set_stageClearTimer] in HU. rewrite E60 in HU.
    cbn [andb stageClearTimer set_stageClearTimer] in HU.
    rewrite E60, E120 in HU. cbn [andb] in HU.
    inversion HU; subst g1 w1. cbn. split; [exact Ac |].
    right. left. cbn. split; [congruence | lia].
  - assert (Eadd : Go.add (playerExplosionTimer g) 1 = playerExplosionTimer g + 1)
      by (apply add_small; unfold Go.minInt, Go.maxInt; lia).
    assert (E60 : (60 <? playerExplosionTimer g + 1) = false) by (apply Z.ltb_ge; lia).
    unfold updatePlayerExplosion in HU. rewrite Ape, Eadd in HU.
    cbn [playerExplosionTimer set_playerExplosionTimer] in HU. rewrite E60 in HU.
    inversion HU; subst g1 w1. cbn. split; [exact Ac |].
    right. right. cbn. split; [congruence | lia].
Qed.

Lemma settled_mono (m n : Z) (g : Game.t) : m <= n -> settled m g -> settled n g.
Proof.
  unfold settled. intros Hmn [H | [[H1 H2] | [H1 H2]]]; [left; exact H | |].
  - right. left. split; [exact H1 | lia].
  - right. right. split; [exact H1 | lia].
Qed.

(** While the cooldown is positive it falls by at most one per frame. *)
Lemma cooldown_runs_down (ks : list Key.t) :
  forall (g g2 : Game.t) (w w2 : World) (m : Z),
    settled m g -> 0 <= m -> m + Z.of_nat (List.length ks) <= 60 ->
    Z.of_nat (List.length ks) < shootCooldown g <= 5 ->
    frames M stages ks g w = Some (g2, w2) ->
    0 < shootCooldown g2.
Proof.
  induction ks as [| k rest IH]; intros g g2 w w2 m Hset Hm0 Hm Hc Hf.
  - cbn in Hf. inversion Hf; subst. cbn in Hc. lia.
  - cbn [frames] in Hf. cbn [List.length] in Hm, Hc.
    destruct (Update M stages k g w) as [[g1 w1] |] eqn:EU; [| discriminate].
    assert (Hstep : (shootCooldown g1 = shootCooldown g
                     \/ shootCooldown g1 = shootCooldown g - 1)
                    /\ settled (m + 1) g1).
    { destruct Hset as [Hp | Hwait].
      - destruct (Update_playing_cooldown k g g1 w w1 Hp EU) as [E S].
        split; [| apply (settled_mono 0); [lia | exact S]].
        replace (shootCooldown g =? 0) with false in E
          by (symmetry; apply Z.eqb_neq; lia).
        rewrite andb_false_r in E.
        replace (0 <? shootCooldown g) with true in E
          by (symmetry; apply Z.ltb_lt; lia).
        rewrite sub_small in E by (unfold Go.minInt, Go.maxInt; lia).
        right. exact E.
      - assert (Hlt : m < 60) by lia.
        destruct (Update_waiting k g g1 w w1 m Hlt Hwait EU) as [E S].
        split; [left; exact E | exact S]. }
    destruct Hstep as [Hcd Hs1].
    apply (IH g1 g2 w1 w2 (m + 1)); try assumption; lia.
Qed.

End Cooldown.

Lemma movePlayer_position (k : Key.t) (g h : Game.t) :
  playerX g = playerX h -> playerY g = playerY h ->
  playerX (movePlayer k g) = playerX (movePlayer k h)
  /\ playerY (movePlayer k g) = playerY (movePlayer k h).
Proof.
  intros Hx Hy. unfold movePlayer.
  destruct (Key.Left k), (Key.Right k), (Key.Up k), (Key.Down k);
    cbn; rewrite ?Hx, ?Hy; split; reflexivity.
Qed.

(** C10. In a playing frame with the fire key held and the cooldown at 0,
    the fire block appends exactly three bullets to the player's bullets (3
    degrees left of straight up, straight up, 3 degrees right; 0, 8 and 16
    to the right of the player's position of that frame; speed 12), plays
    the sound once and sets the cooldown to 5; the frame ends with the
    cooldown at 4, and the cooldown is positive at the start of each of the
    next four frames, so that the next volley is at least 5 frames later.
    With a positive cooldown the fire block creates nothing. *)
Theorem volley_of_three (M : Math.Lib) (stages : list Stage.t) (k : Key.t)
    (g : Game.t) (w : World) :
  gameState g = GameStatePlaying ->
  0 <= currentSpawn g ->
  Key.Space k = true ->
  shootCooldown g = 0 ->
  exists gm wm g1 w1,
    advanceEnemies M k (fst (ambient g w)) (snd (ambient g w)) = Some (gm, wm)
    /\ playerX gm = playerX (movePlayer k g)
    /\ playerY gm = playerY (movePlayer k g)
    /\ fireVolley M k (checkStageClear gm) wm =
         (set_shootCooldown 5
            (set_bullets
               (bullets g ++ [ volleyBullet M gm (-3) 0; volleyBullet M gm 0 8;
                               volleyBullet M gm 3 16 ])
               (checkStageClear gm)),
          Audio.Play "shoot" wm)
    /\ Update M stages k g w = Some (g1, w1)
    /\ shootCooldown g1 = 4
    /\ (forall ks g2 w2,
          (List.length ks <= 3)%nat ->
          frames M stages ks g1 w1 = Some (g2, w2) ->
          0 < shootCooldown g2)
    /\ (forall k0 h w0, 0 < shootCooldown h -> fireVolley M k0 h w0 = (h, w0)).
Proof.
  intros Hs Hcur Hk Hc.
  destruct (ambient_keeps g w)
    as (As & Ac & _ & _ & _ & Acs & _ & _ & Ab & _ & _ & _ & _ & _ & Ax & Ay).
  assert (Hcur' : 0 <= currentSpawn (fst (ambient g w))) by (rewrite Acs; exact Hcur).
  destruct (advanceEnemies_total M k (fst (ambient g w)) (snd (ambient g w)) Hcur')
    as (gm & wm & Ea).
  destruct (advanceEnemies_frame M k _ _ _ _ Ea)
    as (gs & ws & _ & _ & _ & _ & _ & _ & _ & _ & Hb & Hcd & _ & _ & _ & Hx & Hy).
  destruct (movePlayer_position k (fst (ambient g w)) g Ax Ay) as [Mx My].
  destruct (Update_playing_total M stages k g w Hs Hcur) as (g1 & w1 & EU).
  exists gm, wm, g1, w1.
  split; [exact Ea |]. split; [congruence |]. split; [congruence |].
  split.
  { unfold fireVolley, checkStageClear. rewrite Hk.
    destruct (stageCleared gm); cbn [shootCooldown set_stageClearKeyReleased
      set_stageClearTimer set_gameState]; rewrite Hcd, Ac, Hc; cbn [Z.eqb andb];
      unfold playerVolley, volleyBullet; cbn; rewrite Hb, Ab; reflexivity. }
  split; [exact EU |].
  destruct (Update_playing_cooldown M stages k g g1 w w1 Hs EU) as [E S].
  rewrite Hk, Hc in E. cbn in E. split; [exact E |].
  split.
  - intros ks g2 w2 Hlen Hf.
    apply (cooldown_runs_down M stages ks g1 g2 w1 w2 0); try assumption; lia.
  - intros k0 h w0 Hpos. unfold fireVolley.
    replace (shootCooldown h =? 0) with false by (symmetry; apply Z.eqb_neq; lia).
    rewrite andb_false_r. reflexivity.
Qed.

Lemma volley_of_three_witness :
  exists g1 w1,
    Update Sample.math Sample.stages Scenario.keySpace Scenario.playing Sample.world
      = Some (g1, w1)
    /\ shootCooldown g1 = 4.
Proof.
  destruct (volley_of_three Sample.math Sample.stages Scenario.keySpace
              Scenario.playing Sample.world)
    as (gm & wm & g1 & w1 & _ & _ & _ & _ & E & C & _).
  - reflexivity.
  - vm_compute. discriminate.
  - reflexivity.
  - reflexivity.
  - exists g1, w1. split; [exact E | exact C].
Defined.

(** ** Stage completion *)

Section StageClear.

Variable M : Math.Lib.
Variable stages : list Stage.t.

Lemma shotBy_ext (g h : Game.t) (ebs : list EnemyBullet.t) :
  playerX g = playerX h -> playerY g = playerY h ->
  existsb (shotBy g) ebs = existsb (shotBy h) ebs.
Proof.
  intros Hx Hy. induction ebs as [| eb rest IH]; [reflexivity |].
  cbn [existsb]. rewrite IH. unfold shotBy, enemyBulletHits. rewrite Hx, Hy.
  reflexivity.
Qed.

Lemma stageCleared_enemies (g : Game.t) :
  stageCleared g = true -> enemies g = [].
Proof.
  unfold stageCleared, Go.len. intros H.
  apply andb_prop in H. destruct H as [_ H]. apply Z.eqb_eq in H.
  destruct (enemies g); [reflexivity | cbn in H; lia].
Qed.

(** When the test succeeds the frame ends in StageClear, unless an enemy
    bullet reaches the player in the same frame. *)
Lemma resolveCombat_cleared (k : Key.t) (g : Game.t) (w : World) :
  stageCleared g = true ->
  let g1 := fst (resolveCombat M k g w) in
  gameState g1 =
    (if existsb (shotBy g) (enemyBullets g)
     then GameStatePlayerExplosion else GameStateStageClear)
  /\ stageClearTimer g1 = 0 /\ stageClearKeyReleased g1 = false.
Proof.
  intros Hc. pose proof (stageCleared_enemies g Hc) as He.
  destruct (resolveCombat_state M k g w) as (Ht & Hf & _).
  unfold checkStageClear in Ht, Hf. rewrite Hc in Ht, Hf. cbn in Ht, Hf.
  cbn zeta. split; [| split; assumption].
  destruct (resolveCombat_unfold M k g w)
    as (g1 & w1 & g2 & w2 & g3 & w3 & E1 & E2 & E3 & E).
  rewrite E. clear E.
  pose proof (playerFire_keeps M k (checkStageClear g) w) as F1.
  rewrite E1 in F1. cbn [fst] in F1.
  destruct F1 as (A1 & _ & _ & _ & _ & _ & N1 & B1 & X1 & Y1).
  assert (Hg0 : gameState (checkStageClear g) = GameStateStageClear
                /\ enemies (checkStageClear g) = []
                /\ enemyBullets (checkStageClear g) = enemyBullets g
                /\ playerX (checkStageClear g) = playerX g
                /\ playerY (checkStageClear g) = playerY g).
  { unfold checkStageClear. rewrite Hc. cbn. repeat split; try reflexivity. exact He. }
  destruct Hg0 as (A0 & N0 & B0 & X0 & Y0).
  assert (N1' : enemies g1 = []) by congruence.
  destruct (updateBullets_no_enemies M g1 w1 N1') as (N2 & A2 & B2 & X2 & Y2).
  rewrite E2 in N2, A2, B2, X2, Y2. cbn [fst] in N2, A2, B2, X2, Y2.
  pose proof (updateEnemyBullets_state M g2 w2) as (A3 & _).
  pose proof (updateEnemyBullets_keeps M g2 w2) as (_ & _ & _ & N3 & _).
  rewrite E3 in A3, N3. cbn [fst] in A3, N3.
  pose proof (collidePlayer_state M g3 w3) as (A4 & _). cbn zeta in A4.
  rewrite A4, N3, N2. cbn [existsb]. rewrite A3.
  rewrite (shotBy_ext g2 g) by congruence.
  replace (enemyBullets g2) with (enemyBullets g) by congruence.
  destruct (existsb (shotBy g) (enemyBullets g)); [reflexivity | congruence].
Qed.

(** When the test fails the frame does not end in StageClear. *)
Lemma resolveCombat_not_cleared (k : Key.t) (g : Game.t) (w : World) :
  gameState g = GameStatePlaying -> stageCleared g = false ->
  gameState (fst (resolveCombat M k g w)) <> GameStateStageClear.
Proof.
  intros Hs Hc. destruct (resolveCombat_state M k g w) as (_ & _ & Hd).
  unfold checkStageClear in Hd. rewrite Hc in Hd.
  destruct Hd as [[Hd _] | [Hd _]]; rewrite Hd; [rewrite Hs |]; discriminate.
Qed.

(** A stage without waves and without enemies passes the test at once. *)
Lemma advanceEnemies_empty_stage (k : Key.t) (g gm : Game.t) (w wm : World) :
  waves g = [] -> enemies g = [] -> 0 <= currentSpawn g ->
  advanceEnemies M k g w = Some (gm, wm) -> stageCleared gm = true.
Proof.
  intros Hw He Hc Ha. unfold advanceEnemies in Ha.
  assert (Es : spawnWave (movePlayer k g) w = Some (movePlayer k g, w)).
  { unfold spawnWave. rewrite (movePlayer_shape k g). cbn. rewrite Hw. cbn.
    replace (currentSpawn g <? 0) with false by (symmetry; apply Z.ltb_ge; lia).
    reflexivity. }
  rewrite Es in Ha. unfold updateEnemies in Ha.
  rewrite (movePlayer_shape k g) in Ha. cbn in Ha. rewrite He in Ha. cbn in Ha.
  inversion Ha; subst gm wm. unfold stageCleared. cbn. rewrite Hw. cbn.
  apply andb_true_intro. split; [apply Z.leb_le; lia | reflexivity].
Qed.

End StageClear.

(** C5 (amended). In a playing frame, let the stage-completion test be
    made on the session [gm] that the spawn, the enemy moves and the removal
    of the enemies that left the screen produce.  When the cursor has passed
    the last wave and no enemy is left in [gm], the stage-clear timer and its
    key-released flag are reset and the frame ends in StageClear, unless an
    enemy bullet reaches the player in that same frame: then it ends in
    PlayerExplosion.  When the test fails the frame does not end in
    StageClear.  The stage index and the wave list are never changed by a
    playing frame, and a stage with no wave and no enemy passes the test in
    its first frame. *)
Theorem stage_clear_transition (M : Math.Lib) (stages : list Stage.t)
    (k : Key.t) (g : Game.t) (w : World) :
  gameState g = GameStatePlaying ->
  0 <= currentSpawn g ->
  exists gm wm g1 w1,
    advanceEnemies M k (fst (ambient g w)) (snd (ambient g w)) = Some (gm, wm)
    /\ Update M stages k g w = Some (g1, w1)
    /\ currentStage g1 = currentStage g /\ waves g1 = waves g
    /\ (stageCleared gm = true ->
        gameState g1 =
          (if existsb (shotBy gm) (enemyBullets gm)
           then GameStatePlayerExplosion else GameStateStageClear)
        /\ stageClearTimer g1 = 0 /\ stageClearKeyReleased g1 = false)
    /\ (stageCleared gm = false -> gameState g1 <> GameStateStageClear)
    /\ (waves g = [] -> enemies g = [] -> stageCleared gm = true).
Proof.
  intros Hs Hc.
  destruct (ambient_keeps g w)
    as (As & _ & _ & _ & _ & Acs & Aw & Ae & _ & _ & _ & _ & Ast & _).
  assert (Hc' : 0 <= currentSpawn (fst (ambient g w))) by (rewrite Acs; exact Hc).
  destruct (advanceEnemies_total M k (fst (ambient g w)) (snd (ambient g w)) Hc')
    as (gm & wm & Ea).
  exists gm, wm, (fst (resolveCombat M k gm wm)), (snd (resolveCombat M k gm wm)).
  split; [exact Ea |].
  split.
  { rewrite Update_playing by exact Hs. unfold updatePlaying. rewrite Ea.
    rewrite <- surjective_pairing. reflexivity. }
  destruct (advanceEnemies_frame M k _ _ _ _ Ea)
    as (gs & ws & _ & _ & _ & Hw & Hst & Hgs & _).
  destruct (resolveCombat_frame M k gm wm) as (_ & _ & Rw & Rst & _).
  split; [congruence |]. split; [congruence |].
  split; [apply resolveCombat_cleared |].
  split; [apply resolveCombat_not_cleared; congruence |].
  intros Hwe Hen.
  apply (advanceEnemies_empty_stage M k (fst (ambient g w)) gm (snd (ambient g w)) wm);
    congruence.
Qed.

Lemma stage_clear_transition_witness :
  exists g1 w1,
    Update Sample.math Sample.stages Key.none Scenario.emptyStage Sample.world
      = Some (g1, w1)
    /\ gameState g1 = GameStateStageClear.
Proof.
  destruct (stage_clear_transition Sample.math Sample.stages Key.none
              Scenario.emptyStage Sample.world)
    as (gm & wm & g1 & w1 & Ea & EU & _ & _ & Hc & _ & He).
  - reflexivity.
  - vm_compute. discriminate.
  - exists g1, w1. split; [exact EU |].
    destruct (Hc (He eq_refl eq_refl)) as [Hst _].
    assert (Hb : option_map (fun p => enemyBullets (fst p))
                   (advanceEnemies Sample.math Key.none
                      (fst (ambient Scenario.emptyStage Sample.world))
                      (snd (ambient Scenario.emptyStage Sample.world))) = Some [])
      by (vm_compute; reflexivity).
    rewrite Ea in Hb. cbn in Hb. inversion Hb as [Hb'].
    rewrite Hb' in Hst. exact Hst.
Defined.

(** C5, as stated, fails: the cursor has passed the last wave and no enemy
    is alive, yet the frame ends in PlayerExplosion because an enemy bullet
    reaches the player after the test. *)
Lemma stage_clear_overridden_by_enemy_bullet :
  gameState Scenario.emptyStageUnderFire = GameStatePlaying
  /\ stageCleared Scenario.emptyStageUnderFire = true
  /\ match Update Sample.math Sample.stages Key.none
             Scenario.emptyStageUnderFire Sample.world with
     | Some (g1, _) =>
         gameState g1 = GameStatePlayerExplosion
         /\ gameState g1 <> GameStateStageClear
     | None => False
     end.
Proof.
  split; [reflexivity |]. split; [reflexivity |].
  vm_compute. split; [reflexivity | discriminate].
Qed.

(** ** The high score *)

Section HighScore.

Variable M : Math.Lib.
Variable stages : list Stage.t.

(** The enemy-bullet pass never writes the high score, whatever it hits. *)
Lemma updateEnemyBullets_highScore (g : Game.t) (w : World) :
  highScore (fst (updateEnemyBullets M g w)) = highScore g.
Proof. apply updateEnemyBullets_state. Qed.

(** The body-collision pass records it. *)
Lemma collidePlayer_highScore (g : Game.t) (w : World) :
  existsb (playerTouches g) (enemies g) = true ->
  highScore g < score g ->
  highScore (fst (collidePlayer M g w)) = score g.
Proof.
  intros Ht Hlt. destruct (collidePlayer_state M g w) as (_ & _ & H).
  rewrite H, Ht. unfold recordHighScore.
  replace (highScore g <? score g) with true by (symmetry; apply Z.ltb_lt; exact Hlt).
  reflexivity.
Qed.

(** Restarting is [NewGame] with the state set to Playing: nothing of the
    old session is read. *)
Lemma restart_is_NewGame (k : Key.t) (g : Game.t) (w : World) :
  gameState g = GameStateGameOver -> Key.R k = true ->
  Update M stages k g w =
    match NewGame stages (snd (ambient g w)) with
    | Some (fresh, w1) => Some (set_gameState GameStatePlaying fresh, w1)
    | None => None
    end.
Proof.
  intros Hs Hk. unfold Update.
  destruct (ambient_keeps g w) as (As & _).
  destruct (ambient g w) as [ga wa]. cbn [fst snd] in *.
  rewrite As, Hs. unfold updateGameOver. rewrite Hk. reflexivity.
Qed.

Lemma NewGame_fields (w : World) (fresh : Game.t) (w1 : World) :
  NewGame stages w = Some (fresh, w1) ->
  score fresh = 0 /\ highScore fresh = 0 /\ enemies fresh = []
  /\ bullets fresh = [] /\ enemyBullets fresh = [] /\ particles fresh = []
  /\ currentStage fresh = 0 /\ currentSpawn fresh = 0 /\ waveTimer fresh = 0
  /\ gameState fresh = GameStateTitle.
Proof.
  unfold NewGame. destruct (newStars 60 w) as [ss w2].
  destruct (Go.index stages 0); [| discriminate].
  intros H. inversion H; subst. cbn. repeat split; reflexivity.
Qed.

End HighScore.

(** C1 (the code departs from it). A finished session with a high score of
    500 is restarted with the R key: score, enemies, bullets, enemy bullets,
    particles and stage index are those of a fresh session, and so is the
    high score, 0, which is not the high score before the restart. *)
Theorem restart_forgets_high_score :
  gameState Scenario.over = GameStateGameOver
  /\ highScore Scenario.over = 500
  /\ match Update Sample.math Sample.stages Scenario.keyR Scenario.over Sample.world,
           NewGame Sample.stages Sample.world with
     | Some (g1, _), Some (fresh, _) =>
         gameState g1 = GameStatePlaying
         /\ score g1 = score fresh /\ enemies g1 = enemies fresh
         /\ bullets g1 = bullets fresh /\ enemyBullets g1 = enemyBullets fresh
         /\ particles g1 = particles fresh
         /\ currentStage g1 = currentStage fresh
         /\ highScore g1 = 0
         /\ highScore g1 <> highScore Scenario.over
     | _, _ => False
     end.
Proof.
  split; [reflexivity |]. split; [reflexivity |].
  vm_compute. repeat split; try reflexivity. discriminate.
Qed.

(** C6 (the code departs from it). An enemy bullet reaches a player who
    holds 300 points over a high score of 0: the frame ends in
    PlayerExplosion and the high score is still 0, and it still is when the
    session has reached GameOver 61 frames later.  An enemy body that
    touches the same player does record the 300 points. *)
Theorem enemy_bullet_skips_high_score :
  match Update Sample.math Sample.stages Key.none Scenario.shot Sample.world with
  | Some (g1, _) =>
      gameState g1 = GameStatePlayerExplosion /\ score g1 = 300 /\ highScore g1 = 0
  | None => False
  end
  /\ match frames Sample.math Sample.stages (repeat Key.none 62) Scenario.shot
             Sample.world with
     | Some (g2, _) =>
         gameState g2 = GameStateGameOver /\ score g2 = 300 /\ highScore g2 = 0
     | None => False
     end
  /\ match Update Sample.math Sample.stages Key.none Scenario.rammed Sample.world with
     | Some (g1, _) =>
         gameState g1 = GameStatePlayerExplosion /\ highScore g1 = 300
     | None => False
     end.
Proof.
  split; [vm_compute; repeat split; reflexivity |].
  split; [vm_compute; repeat split; reflexivity |].
  vm_compute; repeat split; reflexivity.
Qed.

(** ** Binary64 facts *)

Lemma Prim2SF_nan : Prim2SF nan = S754_nan.
Proof. reflexivity. Qed.

Lemma add_nan_r (x : float) : (x + nan)%float = nan.
Proof.
  apply Prim2SF_inj. rewrite add_spec, Prim2SF_nan.
  destruct (Prim2SF x); reflexivity.
Qed.

Lemma ltb_nan_l (y : float) : (nan <? y)%float = false.
Proof.
  rewrite ltb_spec, Prim2SF_nan. destruct (Prim2SF y); reflexivity.
Qed.

Lemma ltb_nan_r (x : float) : (x <? nan)%float = false.
Proof.
  rewrite ltb_spec, Prim2SF_nan. destruct (Prim2SF x); reflexivity.
Qed.

(** A finite number minus itself is [+0]. *)
Lemma sub_diag_finite (x : float) : is_finite x = true -> (x - x)%float = 0%float.
Proof.
  intros Hf. apply Prim2SF_inj. rewrite sub_spec.
  unfold is_finite, is_nan, is_infinity in Hf.
  rewrite !eqb_spec, abs_spec in Hf.
  destruct (Prim2SF x) as [s | s | | s m e] eqn:E.
  - destruct s; reflexivity.
  - destruct s; discriminate Hf.
  - discriminate Hf.
  - cbv beta iota delta [SF64sub SFsub]. cbv zeta.
    rewrite Z.sub_diag. reflexivity.
Qed.

(** ** The aimed bullet at distance zero *)

(** C7 (amended). When an aiming enemy (bullet pattern 0) fires while the
    player stands exactly on it, the velocity is computed without a guard:
    the zero difference is divided by the zero distance and both components
    are NaN; no error is raised.  The enemy still emits one bullet and one
    line particle, with that velocity, and the enemy-bullet pass drops a
    bullet of that velocity without it reaching the player. *)
Theorem aimed_shot_at_distance_zero (M : Math.Lib) (px py : float)
    (e : Enemy.t) (w : World) :
  Enemy.shootsBullet e = true ->
  Enemy.bulletType e = 0 ->
  Go.minInt < Enemy.bulletCooldown e <= 1 ->
  px = Enemy.x e -> py = Enemy.y e ->
  is_finite px = true -> is_finite py = true ->
  Math.Hypot M 0 0 = 0%float ->
  aimedVelocity M px py e = (nan, nan)
  /\ (exists e1 w1,
        fireEnemy M px py e w =
          (e1, [EnemyBullet.mk (Enemy.x e + 10) (Enemy.y e + 20) nan nan],
           [Particle.mk (Enemy.x e + 10) (Enemy.y e + 20) nan nan 80 1 5 1], w1))
  /\ (forall bx by_ rest kept g w0,
        enemyBulletsLoop M (EnemyBullet.mk bx by_ nan nan :: rest) kept g w0 =
          enemyBulletsLoop M rest kept g w0).
Proof.
  intros Hs Hb Hc Hx Hy Hfx Hfy Hh.
  assert (Hv : aimedVelocity M px py e = (nan, nan)).
  { unfold aimedVelocity. rewrite <- Hx, <- Hy.
    rewrite (sub_diag_finite px Hfx), (sub_diag_finite py Hfy), Hh. reflexivity. }
  split; [exact Hv |]. split.
  - unfold fireEnemy. rewrite Hs. cbn [Enemy.bulletCooldown Enemy.set_bulletCooldown].
    rewrite sub_small by (unfold Go.minInt, Go.maxInt in *; lia).
    replace (Enemy.bulletCooldown e - 1 <=? 0) with true
      by (symmetry; apply Z.leb_le; lia).
    unfold bulletVelocity. cbn [Enemy.bulletType Enemy.set_bulletCooldown].
    rewrite Hb. cbn [Z.eqb].
    replace (aimedVelocity M px py (Enemy.set_bulletCooldown (Enemy.bulletCooldown e - 1) e))
      with (aimedVelocity M px py e) by reflexivity.
    rewrite Hv. destruct (Rand.Intn 60 w) as [n w1]. eexists; eexists. reflexivity.
  - intros bx by_ rest kept g w0. cbn [enemyBulletsLoop].
    unfold advanceEnemyBullet, enemyBulletHits, enemyBulletInBounds, Go.flt, Go.fgt.
    cbn [EnemyBullet.x EnemyBullet.y EnemyBullet.vx EnemyBullet.vy].
    rewrite !add_nan_r, !ltb_nan_l. reflexivity.
Qed.

Lemma aimed_shot_at_distance_zero_witness :
  aimedVelocity Sample.math 320 408 Scenario.onPlayer = (nan, nan).
Proof.
  refine (proj1 (aimed_shot_at_distance_zero Sample.math 320 408 Scenario.onPlayer
                   Sample.world _ _ _ _ _ _ _ _)).
  - reflexivity.
  - reflexivity.
  - vm_compute. split; [reflexivity | discriminate].
  - reflexivity.
  - reflexivity.
  - reflexivity.
  - reflexivity.
  - reflexivity.
Defined.

(** C7, as stated, fails: with the player on the enemy the distance is 0,
    nothing guards the division, and both velocity components are NaN. *)
Lemma aimed_shot_divides_by_zero :
  Sample.hypot (320 - Enemy.x Scenario.onPlayer) (408 - Enemy.y Scenario.onPlayer)
    = 0%float
  /\ is_nan (fst (aimedVelocity Sample.math 320 408 Scenario.onPlayer)) = true
  /\ is_nan (snd (aimedVelocity Sample.math 320 408 Scenario.onPlayer)) = true.
Proof. repeat split; reflexivity. Qed.

(** ** The two copies of the special enemy's lateral phase *)

Section SpecialTraverse.

Variable M : Math.Lib.



End SpecialTraverse.

(** ** The boss *)

Section Boss.

Variable M : Math.Lib.





End Boss.






(** ** Particles *)

Lemma decayParticles_filter (ps : list Particle.t) :
  decayParticles ps = filter survives (map stepParticle ps).
Proof.
  induction ps as [| p rest IH]; [reflexivity |].
  cbn [decayParticles map filter]. rewrite IH. reflexivity.
Qed.

Lemma stepParticle_decay (p : Particle.t) :
  Particle.alpha (stepParticle p) =
    (Particle.alpha p - 1 / Go.float64_of_int (Particle.lifetime p))%float
  /\ Particle.lifetime (stepParticle p) = Go.sub (Particle.lifetime p) 1
  /\ Particle.ptype (stepParticle p) = Particle.ptype p
  /\ Particle.size (stepParticle p) = Particle.size p.
Proof.
  unfold stepParticle. destruct (negb (Particle.ptype p =? 1)); cbn; auto.
Qed.

Lemma stepParticle_motion (p : Particle.t) :
  (Particle.ptype p = 1 ->
     Particle.x (stepParticle p) = Particle.x p
     /\ Particle.y (stepParticle p) = Particle.y p
     /\ Particle.vx (stepParticle p) = Particle.vx p
     /\ Particle.vy (stepParticle p) = Particle.vy p)
  /\ (Particle.ptype p <> 1 ->
        Particle.x (stepParticle p) = (Particle.x p + Particle.vx p)%float
        /\ Particle.y (stepParticle p) = (Particle.y p + Particle.vy p)%float
        /\ Particle.vx (stepParticle p) = Particle.vx p
        /\ Particle.vy (stepParticle p) = (Particle.vy p + 0.1)%float).
Proof.
  unfold stepParticle. split; intros H.
  - rewrite H. cbn. auto.
  - replace (Particle.ptype p =? 1) with false
      by (symmetry; apply Z.eqb_neq; exact H).
    cbn. auto.
Qed.

Lemma spawnLifetimes_range (l : Z) : In l spawnLifetimes -> 5 <= l <= 49.
Proof.
  assert (H : forallb (fun l => (5 <=? l) && (l <=? 49)) spawnLifetimes = true)
    by (vm_compute; reflexivity).
  rewrite forallb_forall in H. intros Hin. specialize (H l Hin).
  apply andb_prop in H. destruct H as [H1 H2].
  apply Z.leb_le in H1. apply Z.leb_le in H2. lia.
Qed.

Lemma explosion_lifetime (k : Z) : 0 <= k < 20 -> In (Go.add 30 k) spawnLifetimes.
Proof.
  intros Hk. rewrite add_small by (unfold Go.minInt, Go.maxInt; lia).
  unfold spawnLifetimes. apply in_or_app. right.
  apply in_map_iff. exists (Z.to_nat k). split; [lia |].
  apply in_seq. lia.
Qed.

Lemma decayed_lifetime (life : Z) (n : nat) :
  5 <= life <= 49 -> (n <= Z.to_nat life)%nat ->
  snd (decayed n 1 life) = life - Z.of_nat n.
Proof.
  intros Hl. induction n as [| n IH]; intros Hn.
  - cbn. lia.
  - cbn [decayed]. destruct (decayed n 1 life) as [a l] eqn:E. cbn [snd] in *.
    rewrite IH by lia.
    rewrite sub_small by (unfold Go.minInt, Go.maxInt; lia). lia.
Qed.

(** Over the whole life of every particle the code creates, each run of
    the loop body strictly lowers alpha. *)
Lemma decayed_alpha_falls (life : Z) (n : nat) :
  In life spawnLifetimes -> (n < Z.to_nat life)%nat ->
  (fst (decayed (S n) 1 life) <? fst (decayed n 1 life))%float = true.
Proof.
  intros Hin Hn.
  assert (H : forallb
            (fun life =>
               forallb (fun n => (fst (decayed (S n) 1 life) <? fst (decayed n 1 life))%float)
                 (seq 0 (Z.to_nat life)))
            spawnLifetimes = true) by (vm_compute; reflexivity).
  rewrite forallb_forall in H. specialize (H life Hin).
  rewrite forallb_forall in H. apply H. apply in_seq. lia.
Qed.

Lemma fresh_sound (p : Particle.t) : fresh p -> sound p.
Proof.
  intros [Ha Hl]. pose proof (spawnLifetimes_range _ Hl) as Hr. split.
  - exists (Particle.lifetime p), 0%nat. split; [exact Hl |]. split; [lia |].
    cbn. rewrite Ha. reflexivity.
  - unfold survives. rewrite Ha.
    replace (0 <? Particle.lifetime p) with true by (symmetry; apply Z.ltb_lt; lia).
    reflexivity.
Qed.

(** What the loop body does to a particle of the collection. *)
Lemma sound_step (p : Particle.t) :
  sound p ->
  Particle.lifetime (stepParticle p) = Particle.lifetime p - 1
  /\ (Particle.alpha (stepParticle p) <? Particle.alpha p)%float = true
  /\ (survives (stepParticle p) = true -> sound (stepParticle p)).
Proof.
  intros [(life & n & Hin & Hn & Hd) Hs].
  pose proof (spawnLifetimes_range _ Hin) as Hr.
  destruct (stepParticle_decay p) as (Ha & Hl & _).
  assert (Hlife : Particle.lifetime p = life - Z.of_nat n).
  { rewrite <- (decayed_lifetime life n Hr Hn), <- Hd. reflexivity. }
  assert (Hpos : 0 < Particle.lifetime p).
  { unfold survives in Hs. apply andb_prop in Hs. destruct Hs as [Hs _].
    apply Z.ltb_lt in Hs. exact Hs. }
  assert (Hstep : (Particle.alpha (stepParticle p), Particle.lifetime (stepParticle p))
                  = decayed (S n) 1 life).
  { cbn [decayed]. rewrite <- Hd, Ha, Hl. reflexivity. }
  split; [rewrite Hl; apply sub_small; unfold Go.minInt, Go.maxInt; lia |].
  split.
  - replace (Particle.alpha (stepParticle p)) with (fst (decayed (S n) 1 life))
      by (rewrite <- Hstep; reflexivity).
    replace (Particle.alpha p) with (fst (decayed n 1 life))
      by (rewrite <- Hd; reflexivity).
    apply decayed_alpha_falls; [exact Hin | lia].
  - intros Hs1. split; [| exact Hs1].
    exists life, (S n). split; [exact Hin |]. split; [lia | exact Hstep].
Qed.

Lemma decayParticles_sound (ps : list Particle.t) :
  Forall sound ps -> Forall sound (decayParticles ps).
Proof.
  induction 1 as [| p rest Hp Hrest IH]; [constructor |].
  cbn [decayParticles]. destruct (survives (stepParticle p)) eqn:E; [| exact IH].
  constructor; [| exact IH]. apply (sound_step p Hp). exact E.
Qed.

Section ParticlesOfAFrame.

Variable M : Math.Lib.
Variable stages : list Stage.t.

Lemma explosionParticle_fresh (x y : float) (w : World) :
  fresh (fst (explosionParticle M x y w)).
Proof.
  unfold explosionParticle, Rand.Float64, Rand.Intn. cbn. split; [reflexivity |].
  apply explosion_lifetime. apply Z.mod_pos_bound. lia.
Qed.

Lemma explosionLoop_appends (n : nat) (x y : float) (ps : list Particle.t)
    (w : World) :
  exists news,
    fst (explosionLoop M n x y ps w) = ps ++ news
    /\ Forall fresh news /\ List.length news = n.
Proof.
  revert ps w. induction n as [| n IH]; intros ps w.
  - exists []. cbn. rewrite app_nil_r. auto.
  - cbn [explosionLoop].
    pose proof (explosionParticle_fresh x y w) as Hf.
    destruct (explosionParticle M x y w) as [p w1]. cbn [fst] in Hf.
    destruct (IH (ps ++ [p]) w1) as (news & E & Hn & Hlen).
    exists (p :: news). rewrite E, <- app_assoc. cbn.
    split; [reflexivity |]. split; [constructor; assumption | lia].
Qed.

Lemma createExplosion_appends (x y : float) (c : RGBA) (g : Game.t) (w : World) :
  exists news,
    particles (fst (createExplosion M x y c g w)) = particles g ++ news
    /\ Forall fresh news /\ List.length news = 20%nat.
Proof.
  rewrite createExplosion_shape. cbn [fst particles set_particles].
  apply explosionLoop_appends.
Qed.

Lemma stepEnemy_flashes (px py : float) (e : Enemy.t) (w : World) :
  Forall fresh (snd (fst (stepEnemy M px py e w))).
Proof.
  unfold stepEnemy.
  assert (Hm : Forall fresh (snd (moveEnemy M e))).
  { unfold moveEnemy, moveBoss.
    repeat match goal with
           | |- context [if ?c then _ else _] => destruct c
           end; cbn [snd];
      repeat (first [apply Forall_nil | apply Forall_cons]);
      (split; [reflexivity | unfold spawnLifetimes; cbn; auto]). }
  destruct (moveEnemy M e) as [[e1 shots1] flashes1]. cbn [snd] in Hm.
  assert (Hf : Forall fresh (snd (fst (fireEnemy M px py e1 w)))).
  { unfold fireEnemy.
    destruct (Enemy.shootsBullet e1); [| cbn; constructor].
    match goal with
    | |- context [if ?c then _ else _] => destruct c
    end; [| cbn; constructor].
    match goal with
    | |- context [bulletVelocity M px py ?a] =>
        destruct (bulletVelocity M px py a) as [[vx vy] |]
    end; destruct (Rand.Intn 60 w); cbn [fst snd];
      repeat (first [apply Forall_nil | apply Forall_cons]);
      (split; [reflexivity | unfold spawnLifetimes; cbn; auto]). }
  destruct (fireEnemy M px py e1 w) as [[[e2 shots2] flashes2] w1].
  cbn [fst snd] in *. apply Forall_app. split; assumption.
Qed.

Lemma enemiesLoop_appends (px py : float) (es : list Enemy.t)
    (ebs : list EnemyBullet.t) (ps : list Particle.t) (w : World) :
  exists news,
    snd (fst (enemiesLoop M px py es ebs ps w)) = ps ++ news /\ Forall fresh news.
Proof.
  revert ebs ps w. induction es as [| e rest IH]; intros ebs ps w.
  - exists []. cbn. rewrite app_nil_r. auto.
  - cbn [enemiesLoop].
    pose proof (stepEnemy_flashes px py e w) as Hf.
    destruct (stepEnemy M px py e w) as [[[e1 shots] flashes] w1].
    cbn [fst snd] in Hf.
    destruct (IH (ebs ++ shots) (ps ++ flashes) w1) as (news & E & Hn).
    destruct (enemiesLoop M px py rest (ebs ++ shots) (ps ++ flashes) w1)
      as [[[rest1 ebs1] ps1] w2].
    cbn [fst snd] in *. exists (flashes ++ news).
    rewrite E, app_assoc. split; [reflexivity |].
    apply Forall_app. split; assumption.
Qed.

(** A step that only appends fresh particles keeps the collection sound. *)
Lemma grows_refl (g g1 : Game.t) : particles g1 = particles g -> grows g g1.
Proof. intros H. exists []. rewrite app_nil_r. auto. Qed.

Lemma grows_trans (g g1 g2 : Game.t) : grows g g1 -> grows g1 g2 -> grows g g2.
Proof.
  intros (n1 & E1 & F1) (n2 & E2 & F2). exists (n1 ++ n2).
  rewrite E2, E1, app_assoc. split; [reflexivity |].
  apply Forall_app. split; assumption.
Qed.

Lemma grows_sound (g g1 : Game.t) :
  grows g g1 -> Forall sound (particles g) -> Forall sound (particles g1).
Proof.
  intros (news & E & F) H. rewrite E. apply Forall_app. split; [exact H |].
  eapply Forall_impl; [| exact F]. intros p. apply fresh_sound.
Qed.

Lemma stepBullet_grows (b : Bullet.t) (kept : list Bullet.t) (g : Game.t)
    (w : World) :
  grows g (snd (fst (stepBullet M b kept g w))).
Proof.
  unfold stepBullet. destruct (strike b (enemies g)) as [| es | es dead].
  - apply grows_refl. reflexivity.
  - apply grows_refl. reflexivity.
  - match goal with
    | |- context [createExplosion M ?x ?y ?c ?h w] =>
        destruct (createExplosion_appends x y c h w) as (news & E & F & _);
        destruct (createExplosion M x y c h w) as [g2 w1]
    end.
    cbn [fst snd] in *. exists news. split; [exact E | exact F].
Qed.

Lemma bulletsLoop_grows (bs kept : list Bullet.t) (g : Game.t) (w : World) :
  grows g (snd (fst (bulletsLoop M bs kept g w))).
Proof.
  revert kept g w. induction bs as [| b rest IH]; intros kept g w.
  - apply grows_refl. reflexivity.
  - cbn [bulletsLoop].
    pose proof (stepBullet_grows b kept g w) as H1.
    destruct (stepBullet M b kept g w) as [[kept1 g1] w1]. cbn [fst snd] in H1.
    eapply grows_trans; [exact H1 | apply IH].
Qed.

Lemma enemyBulletsLoop_grows (ebs kept : list EnemyBullet.t) (g : Game.t)
    (w : World) :
  grows g (snd (fst (enemyBulletsLoop M ebs kept g w))).
Proof.
  revert kept. induction ebs as [| eb rest IH]; intros kept.
  - apply grows_refl. reflexivity.
  - cbn [enemyBulletsLoop].
    destruct (enemyBulletHits g (advanceEnemyBullet eb)); [| apply IH].
    match goal with
    | |- context [createExplosion M ?x ?y ?c ?h w] =>
        destruct (createExplosion_appends x y c h w) as (news & E & F & _);
        destruct (createExplosion M x y c h w) as [g2 w1]
    end.
    cbn [fst snd] in *. exists news. split; [exact E | exact F].
Qed.

Lemma collidePlayer_grows (g : Game.t) (w : World) :
  grows g (fst (collidePlayer M g w)).
Proof.
  unfold collidePlayer. destruct (existsb (playerTouches g) (enemies g)).
  - match goal with
    | |- context [createExplosion M ?x ?y ?c ?h w] =>
        destruct (createExplosion_appends x y c h w) as (news & E & F & _);
        destruct (createExplosion M x y c h w) as [g2 w1]
    end.
    cbn [fst snd] in *. exists news. split; [| exact F].
    cbn [particles set_playerExplosionTimer set_gameState]. rewrite E.
    unfold recordHighScore. destruct (highScore g <? score g); reflexivity.
  - apply grows_refl. reflexivity.
Qed.

Lemma resolveCombat_grows (k : Key.t) (g : Game.t) (w : World) :
  grows g (fst (resolveCombat M k g w)).
Proof.
  destruct (resolveCombat_unfold M k g w)
    as (g1 & w1 & g2 & w2 & g3 & w3 & E1 & E2 & E3 & E).
  rewrite E.
  assert (H1 : grows g g1).
  { apply grows_refl. destruct (playerFire_shape M k (checkStageClear g) w)
      as (bs & c & w' & E'). rewrite E' in E1. inversion E1; subst.
    destruct (checkStageClear_shape g) as (st & t & f & Ec). rewrite Ec. reflexivity. }
  assert (H2 : grows g1 g2).
  { unfold updateBullets in E2.
    pose proof (bulletsLoop_grows (bullets g1) [] g1 w1) as H.
    destruct (bulletsLoop M (bullets g1) [] g1 w1) as [[kept h] w'].
    inversion E2; subst. cbn [fst snd] in H.
    destruct H as (news & En & Fn). exists news. split; [exact En | exact Fn]. }
  assert (H3 : grows g2 g3).
  { unfold updateEnemyBullets in E3.
    pose proof (enemyBulletsLoop_grows (enemyBullets g2) [] g2 w2) as H.
    destruct (enemyBulletsLoop M (enemyBullets g2) [] g2 w2) as [[kept h] w'].
    inversion E3; subst. cbn [fst snd] in H.
    destruct H as (news & En & Fn). exists news. split; [exact En | exact Fn]. }
  eapply grows_trans; [exact H1 |].
  eapply grows_trans; [exact H2 |].
  eapply grows_trans; [exact H3 | apply collidePlayer_grows].
Qed.

Lemma advanceEnemies_grows (k : Key.t) (g g1 : Game.t) (w w1 : World) :
  advanceEnemies M k g w = Some (g1, w1) -> grows g g1.
Proof.
  unfold advanceEnemies. intros H.
  destruct (spawnWave (movePlayer k g) w) as [[gs ws] |] eqn:Es; [| discriminate].
  destruct (spawnWave_shape _ _ _ _ Es) as (c & es & Egs).
  rewrite (movePlayer_shape k g) in Egs.
  unfold updateEnemies in H.
  match type of H with
  | context [enemiesLoop M ?px ?py ?a ?b ?p ?ww] =>
      destruct (enemiesLoop_appends px py a b p ww) as (news & E & F);
      destruct (enemiesLoop M px py a b p ww) as [[[es1 ebs1] ps1] w3]
  end.
  cbn [fst snd] in E. inversion H; subst g1 w1. subst gs.
  exists news. split; [| exact F]. cbn in E |- *. exact E.
Qed.

(** After any frame the collection is sound again. *)
Lemma Update_sound (k : Key.t) (g g1 : Game.t) (w w1 : World) :
  Forall sound (particles g) ->
  Update M stages k g w = Some (g1, w1) ->
  Forall sound (particles g1).
Proof.
  intros Hs HU. unfold Update in HU.
  destruct (ambient_shape g w) as (ss & wa & Ea). rewrite Ea in HU.
  set (ga := set_particles (decayParticles (particles g)) (set_stars ss g)) in *.
  assert (Hga : Forall sound (particles ga))
    by (apply decayParticles_sound; exact Hs).
  destruct (gameState ga).
  - inversion HU; subst. destruct (Key.Space k); exact Hga.
  - unfold updatePlaying in HU.
    destruct (advanceEnemies M k ga wa) as [[gm wm] |] eqn:Em; [| discriminate].
    inversion HU as [Hp].
    assert (Eg : g1 = fst (resolveCombat M k gm wm)) by (rewrite Hp; reflexivity).
    subst g1.
    apply (grows_sound ga); [| exact Hga].
    eapply grows_trans; [exact (advanceEnemies_grows k ga gm wa wm Em) |].
    apply resolveCombat_grows.
  - destruct (updateStageClear stages k ga) as [g3 |] eqn:E3; [| discriminate].
    inversion HU; subst.
    unfold updateStageClear, advanceStage in E3.
    repeat match type of E3 with
           | context [if ?c then _ else _] => destruct c
           | context [match ?c with Some _ => _ | None => _ end] => destruct c
           end; try discriminate; inversion E3; subst;
      try exact Hga;
      unfold recordHighScore;
      repeat match goal with
             | |- context [if ?c then _ else _] => destruct c
             end; exact Hga.
  - inversion HU; subst. unfold updatePlayerExplosion.
    match goal with
    | |- context [if ?c then _ else _] => destruct c
    end; exact Hga.
  - unfold updateGameOver in HU. destruct (Key.R k).
    + destruct (NewGame stages wa) as [[fr w2] |] eqn:En; [| discriminate].
      inversion HU; subst.
      destruct (NewGame_fields stages wa fr w1 En) as (_ & _ & _ & _ & _ & Hp & _).
      cbn. rewrite Hp. constructor.
    + inversion HU; subst. exact Hga.
Qed.

(** The particles a frame ends with: those of its start as the particle
    loop leaves them, followed by the ones the frame creates, which only a
    playing frame does; none when the frame restarts the game. *)
Lemma Update_particles (k : Key.t) (g g1 : Game.t) (w w1 : World) :
  Update M stages k g w = Some (g1, w1) ->
  (gameState g = GameStateGameOver /\ Key.R k = true /\ particles g1 = [])
  \/ exists news,
       particles g1 = decayParticles (particles g) ++ news
       /\ Forall fresh news
       /\ (gameState g <> GameStatePlaying -> news = []).
Proof.
  intros HU. unfold Update in HU.
  destruct (ambient_shape g w) as (ss & wa & Ea). rewrite Ea in HU.
  set (ga := set_particles (decayParticles (particles g)) (set_stars ss g)) in *.
  change (gameState ga) with (gameState g) in HU.
  assert (Hsame : particles g1 = particles ga ->
            exists news,
              particles g1 = decayParticles (particles g) ++ news
              /\ Forall fresh news
              /\ (gameState g <> GameStatePlaying -> news = [])).
  { intros E. exists []. rewrite app_nil_r. split; [exact E |].
    split; [constructor | reflexivity]. }
  destruct (gameState g) eqn:Es.
  - right. apply Hsame. inversion HU; subst. destruct (Key.Space k); reflexivity.
  - right. unfold updatePlaying in HU.
    destruct (advanceEnemies M k ga wa) as [[gm wm] |] eqn:Em; [| discriminate].
    inversion HU as [Hp].
    assert (Eg : g1 = fst (resolveCombat M k gm wm)) by (rewrite Hp; reflexivity).
    subst g1.
    destruct (grows_trans _ _ _ (advanceEnemies_grows k ga gm wa wm Em)
                (resolveCombat_grows k gm wm)) as (news & En & Fn).
    exists news. split; [exact En |]. split; [exact Fn |].
    intros Hn. contradiction.
  - right. apply Hsame.
    destruct (updateStageClear stages k ga) as [g3 |] eqn:E3; [| discriminate].
    inversion HU; subst.
    unfold updateStageClear, advanceStage in E3.
    repeat match type of E3 with
           | context [if ?c then _ else _] => destruct c
           | context [match ?c with Some _ => _ | None => _ end] => destruct c
           end; try discriminate; inversion E3; subst;
      try reflexivity;
      unfold recordHighScore;
      repeat match goal with
             | |- context [if ?c then _ else _] => destruct c
             end; reflexivity.
  - right. apply Hsame. inversion HU; subst. unfold updatePlayerExplosion.
    match goal with
    | |- context [if ?c then _ else _] => destruct c
    end; reflexivity.
  - unfold updateGameOver in HU. destruct (Key.R k) eqn:Ek.
    + left. destruct (NewGame stages wa) as [[fr w2] |] eqn:En; [| discriminate].
      inversion HU; subst.
      destruct (NewGame_fields stages wa fr w1 En) as (_ & _ & _ & _ & _ & Hp & _).
      cbn. auto.
    + right. apply Hsame. inversion HU; subst. reflexivity.
Qed.

End ParticlesOfAFrame.

(** C8. The particles a frame ends with are those of its start, each with
    1/lifetime taken off its alpha and 1 off its lifetime (both strictly
    decreasing; a normal particle also moved by its velocity and given 0.1
    of downward velocity, a line particle not moved), without the ones whose
    new lifetime or new alpha is not positive, in order, followed by the
    particles created in that frame, which only a playing frame creates;
    the frame that restarts the game ends with none.  So a particle whose
    lifetime or alpha has become non-positive is absent after the frame, and
    no particle of the collection has a lifetime or an alpha that is not
    positive. *)
Theorem particle_decay (M : Math.Lib) (stages : list Stage.t) (k : Key.t)
    (g g1 : Game.t) (w w1 : World) :
  Forall sound (particles g) ->
  Update M stages k g w = Some (g1, w1) ->
  ((gameState g = GameStateGameOver /\ Key.R k = true /\ particles g1 = [])
   \/ exists news,
        particles g1 = filter survives (map stepParticle (particles g)) ++ news
        /\ Forall fresh news
        /\ (gameState g <> GameStatePlaying -> news = []))
  /\ (forall p, In p (particles g) ->
        Particle.alpha (stepParticle p) =
          (Particle.alpha p - 1 / Go.float64_of_int (Particle.lifetime p))%float
        /\ (Particle.alpha (stepParticle p) <? Particle.alpha p)%float = true
        /\ Particle.lifetime (stepParticle p) = Particle.lifetime p - 1
        /\ (Particle.ptype p = 1 ->
            Particle.x (stepParticle p) = Particle.x p
            /\ Particle.y (stepParticle p) = Particle.y p)
        /\ (Particle.ptype p <> 1 ->
            Particle.x (stepParticle p) = (Particle.x p + Particle.vx p)%float
            /\ Particle.y (stepParticle p) = (Particle.y p + Particle.vy p)%float
            /\ Particle.vy (stepParticle p) = (Particle.vy p + 0.1)%float)
        /\ (survives (stepParticle p) = false ->
            ~ In (stepParticle p) (particles g1)))
  /\ particles (fst (ambient g w)) = filter survives (map stepParticle (particles g))
  /\ Forall sound (particles g1)
  /\ (forall q, In q (particles g1) ->
        0 < Particle.lifetime q /\ (0 <? Particle.alpha q)%float = true).
Proof.
  intros Hs HU.
  assert (Hs1 : Forall sound (particles g1)) by (eapply Update_sound; eassumption).
  split.
  { destruct (Update_particles M stages k g g1 w w1 HU)
      as [H | (news & E & F & N)]; [left; exact H |].
    right. exists news. rewrite <- decayParticles_filter. auto. }
  split.
  { intros p Hin. rewrite Forall_forall in Hs. specialize (Hs p Hin).
    destruct (sound_step p Hs) as (Hl & Ha & _).
    destruct (stepParticle_decay p) as (Hd & _).
    destruct (stepParticle_motion p) as (Hline & Hnormal).
    split; [exact Hd |]. split; [exact Ha |]. split; [exact Hl |].
    split; [| split].
    - intros Ht. destruct (Hline Ht) as (Hx & Hy & _). auto.
    - intros Ht. destruct (Hnormal Ht) as (Hx & Hy & _ & Hvy). auto.
    - intros Hdead Hq. rewrite Forall_forall in Hs1.
      destruct (Hs1 _ Hq) as [_ Hsv]. congruence. }
  split.
  { destruct (ambient_shape g w) as (ss & wa & Ea). rewrite Ea. cbn.
    apply decayParticles_filter. }
  split; [exact Hs1 |].
  intros q Hin. rewrite Forall_forall in Hs1. destruct (Hs1 q Hin) as [_ Hsv].
  unfold survives, Go.fgt in Hsv. apply andb_prop in Hsv.
  destruct Hsv as [H1 H2]. apply Z.ltb_lt in H1. auto.
Qed.

Lemma particle_decay_witness :
  match Update Sample.math Sample.stages Key.none Scenario.sparkling Sample.world with
  | Some (g1, _) =>
      ((gameState Scenario.sparkling = GameStateGameOver
        /\ Key.R Key.none = true /\ particles g1 = [])
       \/ exists news,
            particles g1
            = filter survives (map stepParticle (particles Scenario.sparkling))
              ++ news
            /\ Forall fresh news
            /\ (gameState Scenario.sparkling <> GameStatePlaying -> news = []))
      /\ map Particle.lifetime (particles Scenario.sparkling) = [30]
      /\ map Particle.lifetime (particles g1) = [29]
  | None => False
  end.
Proof.
  destruct (Update Sample.math Sample.stages Key.none Scenario.sparkling Sample.world)
    as [[g1 w1] |] eqn:E.
  2: { assert (H : option_map (fun _ => tt)
                     (Update Sample.math Sample.stages Key.none Scenario.sparkling
                        Sample.world) = Some tt) by (vm_compute; reflexivity).
       rewrite E in H. discriminate H. }
  assert (Hc : option_map (fun p => map Particle.lifetime (particles (fst p)))
                 (Update Sample.math Sample.stages Key.none Scenario.sparkling
                    Sample.world) = Some [29])
    by (vm_compute; reflexivity).
  rewrite E in Hc. cbn [option_map fst] in Hc. injection Hc as Hl.
  split; [| split; [reflexivity | exact Hl]].
  refine (proj1 (particle_decay Sample.math Sample.stages Key.none
                   Scenario.sparkling g1 Sample.world w1 _ E)).
  constructor; [| constructor].
  apply fresh_sound. split; [reflexivity |].
  cbn. right. right. left. reflexivity.
Defined.
(** ** Hit points *)

Lemma strike_spec (b : Bullet.t) (es : list Enemy.t) :
  Forall healthy es ->
  match strike b es with
  | Miss => Forall (fun e => bulletHits b e = false) es
  | Wound es1 =>
      exists l e r,
        es = l ++ e :: r
        /\ Forall (fun e0 => bulletHits b e0 = false) l
        /\ bulletHits b e = true /\ 1 < Enemy.hp e
        /\ es1 = l ++ Enemy.set_hp (Enemy.hp e - 1) e :: r
  | Kill es1 dead =>
      exists l e r,
        es = l ++ e :: r
        /\ Forall (fun e0 => bulletHits b e0 = false) l
        /\ bulletHits b e = true /\ Enemy.hp e = 1
        /\ dead = Enemy.set_hp 0 e /\ es1 = l ++ r
  end.
Proof.
  induction 1 as [| e rest He Hrest IH]; [constructor |].
  cbn [strike]. destruct (bulletHits b e) eqn:Eh.
  - unfold healthy in He. cbn [Enemy.hp Enemy.set_hp].
    rewrite sub_small by (unfold Go.minInt, Go.maxInt; lia).
    destruct (Enemy.hp e - 1 <=? 0) eqn:E0.
    + apply Z.leb_le in E0. exists [], e, rest.
      assert (H1 : Enemy.hp e = 1) by lia. rewrite H1. cbn. auto 10.
    + apply Z.leb_gt in E0. exists [], e, rest. cbn.
      repeat split; auto. lia.
  - destruct (strike b rest) as [| es1 | es1 dead].
    + constructor; assumption.
    + destruct IH as (l & e0 & r & E & Hl & Hh & Hp & E1).
      exists (e :: l), e0, r. rewrite E, E1. cbn. auto 10.
    + destruct IH as (l & e0 & r & E & Hl & Hh & Hp & Hd & E1).
      exists (e :: l), e0, r. rewrite E, E1. cbn. auto 10.
Qed.

Lemma strike_healthy (b : Bullet.t) (es : list Enemy.t) :
  Forall healthy es ->
  match strike b es with
  | Miss => True
  | Wound es1 => Forall healthy es1
  | Kill es1 dead => Forall healthy es1 /\ Enemy.hp dead = 0
  end.
Proof.
  intros H. pose proof (strike_spec b es H) as S.
  destruct (strike b es) as [| es1 | es1 dead]; [exact I | |].
  - destruct S as (l & e & r & E & _ & _ & Hp & E1). subst es es1.
    apply Forall_app in H. destruct H as [Hl Hr].
    apply Forall_app. split; [exact Hl |].
    inversion Hr as [| ? ? He Hr']; subst. constructor; [| exact Hr'].
    unfold healthy in *. cbn. lia.
  - destruct S as (l & e & r & E & _ & _ & Hp & Hd & E1). subst es es1 dead.
    apply Forall_app in H. destruct H as [Hl Hr].
    inversion Hr as [| ? ? He Hr']; subst.
    split; [apply Forall_app; split; assumption | reflexivity].
Qed.

Section HitPoints.

Variable M : Math.Lib.
Variable stages : list Stage.t.

Lemma moveEnemy_hp (e : Enemy.t) :
  Enemy.hp (fst (fst (moveEnemy M e))) = Enemy.hp e.
Proof.
  unfold moveEnemy, moveSpecial, moveBoss. split_ifs; reflexivity.
Qed.

Lemma fireEnemy_hp (px py : float) (e : Enemy.t) (w : World) :
  Enemy.hp (fst (fst (fst (fireEnemy M px py e w)))) = Enemy.hp e.
Proof.
  unfold fireEnemy. destruct (Enemy.shootsBullet e); [| reflexivity].
  match goal with
  | |- context [if ?c then _ else _] => destruct c
  end; [| reflexivity].
  match goal with
  | |- context [bulletVelocity M px py ?a] =>
      destruct (bulletVelocity M px py a) as [[vx vy] |]
  end; destruct (Rand.Intn 60 w); reflexivity.
Qed.

Lemma stepEnemy_hp (px py : float) (e : Enemy.t) (w : World) :
  Enemy.hp (fst (fst (fst (stepEnemy M px py e w)))) = Enemy.hp e.
Proof.
  unfold stepEnemy. pose proof (moveEnemy_hp e) as H1.
  destruct (moveEnemy M e) as [[e1 s1] f1]. cbn [fst] in H1.
  pose proof (fireEnemy_hp px py e1 w) as H2.
  destruct (fireEnemy M px py e1 w) as [[[e2 s2] f2] w1]. cbn [fst] in *.
  congruence.
Qed.

Lemma enemiesLoop_healthy (px py : float) (es : list Enemy.t)
    (ebs : list EnemyBullet.t) (ps : list Particle.t) (w : World) :
  Forall healthy es ->
  Forall healthy (fst (fst (fst (enemiesLoop M px py es ebs ps w)))).
Proof.
  intros H. revert ebs ps w.
  induction H as [| e rest He Hrest IH]; intros ebs ps w; [constructor |].
  cbn [enemiesLoop]. pose proof (stepEnemy_hp px py e w) as Hhp.
  destruct (stepEnemy M px py e w) as [[[e1 shots] flashes] w1]. cbn [fst] in Hhp.
  specialize (IH (ebs ++ shots) (ps ++ flashes) w1).
  destruct (enemiesLoop M px py rest (ebs ++ shots) (ps ++ flashes) w1)
    as [[[rest1 ebs1] ps1] w2].
  cbn [fst] in *. constructor; [| exact IH].
  unfold healthy in *. rewrite Hhp. exact He.
Qed.

Lemma moveEnemyGameOver_hp (e : Enemy.t) :
  Enemy.hp (moveEnemyGameOver M e) = Enemy.hp e.
Proof.
  unfold moveEnemyGameOver, moveSpecialGameOver. split_ifs; reflexivity.
Qed.

Lemma newEnemy_healthy (wv : Wave.t) (c : Z) : healthy (newEnemy wv c).
Proof.
  unfold healthy, newEnemy, spawnHP. cbn [Enemy.hp]. split_ifs; lia.
Qed.

Lemma Forall_filter {A : Type} (P : A -> Prop) (f : A -> bool) (l : list A) :
  Forall P l -> Forall P (filter f l).
Proof.
  induction 1 as [| a rest Ha Hrest IH]; [constructor |].
  cbn. destruct (f a); [constructor |]; assumption.
Qed.

Lemma spawnWave_healthy (g g1 : Game.t) (w w1 : World) :
  Forall healthy (enemies g) -> spawnWave g w = Some (g1, w1) ->
  Forall healthy (enemies g1).
Proof.
  unfold spawnWave. intros H Hs.
  destruct (currentSpawn g <? Go.len (waves g)); [| inversion Hs; subst; exact H].
  destruct (totalDelay (waves g) (currentSpawn g) <=? waveTimer g);
    [| inversion Hs; subst; exact H].
  destruct (Go.index (waves g) (currentSpawn g)) as [wv |]; [| discriminate].
  destruct (Rand.Intn 60 w). inversion Hs; subst. cbn.
  apply Forall_app. split; [exact H |].
  constructor; [apply newEnemy_healthy | constructor].
Qed.

Lemma advanceEnemies_healthy (k : Key.t) (g g1 : Game.t) (w w1 : World) :
  Forall healthy (enemies g) -> advanceEnemies M k g w = Some (g1, w1) ->
  Forall healthy (enemies g1).
Proof.
  unfold advanceEnemies. intros H Ha.
  destruct (spawnWave (movePlayer k g) w) as [[gs ws] |] eqn:Es; [| discriminate].
  assert (Hgs : Forall healthy (enemies gs)).
  { apply (spawnWave_healthy (movePlayer k g) gs w ws); [| exact Es].
    rewrite (movePlayer_shape k g). exact H. }
  unfold updateEnemies in Ha.
  match type of Ha with
  | context [enemiesLoop M ?px ?py ?a ?b ?p ?ww] =>
      pose proof (enemiesLoop_healthy px py a b p ww) as Hl;
      destruct (enemiesLoop M px py a b p ww) as [[[es1 ebs1] ps1] w3]
  end.
  cbn [fst] in Hl. inversion Ha; subst g1 w1. cbn.
  apply Forall_filter. apply Hl. exact Hgs.
Qed.

(** One bullet: the bullet is consumed by a hit, the score and the twenty
    particles of the explosion come with a kill. *)
Lemma stepBullet_spec (b : Bullet.t) (kept : list Bullet.t) (g : Game.t)
    (w : World) :
  match strike b (enemies g) with
  | Miss =>
      enemies (snd (fst (stepBullet M b kept g w))) = enemies g
      /\ score (snd (fst (stepBullet M b kept g w))) = score g
  | Wound es =>
      fst (fst (stepBullet M b kept g w)) = kept
      /\ enemies (snd (fst (stepBullet M b kept g w))) = es
      /\ score (snd (fst (stepBullet M b kept g w))) = score g
      /\ particles (snd (fst (stepBullet M b kept g w))) = particles g
  | Kill es dead =>
      fst (fst (stepBullet M b kept g w)) = kept
      /\ enemies (snd (fst (stepBullet M b kept g w))) = es
      /\ score (snd (fst (stepBullet M b kept g w))) =
           Go.add (score g)
             (if Enemy.enemyType dead =? EnemyTypeBoss then 1000 else 100)
      /\ exists news,
           particles (snd (fst (stepBullet M b kept g w))) = particles g ++ news
           /\ List.length news = 20%nat
  end.
Proof.
  unfold stepBullet. destruct (strike b (enemies g)) as [| es | es dead].
  - cbn. auto.
  - cbn. auto.
  - match goal with
    | |- context [createExplosion M ?x ?y ?c ?h w] =>
        destruct (createExplosion_appends M x y c h w) as (news & E & _ & Hlen);
        rewrite (createExplosion_shape M x y c h w) in *
    end.
    cbn in E |- *. repeat split; try reflexivity.
    exists news. split; [exact E | exact Hlen].
Qed.

Lemma bulletsLoop_healthy (bs kept : list Bullet.t) (g : Game.t) (w : World) :
  Forall healthy (enemies g) ->
  Forall healthy (enemies (snd (fst (bulletsLoop M bs kept g w)))).
Proof.
  revert kept g w. induction bs as [| b rest IH]; intros kept g w H.
  - exact H.
  - cbn [bulletsLoop].
    pose proof (stepBullet_spec b kept g w) as S.
    pose proof (strike_healthy b (enemies g) H) as Hh.
    destruct (stepBullet M b kept g w) as [[kept1 g1] w1]. cbn [fst snd] in S.
    apply IH.
    destruct (strike b (enemies g)) as [| es | es dead].
    + destruct S as [S _]. rewrite S. exact H.
    + destruct S as (_ & S & _). rewrite S. exact Hh.
    + destruct S as (_ & S & _). rewrite S. apply Hh.
Qed.

Lemma resolveCombat_healthy (k : Key.t) (g : Game.t) (w : World) :
  Forall healthy (enemies g) ->
  Forall healthy (enemies (fst (resolveCombat M k g w))).
Proof.
  intros H.
  destruct (resolveCombat_unfold M k g w)
    as (g1 & w1 & g2 & w2 & g3 & w3 & E1 & E2 & E3 & E).
  rewrite E.
  destruct (collidePlayer_keeps M g3 w3) as (_ & _ & _ & N4 & _).
  pose proof (updateEnemyBullets_keeps M g2 w2) as K3.
  rewrite E3 in K3. cbn [fst] in K3. destruct K3 as (_ & _ & _ & N3 & _).
  pose proof (playerFire_keeps M k (checkStageClear g) w) as K1.
  rewrite E1 in K1. cbn [fst] in K1.
  destruct K1 as (_ & _ & _ & _ & _ & _ & N1 & _).
  assert (N0 : enemies (checkStageClear g) = enemies g).
  { destruct (checkStageClear_shape g) as (st & t & f & Ec). rewrite Ec. reflexivity. }
  rewrite N4, N3.
  unfold updateBullets in E2.
  pose proof (bulletsLoop_healthy (bullets g1) [] g1 w1) as Hb.
  destruct (bulletsLoop M (bullets g1) [] g1 w1) as [[kept h] w'].
  inversion E2; subst g2 w2. cbn in Hb |- *. apply Hb. congruence.
Qed.

(** Every frame keeps the live enemies between 1 and 50 hit points. *)
Lemma Update_healthy (k : Key.t) (g g1 : Game.t) (w w1 : World) :
  Forall healthy (enemies g) ->
  Update M stages k g w = Some (g1, w1) ->
  Forall healthy (enemies g1).
Proof.
  intros Hs HU. unfold Update in HU.
  destruct (ambient_shape g w) as (ss & wa & Ea). rewrite Ea in HU.
  set (ga := set_particles (decayParticles (particles g)) (set_stars ss g)) in *.
  assert (Hga : Forall healthy (enemies ga)) by exact Hs.
  destruct (gameState ga).
  - inversion HU; subst. destruct (Key.Space k); exact Hga.
  - unfold updatePlaying in HU.
    destruct (advanceEnemies M k ga wa) as [[gm wm] |] eqn:Em; [| discriminate].
    inversion HU as [Hp].
    assert (Eg : g1 = fst (resolveCombat M k gm wm)) by (rewrite Hp; reflexivity).
    subst g1. apply resolveCombat_healthy.
    apply (advanceEnemies_healthy k ga gm wa wm Hga Em).
  - destruct (updateStageClear stages k ga) as [g3 |] eqn:E3; [| discriminate].
    inversion HU; subst.
    unfold updateStageClear, advanceStage in E3.
    repeat match type of E3 with
           | context [if ?c then _ else _] => destruct c
           | context [match ?c with Some _ => _ | None => _ end] => destruct c
           end; try discriminate; inversion E3; subst;
      try exact Hga; try (cbn; constructor);
      unfold recordHighScore;
      repeat match goal with
             | |- context [if ?c then _ else _] => destruct c
             end; exact Hga.
  - inversion HU; subst. unfold updatePlayerExplosion.
    match goal with
    | |- context [if ?c then _ else _] => destruct c
    end; exact Hga.
  - unfold updateGameOver in HU. destruct (Key.R k).
    + destruct (NewGame stages wa) as [[fr w2] |] eqn:En; [| discriminate].
      inversion HU; subst.
      destruct (NewGame_fields stages wa fr w1 En) as (_ & _ & Hp & _).
      cbn. rewrite Hp. constructor.
    + inversion HU; subst. cbn. apply Forall_filter.
      apply Forall_map. eapply Forall_impl; [| exact Hga].
      intros e He. unfold healthy in *. rewrite moveEnemyGameOver_hp. exact He.
Qed.

(** The loop over the player bullets does what [BulletPass] says, and
    every explosion adds its twenty particles. *)
Lemma bulletsLoop_pass (bs kept : list Bullet.t) (g : Game.t) (w : World)
    (n : nat) :
  Forall healthy (enemies g) ->
  exists kills news,
    BulletPass bs kept (enemies g) (score g) n
      (fst (fst (bulletsLoop M bs kept g w)))
      (enemies (snd (fst (bulletsLoop M bs kept g w))))
      (score (snd (fst (bulletsLoop M bs kept g w)))) (n + kills)
    /\ particles (snd (fst (bulletsLoop M bs kept g w))) = particles g ++ news
    /\ List.length news = (20 * kills)%nat
    /\ Forall healthy (enemies (snd (fst (bulletsLoop M bs kept g w)))).
Proof.
  revert kept g w n. induction bs as [| b rest IH]; intros kept g w n H.
  - exists O, []. cbn. rewrite Nat.add_0_r, app_nil_r.
    split; [constructor |]. auto.
  - cbn [bulletsLoop].
    pose proof (strike_spec b (enemies g) H) as S.
    pose proof (strike_healthy b (enemies g) H) as Hh.
    unfold stepBullet. destruct (strike b (enemies g)) as [| es | es dead].
    + destruct (IH (if bulletInBounds (advanceBullet b)
                    then kept ++ [advanceBullet b] else kept) g w n H)
        as (kills & news & P & Ep & El & Hf).
      exists kills, news. split; [| auto].
      apply pass_miss; [exact S | exact P].
    + destruct S as (l & e & r & Eg & Hl & Hhit & Hhp & Ees). subst es.
      destruct (IH kept (set_enemies (l ++ Enemy.set_hp (Enemy.hp e - 1) e :: r) g)
                  w n Hh)
        as (kills & news & P & Ep & El & Hf).
      exists kills, news. split; [| auto].
      rewrite Eg. apply pass_wound; try assumption.
    + destruct S as (l & e & r & Eg & Hl & Hhit & Hhp & Ed & Ees).
      subst es dead. destruct Hh as (Hh & _).
      match goal with
      | |- context [createExplosion M ?x ?y ?c ?h w] =>
          destruct (createExplosion_appends M x y c h w) as (boom & Eb & _ & Lb);
          rewrite (createExplosion_shape M x y c h w) in *
      end.
      cbn [fst snd particles set_particles set_score] in Eb.
      cbv beta iota zeta.
      match goal with
      | |- context [bulletsLoop M rest kept ?h ?v] =>
          destruct (IH kept h v (S n) Hh) as (kills & news & P & Ep & El & Hf)
      end.
      exists (S kills), (boom ++ news).
      cbn [enemies score particles set_enemies set_particles set_score]
        in P, Ep, Hf |- *.
      split.
      { rewrite Eg. apply pass_kill; try assumption.
        replace (n + S kills)%nat with (S n + kills)%nat by lia.
        unfold killScore in P. cbn [Enemy.enemyType Enemy.set_hp] in P.
        exact P. }
      split; [rewrite Ep, Eb, app_assoc; reflexivity |].
      split; [rewrite length_app, Lb, El; lia | exact Hf].
Qed.

End HitPoints.

(** C4. Every frame leaves all live enemies with a positive number of hit
    points.  In a playing frame the bullets in flight after the fire block
    are tested in order against the enemies left by the movement and
    culling of that frame, and the bullets, the enemies and the score the
    frame ends with are those of that pass: a bullet that overlaps a live
    enemy takes exactly one hit point from the first one it overlaps and is
    not kept; an enemy that had one hit point left reaches 0, never less,
    and leaves the collection in that same frame, the score grows by 1000
    for a boss and 100 otherwise, and the twenty particles of an explosion
    are appended for each such enemy. *)
Theorem hit_takes_one_point (M : Math.Lib) (stages : list Stage.t) (k : Key.t)
    (g g1 : Game.t) (w w1 : World) :
  Forall healthy (enemies g) ->
  Update M stages k g w = Some (g1, w1) ->
  Forall healthy (enemies g1)
  /\ (forall e, In e (enemies g1) -> 0 < Enemy.hp e)
  /\ (gameState g = GameStatePlaying ->
      exists gm wm gf wf g2 w2 kills news more,
        advanceEnemies M k (fst (ambient g w)) (snd (ambient g w)) = Some (gm, wm)
        /\ playerFire M k (checkStageClear gm) wm = (gf, wf)
        /\ updateBullets M gf wf = (g2, w2)
        /\ BulletPass (bullets gf) [] (enemies gm) (score g) 0
             (bullets g1) (enemies g1) (score g1) kills
        /\ particles g2 = particles gf ++ news
        /\ List.length news = (20 * kills)%nat
        /\ particles g1 = particles g2 ++ more).
Proof.
  intros H HU.
  pose proof (Update_healthy M stages k g g1 w w1 H HU) as H1.
  split; [exact H1 |].
  split.
  { intros e He. rewrite Forall_forall in H1. apply (H1 e He). }
  intros Hs. rewrite (Update_playing M stages k g w Hs) in HU.
  unfold updatePlaying in HU.
  destruct (advanceEnemies M k (fst (ambient g w)) (snd (ambient g w)))
    as [[gm wm] |] eqn:Ea; [| discriminate].
  assert (Er : resolveCombat M k gm wm = (g1, w1)) by (inversion HU; reflexivity).
  clear HU.
  destruct (ambient_keeps g w)
    as (_ & _ & _ & _ & _ & _ & _ & Ae & _ & _ & Asc & _).
  assert (Hga : Forall healthy (enemies (fst (ambient g w))))
    by (rewrite Ae; exact H).
  pose proof (advanceEnemies_healthy M k _ _ _ _ Hga Ea) as Hgm.
  destruct (advanceEnemies_frame M k _ _ _ _ Ea)
    as (gs & ws & _ & _ & _ & _ & _ & _ & Hsc & _).
  destruct (resolveCombat_unfold M k gm wm)
    as (gf & wf & g2 & w2 & g3 & w3 & E1 & E2 & E3 & E).
  rewrite Er in E.
  pose proof (playerFire_keeps M k (checkStageClear gm) wm) as F1.
  rewrite E1 in F1. cbn [fst] in F1.
  destruct F1 as (_ & _ & _ & _ & _ & Fsc & Fe & _).
  assert (N0 : enemies (checkStageClear gm) = enemies gm
               /\ score (checkStageClear gm) = score gm).
  { destruct (checkStageClear_shape gm) as (st & t & f & Ec). rewrite Ec.
    split; reflexivity. }
  destruct N0 as (N0 & S0).
  assert (Hgf : Forall healthy (enemies gf)) by (rewrite Fe, N0; exact Hgm).
  pose proof (updateEnemyBullets_keeps M g2 w2) as K3.
  pose proof (updateEnemyBullets_state M g2 w2) as T3.
  rewrite E3 in K3, T3. cbn [fst] in K3, T3.
  destruct K3 as (_ & _ & _ & N3 & B3 & _). destruct T3 as (_ & _ & _ & S3).
  pose proof (collidePlayer_keeps M g3 w3) as K4.
  rewrite <- E in K4. cbn [fst] in K4.
  destruct K4 as (_ & _ & _ & N4 & B4 & _ & S4).
  assert (G3 : grows g2 g3).
  { unfold updateEnemyBullets in E3.
    pose proof (enemyBulletsLoop_grows M (enemyBullets g2) [] g2 w2) as Hg.
    destruct (enemyBulletsLoop M (enemyBullets g2) [] g2 w2) as [[kept3 h3] w'].
    inversion E3; subst. cbn [fst snd] in Hg.
    destruct Hg as (news3 & En & Fn). exists news3. split; [exact En | exact Fn]. }
  pose proof (collidePlayer_grows M g3 w3) as G4. rewrite <- E in G4.
  cbn [fst] in G4.
  destruct (grows_trans _ _ _ G3 G4) as (more & Em & _).
  pose proof (bulletsLoop_pass M (bullets gf) [] gf wf 0 Hgf) as P.
  unfold updateBullets in E2.
  destruct (bulletsLoop M (bullets gf) [] gf wf) as [[kept h] w'] eqn:El.
  cbn [fst snd] in P. destruct P as (kills & news & P & Ep & Ln & _).
  inversion E2; subst g2 w2. clear E2.
  cbn [enemies bullets score particles set_bullets] in *.
  exists gm, wm, gf, wf, (set_bullets kept h), w', kills, news, more.
  split; [reflexivity |]. split; [exact E1 |].
  split; [unfold updateBullets; rewrite El; reflexivity |].
  split.
  { rewrite N4, N3, B4, B3, S4, S3.
    rewrite Fe, N0, Fsc, S0, Hsc, Asc in P. exact P. }
  split; [exact Ep |]. split; [exact Ln | exact Em].
Qed.

Lemma hit_takes_one_point_witness :
  match Update Sample.math Sample.stages Key.none Scenario.duel Sample.world with
  | Some (g1, w1) =>
      Forall healthy (enemies g1)
      /\ (forall e, In e (enemies g1) -> 0 < Enemy.hp e)
      /\ (gameState Scenario.duel = GameStatePlaying ->
          exists gm wm gf wf g2 w2 kills news more,
            advanceEnemies Sample.math Key.none
              (fst (ambient Scenario.duel Sample.world))
              (snd (ambient Scenario.duel Sample.world)) = Some (gm, wm)
            /\ playerFire Sample.math Key.none (checkStageClear gm) wm = (gf, wf)
            /\ updateBullets Sample.math gf wf = (g2, w2)
            /\ BulletPass (bullets gf) [] (enemies gm) (score Scenario.duel) 0
                 (bullets g1) (enemies g1) (score g1) kills
            /\ particles g2 = particles gf ++ news
            /\ List.length news = (20 * kills)%nat
            /\ particles g1 = particles g2 ++ more)
      /\ map Enemy.hp (enemies Scenario.duel) = [2]
      /\ map Enemy.hp (enemies g1) = [1] /\ bullets g1 = []
  | None => False
  end.
Proof.
  destruct (Update Sample.math Sample.stages Key.none Scenario.duel Sample.world)
    as [[g1 w1] |] eqn:E.
  2: { assert (H : option_map (fun _ => tt)
                     (Update Sample.math Sample.stages Key.none Scenario.duel
                        Sample.world) = Some tt) by (vm_compute; reflexivity).
       rewrite E in H. discriminate H. }
  assert (Hh : Forall healthy (enemies Scenario.duel)).
  { constructor; [| constructor]. unfold healthy. cbn. lia. }
  assert (Hc : option_map (fun p => (map Enemy.hp (enemies (fst p)),
                                     List.length (bullets (fst p))))
                 (Update Sample.math Sample.stages Key.none Scenario.duel
                    Sample.world) = Some ([1], O))
    by (vm_compute; reflexivity).
  rewrite E in Hc. cbn [option_map fst] in Hc. injection Hc as Hhp Hb.
  destruct (hit_takes_one_point Sample.math Sample.stages Key.none Scenario.duel
              g1 Sample.world w1 Hh E) as (T1 & T2 & T3).
  split; [exact T1 |]. split; [exact T2 |]. split; [exact T3 |].
  split; [reflexivity |]. split; [exact Hhp |].
  destruct (bullets g1); [reflexivity | discriminate Hb].
Defined.
(** ** Reachable sessions *)

Section Reachability.

Variable M : Math.Lib.
Variable stages : list Stage.t.

(** A Go slice is never longer than the largest [int]. *)
Hypothesis stages_fit : Go.len stages < Go.maxInt.
Hypothesis waves_fit :
  Forall (fun st => Go.len (Stage.Waves st) <= Go.maxInt) stages.

Lemma index_In {A : Type} (s : list A) (i : Z) (a : A) :
  Go.index s i = Some a -> In a s.
Proof.
  unfold Go.index. destruct (0 <=? i); [| discriminate].
  apply nth_error_In.
Qed.

Lemma index_total {A : Type} (s : list A) (i : Z) :
  0 <= i < Go.len s -> exists a, Go.index s i = Some a.
Proof.
  unfold Go.index, Go.len. intros H.
  replace (0 <=? i) with true by (symmetry; apply Z.leb_le; lia).
  destruct (nth_error s (Z.to_nat i)) as [a |] eqn:E; [eauto |].
  apply nth_error_None in E. lia.
Qed.

Lemma NewGame_wellFormed (w : World) (g : Game.t) (w1 : World) :
  NewGame stages w = Some (g, w1) -> wellFormed stages g.
Proof.
  unfold NewGame. destruct (newStars 60 w) as [ss w2].
  destruct (Go.index stages 0) as [st |] eqn:Ei; [| discriminate].
  intros H. inversion H; subst. clear H.
  pose proof (index_Some_range _ _ _ Ei) as Hr.
  pose proof (index_In _ _ _ Ei) as Hin.
  rewrite Forall_forall in waves_fit. specialize (waves_fit st Hin).
  pose proof (len_nonneg (Stage.Waves st)) as Hnn.
  unfold wellFormed. cbn.
  split; [intros E; rewrite E in Ei; discriminate |].
  repeat split; golia.
Qed.

Lemma spawnWave_cursor (g gs : Game.t) (w ws : World) :
  spawnWave g w = Some (gs, ws) ->
  0 <= currentSpawn g <= Go.len (waves g) -> Go.len (waves g) <= Go.maxInt ->
  0 <= currentSpawn gs <= Go.len (waves g).
Proof.
  unfold spawnWave. intros H Hc Hl.
  destruct (currentSpawn g <? Go.len (waves g)) eqn:Elt;
    [| inversion H; subst; exact Hc].
  destruct (totalDelay (waves g) (currentSpawn g) <=? waveTimer g);
    [| inversion H; subst; exact Hc].
  destruct (Go.index (waves g) (currentSpawn g)); [| discriminate].
  destruct (Rand.Intn 60 w). inversion H; subst. cbn.
  apply Z.ltb_lt in Elt.
  rewrite add_small by golia. lia.
Qed.

Lemma advanceStage_wellFormed (g g1 : Game.t) :
  wellFormed stages g -> gameState g <> GameStateGameOver ->
  advanceStage stages g = Some g1 -> wellFormed stages g1.
Proof.
  intros (Hne & Hcs & Hwl & Hst & Hlt) Hs H. specialize (Hlt Hs).
  unfold advanceStage in H. cbn [currentStage set_currentStage] in H.
  rewrite add_small in H by golia.
  destruct (Go.len stages <=? currentStage g + 1) eqn:Ege.
  - inversion H; subst. unfold wellFormed, recordHighScore.
    destruct (highScore _ <? score _); cbn;
      (split; [exact Hne |]; repeat split; try golia;
       intros Hc; exfalso; apply Hc; reflexivity).
  - apply Z.leb_gt in Ege.
    destruct (Go.index stages (currentStage g + 1)) as [st |] eqn:Ei; [| discriminate].
    inversion H; subst. pose proof (index_In _ _ _ Ei) as Hin.
    rewrite Forall_forall in waves_fit. specialize (waves_fit st Hin).
    pose proof (len_nonneg (Stage.Waves st)).
    unfold wellFormed. cbn. split; [exact Hne |]. repeat split; try golia.
Qed.

Lemma advanceStage_total (g : Game.t) :
  wellFormed stages g -> exists g1, advanceStage stages g = Some g1.
Proof.
  intros (Hne & Hcs & Hwl & Hst & Hlt).
  unfold advanceStage. cbn [currentStage set_currentStage].
  rewrite add_small by golia.
  destruct (Go.len stages <=? currentStage g + 1) eqn:Ege; [eauto |].
  apply Z.leb_gt in Ege.
  destruct (index_total stages (currentStage g + 1)) as [st Est]; [golia |].
  rewrite Est. eauto.
Qed.

(** The fields of the invariant that [ambient] and the caller of
    [advanceStage] do not touch. *)
Lemma wellFormed_ext (g h : Game.t) :
  currentSpawn h = currentSpawn g -> waves h = waves g ->
  currentStage h = currentStage g -> gameState h = gameState g ->
  wellFormed stages g -> wellFormed stages h.
Proof.
  unfold wellFormed. intros E1 E2 E3 E4. rewrite E1, E2, E3, E4. auto.
Qed.

Lemma updatePlaying_wellFormed (k : Key.t) (g g1 : Game.t) (w w1 : World) :
  wellFormed stages g -> gameState g = GameStatePlaying ->
  updatePlaying M k g w = Some (g1, w1) -> wellFormed stages g1.
Proof.
  intros (Hne & Hcs & Hwl & Hst & Hlt) Hs HU.
  assert (Hlt' : currentStage g < Go.len stages) by (apply Hlt; rewrite Hs; discriminate).
  unfold updatePlaying in HU.
  destruct (advanceEnemies M k g w) as [[gm wm] |] eqn:Em; [| discriminate].
  inversion HU as [Hp].
  assert (Eg : g1 = fst (resolveCombat M k gm wm)) by (rewrite Hp; reflexivity).
  subst g1. clear HU Hp.
  destruct (advanceEnemies_frame M k g gm w wm Em)
    as (gs & ws & Es & Hc & _ & Hw & Hstg & Hgs & _).
  assert (Hcur : 0 <= currentSpawn gs <= Go.len (waves g)).
  { pose proof (spawnWave_cursor (movePlayer k g) gs w ws Es) as H.
    rewrite (movePlayer_shape k g) in H. cbn in H. apply H; assumption. }
  destruct (resolveCombat_frame M k gm wm) as (Rc & _ & Rw & Rst & _).
  destruct (resolveCombat_state M k gm wm) as (_ & _ & Hd).
  unfold wellFormed. rewrite Rc, Rw, Rst, Hc, Hw, Hstg.
  split; [exact Hne |]. repeat split; try golia.
Qed.

(** The invariant holds in the session [NewGame] builds and every frame
    keeps it: the cursor stays inside the wave list and the stage index
    inside the stage list until the game is over. *)
Lemma Update_wellFormed (k : Key.t) (g g1 : Game.t) (w w1 : World) :
  wellFormed stages g -> Update M stages k g w = Some (g1, w1) ->
  wellFormed stages g1.
Proof.
  intros Hwf HU. unfold Update in HU.
  destruct (ambient_keeps g w)
    as (As & _ & _ & _ & _ & Acs & Aw & _ & _ & _ & _ & _ & Ast & _).
  destruct (ambient g w) as [ga wa]. cbn [fst] in *.
  assert (Hga : wellFormed stages ga) by (apply (wellFormed_ext g); assumption).
  clear Hwf As Acs Aw Ast.
  destruct (gameState ga) eqn:Es.
  - inversion HU; subst. destruct (Key.Space k); [| exact Hga].
    destruct Hga as (Hne & Hcs & Hwl & Hst & Hlt).
    assert (Hlt' : currentStage ga < Go.len stages)
      by (apply Hlt; rewrite Es; discriminate).
    unfold wellFormed. cbn. split; [exact Hne |]. repeat split; try golia.
  - apply (updatePlaying_wellFormed k ga g1 wa w1 Hga Es HU).
  - destruct (updateStageClear stages k ga) as [g3 |] eqn:E3; [| discriminate].
    inversion HU; subst g3 w1. clear HU.
    unfold updateStageClear in E3.
    set (gt := set_stageClearTimer (Go.add (stageClearTimer ga) 1) ga) in *.
    set (gr := if (60 <? stageClearTimer gt) && negb (Key.Space k)
               then set_stageClearKeyReleased true gt else gt) in *.
    assert (Hgr : wellFormed stages gr /\ gameState gr = GameStateStageClear).
    { split.
      - apply (wellFormed_ext ga); try exact Hga;
          unfold gr, gt; destruct ((60 <? _) && negb (Key.Space k)); reflexivity.
      - unfold gr, gt. destruct ((60 <? _) && negb (Key.Space k)); exact Es. }
    destruct Hgr as [Hgr Hsr].
    assert (Hadv : forall h, advanceStage stages gr = Some h -> wellFormed stages h).
    { intros h Hh. apply (advanceStage_wellFormed gr h Hgr); [| exact Hh].
      rewrite Hsr. discriminate. }
    destruct ((60 <? stageClearTimer gr) && stageClearKeyReleased gr && Key.Space k);
      [apply Hadv; exact E3 |].
    destruct (120 <? stageClearTimer gr); [apply Hadv; exact E3 |].
    inversion E3; subst. exact Hgr.
  - inversion HU; subst. unfold updatePlayerExplosion.
    destruct Hga as (Hne & Hcs & Hwl & Hst & Hlt).
    match goal with
    | |- context [if ?c then _ else _] => destruct c
    end; unfold wellFormed; cbn; (split; [exact Hne |]); repeat split; try golia.
    + intros Hc. exfalso. apply Hc. reflexivity.
    + intros _. apply Hlt. rewrite Es. discriminate.
  - unfold updateGameOver in HU. destruct (Key.R k).
    + destruct (NewGame stages wa) as [[fr w2] |] eqn:En; [| discriminate].
      inversion HU; subst. pose proof (NewGame_wellFormed wa fr w1 En) as Hfr.
      destruct (NewGame_fields stages wa fr w1 En)
        as (_ & _ & _ & _ & _ & _ & _ & _ & _ & Hst).
      destruct Hfr as (Hne & Hcs & Hwl & Hstg & Hlt).
      unfold wellFormed. cbn. split; [exact Hne |]. repeat split; try golia.
      intros _. apply Hlt. rewrite Hst. discriminate.
    + inversion HU; subst. apply (wellFormed_ext ga); try exact Hga; reflexivity.
Qed.

(** No index leaves its slice: from a well-formed session [Update]
    returns. *)
Lemma Update_total (k : Key.t) (g : Game.t) (w : World) :
  wellFormed stages g -> exists g1 w1, Update M stages k g w = Some (g1, w1).
Proof.
  intros Hwf.
  destruct (gameState g) eqn:Es.
  - unfold Update. destruct (ambient_keeps g w) as (As & _).
    destruct (ambient g w) as [ga wa]. cbn [fst] in *. rewrite As, Es. eauto.
  - apply Update_playing_total; [exact Es |]. apply Hwf.
  - unfold Update.
    destruct (ambient_keeps g w)
      as (As & _ & _ & _ & _ & Acs & Aw & _ & _ & _ & _ & _ & Ast & _).
    destruct (ambient g w) as [ga wa]. cbn [fst] in *. rewrite As, Es.
    assert (Hga : wellFormed stages ga) by (apply (wellFormed_ext g); assumption).
    unfold updateStageClear.
    set (gt := set_stageClearTimer (Go.add (stageClearTimer ga) 1) ga).
    set (gr := if (60 <? stageClearTimer gt) && negb (Key.Space k)
               then set_stageClearKeyReleased true gt else gt).
    assert (Hgr : wellFormed stages gr).
    { apply (wellFormed_ext ga); try exact Hga;
        unfold gr, gt; destruct ((60 <? _) && negb (Key.Space k)); reflexivity. }
    destruct (advanceStage_total gr Hgr) as [h Hh].
    destruct ((60 <? stageClearTimer gr) && stageClearKeyReleased gr && Key.Space k);
      [rewrite Hh; eauto |].
    destruct (120 <? stageClearTimer gr); [rewrite Hh; eauto | eauto].
  - unfold Update. destruct (ambient_keeps g w) as (As & _).
    destruct (ambient g w) as [ga wa]. cbn [fst] in *. rewrite As, Es. eauto.
  - unfold Update. destruct (ambient_keeps g w) as (As & _).
    destruct (ambient g w) as [ga wa]. cbn [fst] in *. rewrite As, Es.
    unfold updateGameOver. destruct (Key.R k); [| eauto].
    unfold NewGame. destruct (newStars 60 wa) as [ss w2].
    destruct Hwf as (Hne & _).
    destruct (index_total stages 0) as [st Est].
    { unfold Go.len. destruct stages; [contradiction | cbn; lia]. }
    rewrite Est. eauto.
Qed.

(** What holds in every session the program can be in. *)
Lemma Reachable_invariants (g : Game.t) :
  Reachable M stages g ->
  wellFormed stages g
  /\ Forall healthy (enemies g)
  /\ Forall sound (particles g).
Proof.
  induction 1 as [w g w1 Hn | k g w g1 w1 Hr IH HU].
  - split; [apply (NewGame_wellFormed w g w1 Hn) |].
    destruct (NewGame_fields stages w g w1 Hn) as (_ & _ & He & _ & _ & Hp & _).
    rewrite He, Hp. split; constructor.
  - destruct IH as (Hwf & Hh & Hs). split; [| split].
    + apply (Update_wellFormed k g g1 w w1 Hwf HU).
    + apply (Update_healthy M stages k g g1 w w1 Hh HU).
    + apply (Update_sound M stages k g g1 w w1 Hs HU).
Qed.

(** The simulation never stops on an index out of range. *)
Theorem Update_never_panics (k : Key.t) (g : Game.t) (w : World) :
  Reachable M stages g ->
  exists g1 w1, Update M stages k g w = Some (g1, w1) /\ Reachable M stages g1.
Proof.
  intros Hr. destruct (Reachable_invariants g Hr) as (Hwf & _).
  destruct (Update_total k g w Hwf) as (g1 & w1 & E).
  exists g1, w1. split; [exact E |]. apply (reach_Update M stages k g w g1 w1 Hr E).
Qed.

End Reachability.

Lemma Update_never_panics_witness :
  match NewGame Sample.stages Sample.world with
  | Some (g, _) =>
      exists g1 w1,
        Update Sample.math Sample.stages Key.none g Sample.world = Some (g1, w1)
        /\ Reachable Sample.math Sample.stages g1
  | None => False
  end.
Proof.
  destruct (NewGame Sample.stages Sample.world) as [[g w0] |] eqn:E.
  - apply (Update_never_panics Sample.math Sample.stages).
    + vm_compute. reflexivity.
    + repeat constructor. vm_compute. discriminate.
    + apply (reach_NewGame Sample.math Sample.stages Sample.world g w0 E).
  - assert (H : option_map (fun _ => tt) (NewGame Sample.stages Sample.world) = Some tt)
      by (vm_compute; reflexivity).
    rewrite E in H. discriminate H.
Defined.

(** ** The top-level state machine *)

Section StateMachine.

Variable M : Math.Lib.
Variable stages : list Stage.t.

(** [Update] after the part common to all states. *)
Lemma Update_unfold (k : Key.t) (g : Game.t) (w : World) :
  Update M stages k g w =
    match gameState g with
    | GameStateTitle =>
        Some (if Key.Space k
              then set_gameState GameStatePlaying (fst (ambient g w))
              else fst (ambient g w), snd (ambient g w))
    | GameStatePlaying => updatePlaying M k (fst (ambient g w)) (snd (ambient g w))
    | GameStatePlayerExplosion =>
        Some (updatePlayerExplosion (fst (ambient g w)), snd (ambient g w))
    | GameStateStageClear =>
        match updateStageClear stages k (fst (ambient g w)) with
        | None => None
        | Some g3 => Some (g3, snd (ambient g w))
        end
    | GameStateGameOver => updateGameOver M stages k (fst (ambient g w)) (snd (ambient g w))
    end.
Proof.
  unfold Update. destruct (ambient_keeps g w) as (As & _).
  destruct (ambient g w) as [ga wa]. cbn [fst snd] in *. rewrite As. reflexivity.
Qed.

Lemma ambient_sameBoard (g : Game.t) (w : World) :
  sameBoard g (fst (ambient g w))
  /\ highScore (fst (ambient g w)) = highScore g
  /\ enemies (fst (ambient g w)) = enemies g
  /\ currentStage (fst (ambient g w)) = currentStage g.
Proof.
  destruct (ambient_shape g w) as (ss & w1 & E). rewrite E.
  unfold sameBoard. cbn. repeat split; reflexivity.
Qed.

Lemma sameBoard_trans (g g1 g2 : Game.t) :
  sameBoard g g1 -> sameBoard g1 g2 -> sameBoard g g2.
Proof.
  unfold sameBoard.
  intros (A1 & A2 & A3 & A4 & A5 & A6 & A7 & A8 & A9)
         (B1 & B2 & B3 & B4 & B5 & B6 & B7 & B8 & B9).
  repeat split; congruence.
Qed.

Lemma sameBoard_refl (g : Game.t) : sameBoard g g.
Proof. unfold sameBoard. repeat split; reflexivity. Qed.

(** What [g.currentStage++] and its two branches produce. *)
Lemma advanceStage_spec (g g1 : Game.t) :
  advanceStage stages g = Some g1 ->
  currentStage g1 = Go.add (currentStage g) 1
  /\ score g1 = score g
  /\ ((Go.len stages <= currentStage g1
       /\ gameState g1 = GameStateGameOver
       /\ highScore g1 = Z.max (highScore g) (score g)
       /\ waves g1 = waves g /\ enemies g1 = enemies g)
      \/ (currentStage g1 < Go.len stages
          /\ gameState g1 = GameStatePlaying
          /\ highScore g1 = highScore g
          /\ (exists st, Go.index stages (currentStage g1) = Some st
                         /\ waves g1 = Stage.Waves st)
          /\ currentSpawn g1 = 0 /\ waveTimer g1 = 0
          /\ enemies g1 = [] /\ bullets g1 = [] /\ enemyBullets g1 = [])).
Proof.
  unfold advanceStage. cbn [currentStage set_currentStage].
  destruct (Go.len stages <=? Go.add (currentStage g) 1) eqn:E.
  - intros H. inversion H; subst. clear H. apply Z.leb_le in E.
    unfold recordHighScore. cbn [highScore score set_gameState set_currentStage].
    destruct (highScore g <? score g) eqn:El.
    + apply Z.ltb_lt in El. cbn. repeat split; try reflexivity.
      left. repeat split; try reflexivity; lia.
    + apply Z.ltb_ge in El. cbn. repeat split; try reflexivity.
      left. repeat split; try reflexivity; lia.
  - apply Z.leb_gt in E.
    destruct (Go.index stages (Go.add (currentStage g) 1)) as [st |] eqn:Ei;
      [| discriminate].
    intros H. inversion H; subst. clear H. cbn. repeat split; try reflexivity.
    right. repeat split; try reflexivity; try lia. exists st. split; [exact Ei | reflexivity].
Qed.

Lemma set_released_same (h : Game.t) (f : bool) :
  stageClearKeyReleased h = f -> set_stageClearKeyReleased f h = h.
Proof. intros H. destruct h; cbn in *. rewrite H. reflexivity. Qed.

(** One frame of the stage-clear screen: the timer counts, a fire key
    found up after frame 60 is remembered, and the stage advances on a fire
    key found down after such a release, or after frame 120. *)
Lemma Update_stageClear (k : Key.t) (g : Game.t) (w : World) :
  gameState g = GameStateStageClear ->
  let t := Go.add (stageClearTimer g) 1 in
  let released := stageClearKeyReleased g || ((60 <? t) && negb (Key.Space k)) in
  let gr := set_stageClearKeyReleased released
              (set_stageClearTimer t (fst (ambient g w))) in
  Update M stages k g w =
    if ((60 <? t) && released && Key.Space k) || (120 <? t)
    then match advanceStage stages gr with
         | Some g3 => Some (g3, snd (ambient g w))
         | None => None
         end
    else Some (gr, snd (ambient g w)).
Proof.
  intros Hs. rewrite Update_unfold, Hs.
  destruct (ambient_keeps g w) as (_ & _ & At & Af & _).
  unfold updateStageClear. cbn zeta.
  set (ga := fst (ambient g w)) in *.
  cbn [stageClearTimer set_stageClearTimer]. rewrite At.
  set (t := Go.add (stageClearTimer g) 1) in *.
  assert (Hsame : forall f, f = stageClearKeyReleased g ->
            set_stageClearKeyReleased f (set_stageClearTimer t ga)
              = set_stageClearTimer t ga).
  { intros f Hf. apply set_released_same. cbn. congruence. }
  destruct (60 <? t) eqn:E60, (Key.Space k) eqn:Ek,
           (stageClearKeyReleased g) eqn:Ef, (120 <? t) eqn:E120;
    cbn [negb andb orb] in *;
    cbn [stageClearTimer stageClearKeyReleased set_stageClearTimer
         set_stageClearKeyReleased];
    rewrite ?E60, ?E120, ?Af; cbn [negb andb orb];
    try rewrite Hsame by reflexivity; reflexivity.
Qed.

Lemma Update_explosion (k : Key.t) (g : Game.t) (w : World) :
  gameState g = GameStatePlayerExplosion ->
  Update M stages k g w =
    Some (updatePlayerExplosion (fst (ambient g w)), snd (ambient g w)).
Proof. intros Hs. rewrite Update_unfold, Hs. reflexivity. Qed.

Lemma Update_gameOver (k : Key.t) (g : Game.t) (w : World) :
  gameState g = GameStateGameOver -> Key.R k = false ->
  Update M stages k g w =
    Some (cullEnemies
            (set_enemies (map (moveEnemyGameOver M) (enemies (fst (ambient g w))))
               (fst (ambient g w))),
          snd (ambient g w)).
Proof.
  intros Hs Hk. rewrite Update_unfold, Hs. unfold updateGameOver. rewrite Hk.
  reflexivity.
Qed.

(** The end of a playing frame, read off the stage-completion test. *)
Lemma Update_playing_state (k : Key.t) (g g1 : Game.t) (w w1 : World) :
  gameState g = GameStatePlaying ->
  Update M stages k g w = Some (g1, w1) ->
  (gameState g1 = GameStatePlaying
   /\ playerExplosionTimer g1 = playerExplosionTimer g
   /\ stageClearTimer g1 = stageClearTimer g
   /\ stageClearKeyReleased g1 = stageClearKeyReleased g)
  \/ (gameState g1 = GameStateStageClear
      /\ stageClearTimer g1 = 0 /\ stageClearKeyReleased g1 = false)
  \/ (gameState g1 = GameStatePlayerExplosion /\ playerExplosionTimer g1 = 0).
Proof.
  intros Hs HU. rewrite Update_playing in HU by exact Hs.
  unfold updatePlaying in HU.
  destruct (advanceEnemies M k (fst (ambient g w)) (snd (ambient g w)))
    as [[gm wm] |] eqn:Ea; [| discriminate].
  assert (Eg : g1 = fst (resolveCombat M k gm wm))
    by (inversion HU as [Hp]; rewrite Hp; reflexivity).
  subst g1. clear HU.
  destruct (advanceEnemies_frame M k _ _ _ _ Ea)
    as (gs & ws & _ & _ & _ & _ & _ & Hst & _ & _ & _ & _ & Hsc & Hfl & Hpe & _).
  destruct (ambient_keeps g w) as (As & _ & At & Af & Ape & _).
  destruct (resolveCombat_state M k gm wm) as (Ht & Hf & Hd).
  unfold checkStageClear in Ht, Hf, Hd.
  destruct (stageCleared gm); cbn in Ht, Hf, Hd.
  - destruct Hd as [[Hd _] | [Hd He]].
    + right. left. auto.
    + right. right. auto.
  - destruct Hd as [[Hd He] | [Hd He]].
    + left. repeat split; congruence.
    + right. right. auto.
Qed.

End StateMachine.

(** In one frame the top-level state only follows the arrows Title ->
    Playing, Playing -> StageClear or PlayerExplosion, StageClear -> Playing
    or GameOver, PlayerExplosion -> GameOver and GameOver -> Playing, or
    stays; the title is left exactly by the fire key and the game-over
    screen exactly by the R key; StageClear and PlayerExplosion are entered
    with their timer at 0. *)
Theorem top_level_transitions (M : Math.Lib) (stages : list Stage.t)
    (k : Key.t) (g g1 : Game.t) (w w1 : World) :
  Update M stages k g w = Some (g1, w1) ->
  mayFollow (gameState g) (gameState g1) = true
  /\ (gameState g = GameStateTitle ->
      gameState g1 = if Key.Space k then GameStatePlaying else GameStateTitle)
  /\ (gameState g = GameStateGameOver ->
      gameState g1 = if Key.R k then GameStatePlaying else GameStateGameOver)
  /\ (gameState g = GameStatePlaying -> gameState g1 = GameStateStageClear ->
      stageClearTimer g1 = 0 /\ stageClearKeyReleased g1 = false)
  /\ (gameState g = GameStatePlaying -> gameState g1 = GameStatePlayerExplosion ->
      playerExplosionTimer g1 = 0).
Proof.
  intros HU. destruct (gameState g) eqn:Es.
  - rewrite Update_unfold, Es in HU. inversion HU; subst.
    destruct (ambient_keeps g w) as (As & _).
    destruct (Key.Space k); cbn; rewrite ?As, ?Es;
      repeat split; try reflexivity; intros; discriminate.
  - destruct (Update_playing_state M stages k g g1 w w1 Es HU)
      as [(H & _) | [(H & Ht & Hf) | (H & Ht)]]; rewrite H;
      repeat split; try reflexivity; try discriminate; intros; try assumption;
      discriminate.
  - rewrite (Update_stageClear M stages k g w Es) in HU. cbn zeta in HU.
    destruct (ambient_keeps g w) as (As & _).
    match type of HU with
    | (if ?c then _ else _) = _ => destruct c
    end.
    + match type of HU with
      | context [advanceStage stages ?x] =>
          destruct (advanceStage stages x) as [g3 |] eqn:E3; [| discriminate]
      end.
      inversion HU; subst.
      destruct (advanceStage_spec stages _ _ E3) as (_ & _ & [H | H]).
      * destruct H as (_ & H & _). rewrite H.
        repeat split; try reflexivity; intros; discriminate.
      * destruct H as (_ & H & _). rewrite H.
        repeat split; try reflexivity; intros; discriminate.
    + inversion HU; subst. cbn. rewrite As, Es.
      repeat split; try reflexivity; intros; discriminate.
  - rewrite (Update_explosion M stages k g w Es) in HU. inversion HU; subst.
    destruct (ambient_keeps g w) as (As & _).
    unfold updatePlayerExplosion.
    match goal with
    | |- context [if ?c then _ else _] => destruct c
    end; cbn; rewrite ?As, ?Es; repeat split; try reflexivity; intros; discriminate.
  - rewrite Update_unfold, Es in HU. unfold updateGameOver in HU.
    destruct (ambient_keeps g w) as (As & _).
    destruct (Key.R k).
    + destruct (NewGame stages (snd (ambient g w))) as [[fr w2] |]; [| discriminate].
      inversion HU; subst. cbn.
      repeat split; try reflexivity; intros; discriminate.
    + inversion HU; subst. cbn. rewrite As, Es.
      repeat split; try reflexivity; intros; discriminate.
Qed.

Lemma top_level_transitions_witness :
  match Update Sample.math Sample.stages Key.none Scenario.shot Sample.world with
  | Some (g1, _) => mayFollow (gameState Scenario.shot) (gameState g1) = true
  | None => False
  end.
Proof.
  destruct (Update Sample.math Sample.stages Key.none Scenario.shot Sample.world)
    as [[g1 w1] |] eqn:E.
  - exact (proj1 (top_level_transitions Sample.math Sample.stages Key.none
                    Scenario.shot g1 Sample.world w1 E)).
  - assert (H : option_map (fun _ => tt)
                  (Update Sample.math Sample.stages Key.none Scenario.shot
                     Sample.world) = Some tt) by (vm_compute; reflexivity).
    rewrite E in H. discriminate H.
Defined.

(** ** The three screens between games *)

Section Screens.

Variable M : Math.Lib.
Variable stages : list Stage.t.

Lemma explosion_frame (k : Key.t) (g : Game.t) (w : World) :
  gameState g = GameStatePlayerExplosion ->
  exists g1 w1,
    Update M stages k g w = Some (g1, w1)
    /\ playerExplosionTimer g1 = Go.add (playerExplosionTimer g) 1
    /\ gameState g1 = (if 60 <? Go.add (playerExplosionTimer g) 1
                       then GameStateGameOver else GameStatePlayerExplosion)
    /\ sameBoard g g1 /\ highScore g1 = highScore g
    /\ enemies g1 = enemies g /\ currentStage g1 = currentStage g.
Proof.
  intros Hs. rewrite (Update_explosion M stages k g w Hs).
  eexists. eexists. split; [reflexivity |].
  destruct (ambient_shape g w) as (ss & wa & E). rewrite E. cbn [fst].
  unfold updatePlayerExplosion, sameBoard. cbn.
  destruct (60 <? Go.add (playerExplosionTimer g) 1); cbn;
    rewrite ?Hs; repeat split; reflexivity.
Qed.

Lemma gameOver_frame (k : Key.t) (g : Game.t) (w : World) :
  gameState g = GameStateGameOver -> Key.R k = false ->
  exists g1 w1,
    Update M stages k g w = Some (g1, w1)
    /\ gameState g1 = GameStateGameOver
    /\ sameBoard g g1 /\ highScore g1 = highScore g
    /\ currentStage g1 = currentStage g
    /\ enemies g1 = filter onScreen (map (moveEnemyGameOver M) (enemies g)).
Proof.
  intros Hs Hk. rewrite (Update_gameOver M stages k g w Hs Hk).
  eexists. eexists. split; [reflexivity |].
  destruct (ambient_shape g w) as (ss & wa & E). rewrite E. cbn [fst].
  unfold cullEnemies, sameBoard. cbn. rewrite Hs. repeat split; reflexivity.
Qed.

(** A stage-clear frame that does not advance the stage. *)
Lemma stageClear_stays (k : Key.t) (g : Game.t) (w : World) :
  gameState g = GameStateStageClear ->
  let t := Go.add (stageClearTimer g) 1 in
  let released := stageClearKeyReleased g || ((60 <? t) && negb (Key.Space k)) in
  ((60 <? t) && released && Key.Space k) || (120 <? t) = false ->
  exists g1 w1,
    Update M stages k g w = Some (g1, w1)
    /\ gameState g1 = GameStateStageClear
    /\ stageClearTimer g1 = t /\ stageClearKeyReleased g1 = released
    /\ sameBoard g g1 /\ highScore g1 = highScore g
    /\ enemies g1 = enemies g /\ currentStage g1 = currentStage g.
Proof.
  intros Hs t released Hc.
  pose proof (Update_stageClear M stages k g w Hs) as HU. cbn zeta in HU.
  fold t in HU. fold released in HU. rewrite Hc in HU. rewrite HU.
  eexists. eexists. split; [reflexivity |].
  destruct (ambient_shape g w) as (ss & wa & E). rewrite E. cbn [fst].
  unfold sameBoard. cbn. rewrite Hs. repeat split; reflexivity.
Qed.

(** A stage-clear frame that advances the stage. *)
Lemma stageClear_leaves (k : Key.t) (g g1 : Game.t) (w w1 : World) :
  gameState g = GameStateStageClear ->
  let t := Go.add (stageClearTimer g) 1 in
  let released := stageClearKeyReleased g || ((60 <? t) && negb (Key.Space k)) in
  ((60 <? t) && released && Key.Space k) || (120 <? t) = true ->
  Update M stages k g w = Some (g1, w1) ->
  gameState g1 <> GameStateStageClear
  /\ currentStage g1 = Go.add (currentStage g) 1
  /\ score g1 = score g.
Proof.
  intros Hs t released Hc HU.
  pose proof (Update_stageClear M stages k g w Hs) as HE. cbn zeta in HE.
  fold t in HE. fold released in HE. rewrite Hc in HE. rewrite HE in HU.
  match type of HU with
  | context [advanceStage stages ?x] =>
      destruct (advanceStage stages x) as [g3 |] eqn:E3; [| discriminate]
  end.
  inversion HU; subst g3 w1. clear HU.
  destruct (advanceStage_spec stages _ _ E3) as (Hc1 & Hsc & Hd).
  destruct (ambient_shape g w) as (ss & wa & E). rewrite E in Hc1, Hsc.
  cbn in Hc1, Hsc.
  repeat split; try assumption.
  destruct Hd as [(_ & H & _) | (_ & H & _)]; rewrite H; discriminate.
Qed.

(** Two frames that run, taken apart. *)
Lemma frames_two (k1 k2 : Key.t) (g : Game.t) (w : World) :
  option_map (fun _ => tt) (frames M stages [k1; k2] g w) = Some tt ->
  exists g1 w1 g2 w2,
    Update M stages k1 g w = Some (g1, w1)
    /\ Update M stages k2 g1 w1 = Some (g2, w2).
Proof.
  cbn [frames].
  destruct (Update M stages k1 g w) as [[g1 w1] |]; [| discriminate].
  destruct (Update M stages k2 g1 w1) as [[g2 w2] |] eqn:E2; [| discriminate].
  intros _. exists g1, w1, g2, w2. split; [reflexivity | exact E2].
Qed.

End Screens.

(** The explosion screen lasts until its timer reads 61: each frame, under
    any keys, adds one to the timer and leaves score, high score, player,
    bullets, enemies, wave cursor and stage as they are; the frame that
    brings the timer to 61 ends in game over, and no earlier frame does. *)
Theorem explosion_lasts_61_frames (M : Math.Lib) (stages : list Stage.t)
    (ks : list Key.t) (g : Game.t) (w : World) :
  gameState g = GameStatePlayerExplosion ->
  0 <= playerExplosionTimer g <= 60 ->
  playerExplosionTimer g + Z.of_nat (List.length ks) <= 61 ->
  exists g1 w1,
    frames M stages ks g w = Some (g1, w1)
    /\ playerExplosionTimer g1
       = playerExplosionTimer g + Z.of_nat (List.length ks)
    /\ gameState g1 = (if playerExplosionTimer g1 =? 61
                       then GameStateGameOver else GameStatePlayerExplosion)
    /\ sameBoard g g1 /\ highScore g1 = highScore g
    /\ enemies g1 = enemies g /\ currentStage g1 = currentStage g.
Proof.
  revert g w. induction ks as [| k rest IH]; intros g w Hs Ht Hl.
  - exists g, w. cbn [frames List.length Z.of_nat]. rewrite Z.add_0_r.
    replace (playerExplosionTimer g =? 61) with false
      by (symmetry; apply Z.eqb_neq; lia).
    conjs; auto using sameBoard_refl.
  - cbn [List.length] in Hl. rewrite Nat2Z.inj_succ in Hl.
    destruct (explosion_frame M stages k g w Hs)
      as (g1 & w1 & HU & Ht1 & Hs1 & Hb1 & Hh1 & He1 & Hc1).
    rewrite add_small in Ht1 by golia.
    rewrite add_small in Hs1 by golia.
    cbn [frames]. rewrite HU.
    destruct (60 <? playerExplosionTimer g + 1) eqn:E60.
    + apply Z.ltb_lt in E60.
      destruct rest as [| k2 rest2];
        [| cbn [List.length] in Hl; rewrite Nat2Z.inj_succ in Hl; lia].
      exists g1, w1. cbn [frames List.length Z.of_nat].
      replace (playerExplosionTimer g1 =? 61) with true
        by (symmetry; apply Z.eqb_eq; lia).
      change (Z.pos (Pos.of_succ_nat 0)) with 1.
      conjs; auto.
    + apply Z.ltb_ge in E60.
      destruct (IH g1 w1 Hs1 ltac:(lia) ltac:(lia))
        as (g2 & w2 & HF & Ht2 & Hs2 & Hb2 & Hh2 & He2 & Hc2).
      exists g2, w2. cbn [List.length]. rewrite Nat2Z.inj_succ.
      conjs; try congruence; try lia.
      eapply sameBoard_trans; eassumption.
Qed.

Lemma explosion_lasts_61_frames_witness :
  exists g1 w1,
    frames Sample.math Sample.stages (repeat Key.none 61) Scenario.exploding
      Sample.world = Some (g1, w1)
    /\ playerExplosionTimer g1
       = playerExplosionTimer Scenario.exploding
         + Z.of_nat (List.length (repeat Key.none 61))
    /\ gameState g1 = (if playerExplosionTimer g1 =? 61
                       then GameStateGameOver else GameStatePlayerExplosion)
    /\ sameBoard Scenario.exploding g1
    /\ highScore g1 = highScore Scenario.exploding
    /\ enemies g1 = enemies Scenario.exploding
    /\ currentStage g1 = currentStage Scenario.exploding.
Proof.
  apply (explosion_lasts_61_frames Sample.math Sample.stages
           (repeat Key.none 61) Scenario.exploding Sample.world).
  - reflexivity.
  - cbn. lia.
  - cbn. lia.
Defined.

(** The stage-clear screen, entered with its timer at 0 and no release
    seen, holds for the first 61 frames whatever the keys do: every such
    run of frames ends on the same screen, with the timer at the number of
    frames and the stage, score and board unchanged. *)
Theorem stage_clear_holds_61_frames (M : Math.Lib) (stages : list Stage.t)
    (ks : list Key.t) (g : Game.t) (w : World) :
  gameState g = GameStateStageClear ->
  0 <= stageClearTimer g ->
  stageClearKeyReleased g = false ->
  stageClearTimer g + Z.of_nat (List.length ks) <= 61 ->
  exists g1 w1,
    frames M stages ks g w = Some (g1, w1)
    /\ gameState g1 = GameStateStageClear
    /\ stageClearTimer g1 = stageClearTimer g + Z.of_nat (List.length ks)
    /\ sameBoard g g1 /\ highScore g1 = highScore g
    /\ currentStage g1 = currentStage g.
Proof.
  revert g w. induction ks as [| k rest IH]; intros g w Hs Ht Hf Hl.
  - exists g, w. cbn [frames List.length Z.of_nat]. rewrite Z.add_0_r.
    conjs; auto using sameBoard_refl.
  - cbn [List.length] in Hl. rewrite Nat2Z.inj_succ in Hl.
    assert (Ea : Go.add (stageClearTimer g) 1 = stageClearTimer g + 1)
      by (apply add_small; golia).
    assert (Hc : ((60 <? Go.add (stageClearTimer g) 1)
                  && (stageClearKeyReleased g
                      || ((60 <? Go.add (stageClearTimer g) 1)
                          && negb (Key.Space k)))
                  && Key.Space k)
                 || (120 <? Go.add (stageClearTimer g) 1) = false).
    { rewrite Ea, Hf.
      replace (120 <? stageClearTimer g + 1) with false
        by (symmetry; apply Z.ltb_ge; lia).
      destruct (60 <? stageClearTimer g + 1), (Key.Space k); reflexivity. }
    destruct (stageClear_stays M stages k g w Hs Hc)
      as (g1 & w1 & HU & Hs1 & Ht1 & Hf1 & Hb1 & Hh1 & _ & Hc1).
    rewrite Ea in Ht1, Hf1. cbn [frames]. rewrite HU.
    destruct (60 <? stageClearTimer g + 1) eqn:E60.
    + apply Z.ltb_lt in E60.
      destruct rest as [| k2 rest2];
        [| cbn [List.length] in Hl; rewrite Nat2Z.inj_succ in Hl; lia].
      exists g1, w1. cbn [frames List.length Z.of_nat].
      change (Z.pos (Pos.of_succ_nat 0)) with 1.
      conjs; auto.
    + rewrite Hf in Hf1. cbn in Hf1.
      apply Z.ltb_ge in E60.
      destruct (IH g1 w1 Hs1 ltac:(lia) Hf1 ltac:(lia))
        as (g2 & w2 & HF & Hs2 & Ht2 & Hb2 & Hh2 & Hc2).
      exists g2, w2. cbn [List.length]. rewrite Nat2Z.inj_succ.
      conjs; try congruence; try lia.
      eapply sameBoard_trans; eassumption.
Qed.

Lemma stage_clear_holds_61_frames_witness :
  exists g1 w1,
    frames Sample.math Sample.stages (repeat Scenario.keySpace 61)
      Scenario.cleared Sample.world = Some (g1, w1)
    /\ gameState g1 = GameStateStageClear
    /\ stageClearTimer g1
       = stageClearTimer Scenario.cleared
         + Z.of_nat (List.length (repeat Scenario.keySpace 61))
    /\ sameBoard Scenario.cleared g1
    /\ highScore g1 = highScore Scenario.cleared
    /\ currentStage g1 = currentStage Scenario.cleared.
Proof.
  apply (stage_clear_holds_61_frames Sample.math Sample.stages
           (repeat Scenario.keySpace 61) Scenario.cleared Sample.world).
  - reflexivity.
  - cbn. lia.
  - reflexivity.
  - cbn. lia.
Defined.

(** The stage-clear screen never outlasts frame 120: a run of frames that
    all end on that screen is no longer than what is left of the 120. *)
Theorem stage_clear_ends_by_frame_121 (M : Math.Lib) (stages : list Stage.t)
    (ks : list Key.t) (g : Game.t) (w : World) :
  gameState g = GameStateStageClear ->
  0 <= stageClearTimer g <= 120 ->
  staysIn M stages GameStateStageClear ks g w ->
  stageClearTimer g + Z.of_nat (List.length ks) <= 120.
Proof.
  revert g w. induction ks as [| k rest IH]; intros g w Hs Ht Hst.
  - cbn [List.length Z.of_nat]. lia.
  - cbn [staysIn] in Hst.
    destruct (Update M stages k g w) as [[g1 w1] |] eqn:HU; [| contradiction].
    destruct Hst as (Hs1 & Hrest).
    assert (Ea : Go.add (stageClearTimer g) 1 = stageClearTimer g + 1)
      by (apply add_small; golia).
    destruct (((60 <? Go.add (stageClearTimer g) 1)
               && (stageClearKeyReleased g
                   || ((60 <? Go.add (stageClearTimer g) 1)
                       && negb (Key.Space k)))
               && Key.Space k)
              || (120 <? Go.add (stageClearTimer g) 1)) eqn:Hc.
    + destruct (stageClear_leaves M stages k g g1 w w1 Hs Hc HU) as (Hn & _).
      contradiction.
    + destruct (stageClear_stays M stages k g w Hs Hc)
        as (g1' & w1' & HU' & _ & Ht1 & _).
      rewrite HU in HU'. inversion HU'; subst g1' w1'. clear HU'.
      apply orb_false_iff in Hc. destruct Hc as (_ & H120).
      rewrite Ea in H120, Ht1. apply Z.ltb_ge in H120.
      cbn [List.length]. rewrite Nat2Z.inj_succ.
      specialize (IH g1 w1 Hs1 ltac:(lia) Hrest). lia.
Qed.

Lemma stage_clear_ends_by_frame_121_witness :
  stageClearTimer Scenario.cleared + Z.of_nat (List.length [Scenario.keySpace])
  <= 120.
Proof.
  apply (stage_clear_ends_by_frame_121 Sample.math Sample.stages
           [Scenario.keySpace] Scenario.cleared Sample.world).
  - reflexivity.
  - cbn. lia.
  - cbn [staysIn].
    assert (E : option_map (fun p => gameState (fst p))
                  (Update Sample.math Sample.stages Scenario.keySpace
                     Scenario.cleared Sample.world)
                = Some GameStateStageClear) by (vm_compute; reflexivity).
    destruct (Update Sample.math Sample.stages Scenario.keySpace
                Scenario.cleared Sample.world) as [[g1 w1] |];
      [| discriminate E].
    cbn in E. split; [congruence | exact I].
Defined.

(** A fire key held down since the stage was cleared does not skip the
    stage-clear screen: while the key stays down no release is recorded and
    the screen holds until frame 120. *)
Theorem held_fire_key_does_not_skip (M : Math.Lib) (stages : list Stage.t)
    (ks : list Key.t) (g : Game.t) (w : World) :
  gameState g = GameStateStageClear ->
  0 <= stageClearTimer g ->
  stageClearKeyReleased g = false ->
  Forall (fun k => Key.Space k = true) ks ->
  stageClearTimer g + Z.of_nat (List.length ks) <= 120 ->
  exists g1 w1,
    frames M stages ks g w = Some (g1, w1)
    /\ gameState g1 = GameStateStageClear
    /\ stageClearKeyReleased g1 = false
    /\ stageClearTimer g1 = stageClearTimer g + Z.of_nat (List.length ks)
    /\ currentStage g1 = currentStage g.
Proof.
  revert g w. induction ks as [| k rest IH]; intros g w Hs Ht Hf Hk Hl.
  - exists g, w. cbn [frames List.length Z.of_nat]. rewrite Z.add_0_r.
    conjs; auto.
  - cbn [List.length] in Hl. rewrite Nat2Z.inj_succ in Hl.
    inversion Hk as [| k' rest' Hk1 Hk2]; subst k' rest'.
    assert (Ea : Go.add (stageClearTimer g) 1 = stageClearTimer g + 1)
      by (apply add_small; golia).
    assert (Hc : ((60 <? Go.add (stageClearTimer g) 1)
                  && (stageClearKeyReleased g
                      || ((60 <? Go.add (stageClearTimer g) 1)
                          && negb (Key.Space k)))
                  && Key.Space k)
                 || (120 <? Go.add (stageClearTimer g) 1) = false).
    { rewrite Ea, Hf, Hk1.
      replace (120 <? stageClearTimer g + 1) with false
        by (symmetry; apply Z.ltb_ge; lia).
      destruct (60 <? stageClearTimer g + 1); reflexivity. }
    destruct (stageClear_stays M stages k g w Hs Hc)
      as (g1 & w1 & HU & Hs1 & Ht1 & Hf1 & _ & _ & _ & Hc1).
    rewrite Ea in Ht1, Hf1. rewrite Hf, Hk1 in Hf1.
    rewrite andb_false_r in Hf1. cbn in Hf1.
    cbn [frames]. rewrite HU.
    destruct (IH g1 w1 Hs1 ltac:(lia) Hf1 Hk2 ltac:(lia))
      as (g2 & w2 & HF & Hs2 & Hf2 & Ht2 & Hc2).
    exists g2, w2. cbn [List.length]. rewrite Nat2Z.inj_succ.
    conjs; try congruence; lia.
Qed.

Lemma held_fire_key_does_not_skip_witness :
  exists g1 w1,
    frames Sample.math Sample.stages (repeat Scenario.keySpace 120)
      Scenario.cleared Sample.world = Some (g1, w1)
    /\ gameState g1 = GameStateStageClear
    /\ stageClearKeyReleased g1 = false
    /\ stageClearTimer g1
       = stageClearTimer Scenario.cleared
         + Z.of_nat (List.length (repeat Scenario.keySpace 120))
    /\ currentStage g1 = currentStage Scenario.cleared.
Proof.
  apply (held_fire_key_does_not_skip Sample.math Sample.stages
           (repeat Scenario.keySpace 120) Scenario.cleared Sample.world).
  - reflexivity.
  - cbn. lia.
  - reflexivity.
  - apply Forall_forall. intros k Hk. apply repeat_spec in Hk. subst k.
    reflexivity.
  - cbn. lia.
Defined.

(** After frame 60 of the stage-clear screen, a frame with the fire key up
    followed by a frame with it down leaves the screen at once, with the
    stage index advanced by one and the score kept; the frame with the key
    up still ends on the screen. *)
Theorem release_then_press_skips (M : Math.Lib) (stages : list Stage.t)
    (kUp kDown : Key.t) (g g1 g2 : Game.t) (w w1 w2 : World) :
  gameState g = GameStateStageClear ->
  60 <= stageClearTimer g < 120 ->
  Key.Space kUp = false -> Key.Space kDown = true ->
  Update M stages kUp g w = Some (g1, w1) ->
  Update M stages kDown g1 w1 = Some (g2, w2) ->
  gameState g1 = GameStateStageClear
  /\ gameState g2 <> GameStateStageClear
  /\ currentStage g2 = Go.add (currentStage g) 1
  /\ score g2 = score g.
Proof.
  intros Hs Ht Hup Hdown HU1 HU2.
  assert (Ea : Go.add (stageClearTimer g) 1 = stageClearTimer g + 1)
    by (apply add_small; golia).
  assert (Hc : ((60 <? Go.add (stageClearTimer g) 1)
                && (stageClearKeyReleased g
                    || ((60 <? Go.add (stageClearTimer g) 1)
                        && negb (Key.Space kUp)))
                && Key.Space kUp)
               || (120 <? Go.add (stageClearTimer g) 1) = false).
  { rewrite Ea, Hup.
    replace (120 <? stageClearTimer g + 1) with false
      by (symmetry; apply Z.ltb_ge; lia).
    rewrite !andb_false_r. reflexivity. }
  destruct (stageClear_stays M stages kUp g w Hs Hc)
    as (g1' & w1' & HU' & Hs1 & Ht1 & Hf1 & Hb1 & _ & _ & Hc1).
  rewrite HU1 in HU'. inversion HU'; subst g1' w1'. clear HU'.
  rewrite Ea in Ht1, Hf1. rewrite Hup in Hf1.
  replace (60 <? stageClearTimer g + 1) with true in Hf1
    by (symmetry; apply Z.ltb_lt; lia).
  rewrite orb_true_r in Hf1.
  assert (Eb : Go.add (stageClearTimer g1) 1 = stageClearTimer g1 + 1)
    by (apply add_small; golia).
  assert (Hc2 : ((60 <? Go.add (stageClearTimer g1) 1)
                 && (stageClearKeyReleased g1
                     || ((60 <? Go.add (stageClearTimer g1) 1)
                         && negb (Key.Space kDown)))
                 && Key.Space kDown)
                || (120 <? Go.add (stageClearTimer g1) 1) = true).
  { rewrite Eb, Hf1, Hdown.
    replace (60 <? stageClearTimer g1 + 1) with true
      by (symmetry; apply Z.ltb_lt; lia).
    reflexivity. }
  destruct (stageClear_leaves M stages kDown g1 g2 w1 w2 Hs1 Hc2 HU2)
    as (Hn & Hc3 & Hsc).
  destruct Hb1 as (Hsc1 & _).
  conjs; try assumption; congruence.
Qed.

Lemma release_then_press_skips_witness :
  exists g1 w1 g2 w2,
    Update Sample.math Sample.stages Key.none
      (set_stageClearTimer 60 Scenario.cleared) Sample.world = Some (g1, w1)
    /\ Update Sample.math Sample.stages Scenario.keySpace g1 w1 = Some (g2, w2)
    /\ gameState g1 = GameStateStageClear
    /\ gameState g2 <> GameStateStageClear
    /\ currentStage g2
       = Go.add (currentStage (set_stageClearTimer 60 Scenario.cleared)) 1
    /\ score g2 = score (set_stageClearTimer 60 Scenario.cleared).
Proof.
  destruct (frames_two Sample.math Sample.stages Key.none Scenario.keySpace
              (set_stageClearTimer 60 Scenario.cleared) Sample.world)
    as (g1 & w1 & g2 & w2 & E1 & E2); [vm_compute; reflexivity |].
  exists g1, w1, g2, w2.
  split; [exact E1 |]. split; [exact E2 |].
  apply (release_then_press_skips Sample.math Sample.stages Key.none
           Scenario.keySpace (set_stageClearTimer 60 Scenario.cleared)
           g1 g2 Sample.world w1 w2).
  - reflexivity.
  - cbn. lia.
  - reflexivity.
  - reflexivity.
  - exact E1.
  - exact E2.
Defined.

(** Without the R key the game-over screen is never left: any run of
    frames ends on it with score, high score, stage, player and bullets
    unchanged, and with no more enemies than before. *)
Theorem game_over_holds_without_R (M : Math.Lib) (stages : list Stage.t)
    (ks : list Key.t) (g : Game.t) (w : World) :
  gameState g = GameStateGameOver ->
  Forall (fun k => Key.R k = false) ks ->
  exists g1 w1,
    frames M stages ks g w = Some (g1, w1)
    /\ gameState g1 = GameStateGameOver
    /\ sameBoard g g1 /\ highScore g1 = highScore g
    /\ currentStage g1 = currentStage g
    /\ (List.length (enemies g1) <= List.length (enemies g))%nat.
Proof.
  revert g w. induction ks as [| k rest IH]; intros g w Hs Hk.
  - exists g, w. cbn [frames]. conjs; auto using sameBoard_refl.
  - inversion Hk as [| k' rest' Hk1 Hk2]; subst k' rest'.
    destruct (gameOver_frame M stages k g w Hs Hk1)
      as (g1 & w1 & HU & Hs1 & Hb1 & Hh1 & Hc1 & He1).
    cbn [frames]. rewrite HU.
    destruct (IH g1 w1 Hs1 Hk2) as (g2 & w2 & HF & Hs2 & Hb2 & Hh2 & Hc2 & He2).
    exists g2, w2. conjs; try congruence.
    + eapply sameBoard_trans; eassumption.
    + etransitivity; [exact He2 |]. rewrite He1.
      etransitivity; [apply filter_length_le |]. rewrite length_map.
      apply Nat.le_refl.
Qed.

Lemma game_over_holds_without_R_witness :
  exists g1 w1,
    frames Sample.math Sample.stages (repeat Scenario.keySpace 5)
      Scenario.over Sample.world = Some (g1, w1)
    /\ gameState g1 = GameStateGameOver
    /\ sameBoard Scenario.over g1
    /\ highScore g1 = highScore Scenario.over
    /\ currentStage g1 = currentStage Scenario.over
    /\ (List.length (enemies g1) <= List.length (enemies Scenario.over))%nat.
Proof.
  apply (game_over_holds_without_R Sample.math Sample.stages
           (repeat Scenario.keySpace 5) Scenario.over Sample.world).
  - reflexivity.
  - apply Forall_forall. intros k Hk. apply repeat_spec in Hk. subst k.
    reflexivity.
Defined.
(** ** The player, the high score and the stage *)

Lemma among_In (x : float) (l : list float) : among x l = true <-> In x l.
Proof.
  unfold among. rewrite existsb_exists. split.
  - intros (y & Hy & E). apply Leibniz.eqb_spec in E. subst y. exact Hy.
  - intros H. exists x. split; [exact H | apply Leibniz.eqb_spec; reflexivity].
Qed.

Lemma among_enum (f : float -> float) (l l1 : list float) :
  forallb (fun x => among (f x) l1) l = true ->
  forall x, among x l = true -> among (f x) l1 = true.
Proof.
  intros H x Hx. apply among_In in Hx.
  rewrite forallb_forall in H. apply H. exact Hx.
Qed.

Lemma columns_bounds (x : float) :
  among x columns = true -> Go.fle 20 x = true /\ Go.fle x 600 = true.
Proof.
  intros Hx. apply among_In in Hx.
  assert (H : forallb (fun x => Go.fle 20 x && Go.fle x 600) columns = true)
    by (vm_compute; reflexivity).
  rewrite forallb_forall in H. apply andb_true_iff. apply H. exact Hx.
Qed.

Lemma rows_bounds (y : float) :
  among y rows = true -> Go.fle 40 y = true /\ Go.fle y 460 = true.
Proof.
  intros Hy. apply among_In in Hy.
  assert (H : forallb (fun y => Go.fle 40 y && Go.fle y 460) rows = true)
    by (vm_compute; reflexivity).
  rewrite forallb_forall in H. apply andb_true_iff. apply H. exact Hy.
Qed.

(** [movePlayer] reads the four arrow keys and the position only. *)
Lemma movePlayer_arrows (k : Key.t) (g : Game.t) :
  playerX (movePlayer k g)
    = playerX (movePlayer (Key.mk (Key.Left k) (Key.Right k) (Key.Up k)
                             (Key.Down k) false false)
                 (playerAt (playerX g) 0))
  /\ playerY (movePlayer k g)
     = playerY (movePlayer (Key.mk (Key.Left k) (Key.Right k) (Key.Up k)
                              (Key.Down k) false false)
                  (playerAt 0 (playerY g))).
Proof.
  unfold movePlayer.
  destruct (Key.Left k), (Key.Right k), (Key.Up k), (Key.Down k);
    cbn; split; reflexivity.
Qed.

Lemma arrows_all (k : Key.t) :
  In (Key.mk (Key.Left k) (Key.Right k) (Key.Up k) (Key.Down k) false false)
     arrows.
Proof.
  destruct (Key.Left k), (Key.Right k), (Key.Up k), (Key.Down k);
    cbn; auto 20.
Qed.

(** From a point of the grid the arrow keys lead to a point of the grid. *)
Lemma movePlayer_onPlayfield (k : Key.t) (g : Game.t) :
  onPlayfield g = true -> onPlayfield (movePlayer k g) = true.
Proof.
  unfold onPlayfield. intros H. apply andb_true_iff in H. destruct H as (Hx & Hy).
  destruct (movePlayer_arrows k g) as (Ex & Ey). rewrite Ex, Ey.
  pose proof (arrows_all k) as Hk.
  set (a := Key.mk (Key.Left k) (Key.Right k) (Key.Up k) (Key.Down k) false false)
    in *.
  clearbody a.
  assert (HX : forallb (fun a =>
                 forallb (fun x => among (playerX (movePlayer a (playerAt x 0)))
                                     columns) columns) arrows = true)
    by (vm_compute; reflexivity).
  assert (HY : forallb (fun a =>
                 forallb (fun y => among (playerY (movePlayer a (playerAt 0 y)))
                                     rows) rows) arrows = true)
    by (vm_compute; reflexivity).
  rewrite forallb_forall in HX, HY.
  apply andb_true_iff. split.
  - apply (among_enum (fun x => playerX (movePlayer a (playerAt x 0)))
             columns columns (HX a Hk)). exact Hx.
  - apply (among_enum (fun y => playerY (movePlayer a (playerAt 0 y)))
             rows rows (HY a Hk)). exact Hy.
Qed.

Section Bookkeeping.

Variable M : Math.Lib.
Variable stages : list Stage.t.

Lemma advanceStage_keeps (g g1 : Game.t) :
  advanceStage stages g = Some g1 ->
  playerX g1 = playerX g /\ playerY g1 = playerY g /\ stars g1 = stars g
  /\ particles g1 = particles g /\ shootCooldown g1 = shootCooldown g.
Proof.
  unfold advanceStage. cbn [currentStage set_currentStage]. intros H.
  destruct (Go.len stages <=? Go.add (currentStage g) 1).
  - inversion H; subst. unfold recordHighScore.
    split_ifs; cbn; repeat split; reflexivity.
  - destruct (Go.index stages (Go.add (currentStage g) 1)); [| discriminate].
    inversion H; subst. cbn. repeat split; reflexivity.
Qed.

Lemma NewGame_start (w : World) (g : Game.t) (w1 : World) :
  NewGame stages w = Some (g, w1) ->
  playerX g = 320%float /\ playerY g = 408%float
  /\ stars g = fst (newStars 60 w)
  /\ exists st, Go.index stages 0 = Some st /\ waves g = Stage.Waves st.
Proof.
  unfold NewGame. destruct (newStars 60 w) as [ss w2].
  destruct (Go.index stages 0) as [st |]; [| discriminate].
  intros H. inversion H; subst. cbn. repeat split; try reflexivity.
  exists st. split; reflexivity.
Qed.

(** The two halves of a playing frame, named. *)
Lemma Update_playing_halves (k : Key.t) (g g1 : Game.t) (w w1 : World) :
  gameState g = GameStatePlaying ->
  Update M stages k g w = Some (g1, w1) ->
  exists gm wm,
    advanceEnemies M k (fst (ambient g w)) (snd (ambient g w)) = Some (gm, wm)
    /\ resolveCombat M k gm wm = (g1, w1).
Proof.
  intros Hs HU. rewrite Update_playing in HU by exact Hs.
  unfold updatePlaying in HU.
  destruct (advanceEnemies M k (fst (ambient g w)) (snd (ambient g w)))
    as [[gm wm] |]; [| discriminate].
  exists gm, wm. split; [reflexivity |]. inversion HU. reflexivity.
Qed.

(** Where a frame leaves the player. *)
Lemma Update_position (k : Key.t) (g g1 : Game.t) (w w1 : World) :
  Update M stages k g w = Some (g1, w1) ->
  (playerX g1 = playerX g /\ playerY g1 = playerY g)
  \/ (gameState g = GameStatePlaying
      /\ playerX g1 = playerX (movePlayer k g)
      /\ playerY g1 = playerY (movePlayer k g))
  \/ (gameState g = GameStateGameOver /\ Key.R k = true
      /\ playerX g1 = 320%float /\ playerY g1 = 408%float).
Proof.
  intros HU.
  destruct (ambient_keeps g w)
    as (As & _ & _ & _ & _ & _ & _ & _ & _ & _ & _ & _ & _ & _ & Ax & Ay).
  destruct (gameState g) eqn:Es.
  - rewrite Update_unfold, Es in HU. inversion HU; subst. left.
    destruct (Key.Space k); cbn; auto.
  - right. left. split; [reflexivity |].
    destruct (Update_playing_halves k g g1 w w1 Es HU) as (gm & wm & Ea & Er).
    destruct (advanceEnemies_frame M k _ _ _ _ Ea)
      as (gs & ws & _ & _ & _ & _ & _ & _ & _ & _ & _ & _ & _ & _ & _ & Hx & Hy).
    pose proof (resolveCombat_frame M k gm wm) as Hr. rewrite Er in Hr.
    cbn [fst] in Hr. destruct Hr as (_ & _ & _ & _ & Rx & Ry & _).
    destruct (movePlayer_position k (fst (ambient g w)) g Ax Ay) as (Px & Py).
    split; congruence.
  - left. rewrite (Update_stageClear M stages k g w Es) in HU. cbn zeta in HU.
    match type of HU with
    | (if ?c then _ else _) = _ => destruct c
    end.
    + match type of HU with
      | context [advanceStage stages ?x] =>
          destruct (advanceStage stages x) as [g3 |] eqn:E3; [| discriminate]
      end.
      inversion HU; subst.
      destruct (advanceStage_keeps _ _ E3) as (Hx & Hy & _).
      cbn in Hx, Hy. split; congruence.
    + inversion HU; subst. cbn. auto.
  - left. destruct (explosion_frame M stages k g w Es)
      as (g2 & w2 & HU2 & _ & _ & Hb & _).
    rewrite HU in HU2. inversion HU2; subst.
    destruct Hb as (_ & Hx & Hy & _). auto.
  - destruct (Key.R k) eqn:Ek.
    + right. right. rewrite (restart_is_NewGame M stages k g w Es Ek) in HU.
      destruct (NewGame stages (snd (ambient g w))) as [[fr w2] |] eqn:En;
        [| discriminate].
      inversion HU; subst.
      destruct (NewGame_start _ _ _ En) as (Hx & Hy & _).
      cbn. auto.
    + left. destruct (gameOver_frame M stages k g w Es Ek)
        as (g2 & w2 & HU2 & _ & Hb & _).
      rewrite HU in HU2. inversion HU2; subst.
      destruct Hb as (_ & Hx & Hy & _). auto.
Qed.

Lemma Reachable_onPlayfield (g : Game.t) :
  Reachable M stages g -> onPlayfield g = true.
Proof.
  induction 1 as [w g w1 Hn | k g w g1 w1 Hr IH HU].
  - destruct (NewGame_start _ _ _ Hn) as (Hx & Hy & _).
    unfold onPlayfield. rewrite Hx, Hy. vm_compute. reflexivity.
  - destruct (Update_position k g g1 w w1 HU)
      as [(Hx & Hy) | [(_ & Hx & Hy) | (_ & _ & Hx & Hy)]].
    + unfold onPlayfield in *. rewrite Hx, Hy. exact IH.
    + pose proof (movePlayer_onPlayfield k g IH) as Hm.
      unfold onPlayfield in *. rewrite Hx, Hy. exact Hm.
    + unfold onPlayfield. rewrite Hx, Hy. vm_compute. reflexivity.
Qed.

(** What a frame does to the high score, the R key of the game-over
    screen apart. *)
Lemma Update_highScore (k : Key.t) (g g1 : Game.t) (w w1 : World) :
  (gameState g = GameStateGameOver -> Key.R k = false) ->
  Update M stages k g w = Some (g1, w1) ->
  highScore g1 = highScore g
  \/ (highScore g < score g1 /\ highScore g1 = score g1).
Proof.
  intros HR HU.
  destruct (ambient_keeps g w)
    as (As & _ & _ & _ & _ & _ & _ & _ & _ & _ & Asc & Ah & _).
  destruct (gameState g) eqn:Es.
  - rewrite Update_unfold, Es in HU. inversion HU; subst. left.
    destruct (Key.Space k); cbn; auto.
  - destruct (Update_playing_halves k g g1 w w1 Es HU) as (gm & wm & Ea & Er).
    destruct (advanceEnemies_frame M k _ _ _ _ Ea)
      as (gs & ws & _ & _ & _ & _ & _ & _ & _ & Hh & _).
    destruct (resolveCombat_unfold M k gm wm)
      as (h1 & v1 & h2 & v2 & h3 & v3 & E1 & E2 & E3 & E).
    rewrite Er in E.
    pose proof (playerFire_keeps M k (checkStageClear gm) wm) as F1.
    rewrite E1 in F1. cbn [fst] in F1.
    destruct F1 as (_ & _ & _ & _ & H1 & _).
    pose proof (updateBullets_keeps M h1 v1) as F2.
    rewrite E2 in F2. cbn [fst] in F2.
    destruct F2 as (_ & _ & _ & _ & H2 & _).
    pose proof (updateEnemyBullets_highScore M h2 v2) as H3.
    rewrite E3 in H3. cbn [fst] in H3.
    assert (H0 : highScore (checkStageClear gm) = highScore gm).
    { destruct (checkStageClear_shape gm) as (st & t & f & Ec). rewrite Ec.
      reflexivity. }
    assert (Hh3 : highScore h3 = highScore g) by congruence.
    pose proof (collidePlayer_keeps M h3 v3) as F4.
    pose proof (collidePlayer_state M h3 v3) as G4.
    rewrite <- E in F4, G4. cbn [fst] in F4, G4.
    destruct F4 as (_ & _ & _ & _ & _ & _ & Hsc).
    destruct G4 as (_ & _ & Hhs).
    rewrite Hhs. destruct (existsb (playerTouches h3) (enemies h3)).
    + unfold recordHighScore. destruct (highScore h3 <? score h3) eqn:El.
      * apply Z.ltb_lt in El. right. cbn. rewrite Hsc. split; [lia | reflexivity].
      * left. exact Hh3.
    + left. exact Hh3.
  - rewrite (Update_stageClear M stages k g w Es) in HU. cbn zeta in HU.
    match type of HU with
    | (if ?c then _ else _) = _ => destruct c
    end.
    + match type of HU with
      | context [advanceStage stages ?x] =>
          destruct (advanceStage stages x) as [g3 |] eqn:E3; [| discriminate]
      end.
      inversion HU; subst.
      destruct (advanceStage_spec stages _ _ E3) as (_ & Hsc & Hd).
      cbn in Hsc. destruct Hd as [(_ & _ & Hh & _) | (_ & _ & Hh & _)].
      * cbn in Hh. rewrite Hh, Hsc, Ah, Asc.
        destruct (Z.max_spec (highScore g) (score g)) as [(Hlt & Hm) | (Hge & Hm)];
          rewrite Hm; [right; split; [exact Hlt | reflexivity] | left; reflexivity].
      * left. cbn in Hh. congruence.
    + inversion HU; subst. left. cbn. exact Ah.
  - left. destruct (explosion_frame M stages k g w Es)
      as (g2 & w2 & HU2 & _ & _ & _ & Hh & _).
    rewrite HU in HU2. inversion HU2; subst. exact Hh.
  - left. destruct (gameOver_frame M stages k g w Es (HR eq_refl))
      as (g2 & w2 & HU2 & _ & _ & Hh & _).
    rewrite HU in HU2. inversion HU2; subst. exact Hh.
Qed.

(** The wave list in use follows the stage index through a frame. *)
Lemma Update_stageInUse (k : Key.t) (g g1 : Game.t) (w w1 : World) :
  stageInUse stages g -> Update M stages k g w = Some (g1, w1) ->
  stageInUse stages g1.
Proof.
  intros HI HU.
  destruct (ambient_keeps g w)
    as (As & _ & _ & _ & _ & _ & Aw & _ & _ & _ & _ & _ & Ac & _).
  assert (Hsame : waves g1 = waves g -> currentStage g1 = currentStage g ->
                  stageInUse stages g1).
  { intros Ew Ec. unfold stageInUse in *. rewrite Ew, Ec. exact HI. }
  destruct (gameState g) eqn:Es.
  - rewrite Update_unfold, Es in HU. inversion HU; subst.
    apply Hsame; destruct (Key.Space k); cbn; auto.
  - destruct (Update_playing_halves k g g1 w w1 Es HU) as (gm & wm & Ea & Er).
    destruct (advanceEnemies_frame M k _ _ _ _ Ea)
      as (gs & ws & _ & _ & _ & Hw & Hc & _).
    pose proof (resolveCombat_frame M k gm wm) as Hr. rewrite Er in Hr.
    cbn [fst] in Hr. destruct Hr as (_ & _ & Rw & Rc & _).
    apply Hsame; congruence.
  - rewrite (Update_stageClear M stages k g w Es) in HU. cbn zeta in HU.
    match type of HU with
    | (if ?c then _ else _) = _ => destruct c
    end.
    + match type of HU with
      | context [advanceStage stages ?x] =>
          destruct (advanceStage stages x) as [g3 |] eqn:E3; [| discriminate]
      end.
      inversion HU; subst.
      destruct (advanceStage_spec stages _ _ E3) as (_ & _ & Hd).
      destruct Hd as [(Hge & _) | (_ & _ & _ & Hst & _)].
      * intros Hlt. lia.
      * intros _. exact Hst.
    + inversion HU; subst. apply Hsame; cbn; auto.
  - destruct (explosion_frame M stages k g w Es)
      as (g2 & w2 & HU2 & _ & _ & Hb & _ & _ & Hc).
    rewrite HU in HU2. inversion HU2; subst.
    destruct Hb as (_ & _ & _ & _ & _ & Hw & _). apply Hsame; auto.
  - destruct (Key.R k) eqn:Ek.
    + rewrite (restart_is_NewGame M stages k g w Es Ek) in HU.
      destruct (NewGame stages (snd (ambient g w))) as [[fr w2] |] eqn:En;
        [| discriminate].
      inversion HU; subst.
      destruct (NewGame_start _ _ _ En) as (_ & _ & _ & st & Hi & Hw).
      destruct (NewGame_fields stages _ _ _ En)
        as (_ & _ & _ & _ & _ & _ & Hc & _).
      intros _. exists st. cbn. rewrite Hc. auto.
    + destruct (gameOver_frame M stages k g w Es Ek)
        as (g2 & w2 & HU2 & _ & Hb & _ & Hc & _).
      rewrite HU in HU2. inversion HU2; subst.
      destruct Hb as (_ & _ & _ & _ & _ & Hw & _). apply Hsame; auto.
Qed.

Lemma frames_Reachable (ks : list Key.t) (g g1 : Game.t) (w w1 : World) :
  Reachable M stages g -> frames M stages ks g w = Some (g1, w1) ->
  Reachable M stages g1.
Proof.
  revert g w. induction ks as [| k rest IH]; intros g w Hr HF.
  - cbn in HF. inversion HF; subst. exact Hr.
  - cbn [frames] in HF.
    destruct (Update M stages k g w) as [[g2 w2] |] eqn:HU; [| discriminate].
    apply (IH g2 w2); [| exact HF].
    apply (reach_Update M stages k g w g2 w2 Hr HU).
Qed.

Lemma session_Reachable (ks : list Key.t) (w : World) (g1 : Game.t)
    (w1 : World) :
  match NewGame stages w with
  | Some (g0, w0) => frames M stages ks g0 w0
  | None => None
  end = Some (g1, w1) ->
  Reachable M stages g1.
Proof.
  destruct (NewGame stages w) as [[g0 w0] |] eqn:En; [| discriminate].
  apply frames_Reachable. apply (reach_NewGame M stages w g0 w0 En).
Qed.

End Bookkeeping.

Lemma session_runs :
  option_map (fun p => gameState (fst p)) Scenario.session
  = Some GameStatePlaying.
Proof. vm_compute. reflexivity. Qed.

(** In every session reachable from [NewGame] the player stands on the
    4-pixel grid of the playfield, x among 20, 24, ..., 600 and y among 40,
    44, ..., 460; so 20 <= x <= 600 and 40 <= y <= 460, whatever keys were
    held. *)
Theorem player_stays_on_playfield (M : Math.Lib) (stages : list Stage.t)
    (g : Game.t) :
  Reachable M stages g ->
  among (playerX g) columns = true /\ among (playerY g) rows = true
  /\ Go.fle 20 (playerX g) = true /\ Go.fle (playerX g) 600 = true
  /\ Go.fle 40 (playerY g) = true /\ Go.fle (playerY g) 460 = true.
Proof.
  intros Hr. pose proof (Reachable_onPlayfield M stages g Hr) as H.
  unfold onPlayfield in H. apply andb_true_iff in H. destruct H as (Hx & Hy).
  destruct (columns_bounds _ Hx) as (X1 & X2).
  destruct (rows_bounds _ Hy) as (Y1 & Y2).
  repeat split; assumption.
Qed.

Lemma player_stays_on_playfield_witness :
  match Scenario.session with
  | Some (g, _) =>
      among (playerX g) columns = true /\ among (playerY g) rows = true
      /\ Go.fle 20 (playerX g) = true /\ Go.fle (playerX g) 600 = true
      /\ Go.fle 40 (playerY g) = true /\ Go.fle (playerY g) 460 = true
  | None => False
  end.
Proof.
  pose proof session_runs as Hs.
  destruct Scenario.session as [[g w] |] eqn:E; [| discriminate Hs].
  apply (player_stays_on_playfield Sample.math Sample.stages g).
  apply (session_Reachable Sample.math Sample.stages
           (repeat Scenario.keyLeftFire 45) Sample.world g w).
  exact E.
Defined.

(** A frame never lowers the high score, the restart of the game-over
    screen apart: it leaves it, or raises it to the score of the end of the
    frame. *)
Theorem high_score_only_rises (M : Math.Lib) (stages : list Stage.t)
    (k : Key.t) (g g1 : Game.t) (w w1 : World) :
  (gameState g = GameStateGameOver -> Key.R k = false) ->
  Update M stages k g w = Some (g1, w1) ->
  highScore g <= highScore g1
  /\ (highScore g1 = highScore g \/ highScore g1 = score g1).
Proof.
  intros HR HU.
  destruct (Update_highScore M stages k g g1 w w1 HR HU) as [H | (Hlt & H)].
  - split; [lia | left; exact H].
  - split; [lia | right; exact H].
Qed.

Lemma high_score_only_rises_witness :
  match Update Sample.math Sample.stages Key.none Scenario.rammed
          Sample.world with
  | Some (g1, _) =>
      highScore Scenario.rammed <= highScore g1
      /\ (highScore g1 = highScore Scenario.rammed \/ highScore g1 = score g1)
  | None => False
  end.
Proof.
  destruct (Update Sample.math Sample.stages Key.none Scenario.rammed
              Sample.world) as [[g1 w1] |] eqn:E.
  - apply (high_score_only_rises Sample.math Sample.stages Key.none
             Scenario.rammed g1 Sample.world w1).
    + intros H. reflexivity.
    + exact E.
  - assert (H : option_map (fun _ => tt)
                  (Update Sample.math Sample.stages Key.none Scenario.rammed
                     Sample.world) = Some tt) by (vm_compute; reflexivity).
    rewrite E in H. discriminate H.
Defined.

(** In every session reachable from [NewGame] whose stage index points
    into the stage list, the wave list in use is the one of that stage. *)
Theorem waves_belong_to_stage (M : Math.Lib) (stages : list Stage.t)
    (g : Game.t) :
  Reachable M stages g ->
  currentStage g < Go.len stages ->
  exists st, Go.index stages (currentStage g) = Some st
             /\ waves g = Stage.Waves st.
Proof.
  induction 1 as [w g w1 Hn | k g w g1 w1 Hr IH HU].
  - destruct (NewGame_start stages _ _ _ Hn) as (_ & _ & _ & st & Hi & Hw).
    destruct (NewGame_fields stages _ _ _ Hn) as (_ & _ & _ & _ & _ & _ & Hc & _).
    intros _. exists st. rewrite Hc. auto.
  - exact (Update_stageInUse M stages k g g1 w w1 IH HU).
Qed.

Lemma waves_belong_to_stage_witness :
  match Scenario.session with
  | Some (g, _) =>
      currentStage g < Go.len Sample.stages
      /\ exists st, Go.index Sample.stages (currentStage g) = Some st
                    /\ waves g = Stage.Waves st
  | None => False
  end.
Proof.
  pose proof session_runs as Hs.
  assert (Hc : option_map (fun p => currentStage (fst p)) Scenario.session
               = Some 0) by (vm_compute; reflexivity).
  destruct Scenario.session as [[g w] |] eqn:E; [| discriminate Hs].
  cbn in Hc. inversion Hc as [Hc0].
  assert (Hlt : currentStage g < Go.len Sample.stages)
    by (rewrite Hc0; reflexivity).
  split; [exact Hlt |].
  apply (waves_belong_to_stage Sample.math Sample.stages g); [| exact Hlt].
  apply (session_Reachable Sample.math Sample.stages
           (repeat Scenario.keyLeftFire 45) Sample.world g w).
  exact E.
Defined.
(** ** The moving collections, the sound log and the score *)

Lemma quiet_refl (w : World) : quiet w w.
Proof. unfold quiet. auto. Qed.

Lemma quiet_trans (w w1 w2 : World) : quiet w w1 -> quiet w1 w2 -> quiet w w2.
Proof.
  unfold quiet. intros (A & B & C) (A1 & B1 & C1).
  repeat split; try congruence. lia.
Qed.

Lemma quiet_next (w : World) : quiet w (Rand.next w).
Proof. unfold quiet, Rand.next. cbn. auto. Qed.

Lemma forEachW_quiet {A B : Type} (f : A -> World -> B * World) :
  (forall a w, quiet w (snd (f a w))) ->
  forall s w, quiet w (snd (forEachW f s w)).
Proof.
  intros Hf. induction s as [| a rest IH]; intros w.
  - apply quiet_refl.
  - cbn [forEachW]. pose proof (Hf a w) as H1.
    destruct (f a w) as [b w1]. pose proof (IH w1) as H2.
    destruct (forEachW f rest w1) as [bs w2]. cbn [snd] in *.
    eapply quiet_trans; eassumption.
Qed.

Lemma forEachW_length {A B : Type} (f : A -> World -> B * World)
    (s : list A) (w : World) :
  List.length (fst (forEachW f s w)) = List.length s.
Proof.
  revert w. induction s as [| a rest IH]; intros w; [reflexivity |].
  cbn [forEachW]. destruct (f a w) as [b w1]. specialize (IH w1).
  destruct (forEachW f rest w1) as [bs w2]. cbn in *. congruence.
Qed.

Lemma strike_onScreen (b : Bullet.t) (es : list Enemy.t) :
  Forall (fun e => onScreen e = true) es ->
  match strike b es with
  | Miss => True
  | Wound es1 => Forall (fun e => onScreen e = true) es1
  | Kill es1 _ => Forall (fun e => onScreen e = true) es1
  end.
Proof.
  induction 1 as [| e rest He Hrest IH]; [exact I |].
  cbn [strike]. destruct (bulletHits b e).
  - cbn [Enemy.hp Enemy.set_hp].
    destruct (Go.sub (Enemy.hp e) 1 <=? 0); [exact Hrest |].
    constructor; [exact He | exact Hrest].
  - destruct (strike b rest); [exact I | |]; constructor; assumption.
Qed.

Lemma strike_worth (b : Bullet.t) (es : list Enemy.t) :
  match strike b es with
  | Miss => True
  | Wound es1 => worth es1 = worth es /\ List.length es1 = List.length es
  | Kill es1 dead =>
      worth es1 + killScore dead = worth es
      /\ S (List.length es1) = List.length es
  end.
Proof.
  induction es as [| e rest IH]; [exact I |].
  assert (Hk : forall h, killScore (Enemy.set_hp h e) = killScore e)
    by reflexivity.
  cbn [strike]. destruct (bulletHits b e).
  - cbn [Enemy.hp Enemy.set_hp].
    destruct (Go.sub (Enemy.hp e) 1 <=? 0);
      unfold worth; cbn [fold_right List.length]; rewrite ?Hk; split; lia.
  - destruct (strike b rest) as [| es1 | es1 dead]; [exact I | |];
      destruct IH as (IH1 & IH2); unfold worth in *;
      cbn [fold_right List.length]; split; lia.
Qed.

Section Collections.

Variable M : Math.Lib.
Variable stages : list Stage.t.

(** *** The world: draws and sounds *)

Lemma newStar_quiet (w : World) : quiet w (snd (newStar w)).
Proof. unfold newStar, Rand.Intn, Rand.Float64, quiet. cbn. auto 10. Qed.

Lemma newStars_quiet (n : nat) (w : World) : quiet w (snd (newStars n w)).
Proof.
  revert w. induction n as [| n IH]; intros w; [apply quiet_refl |].
  cbn [newStars]. pose proof (newStar_quiet w) as H1.
  destruct (newStar w) as [s w1]. pose proof (IH w1) as H2.
  destruct (newStars n w1) as [ss w2]. cbn [snd] in *.
  eapply quiet_trans; eassumption.
Qed.

Lemma stepStar_quiet (s : Star.t) (w : World) : quiet w (snd (stepStar s w)).
Proof.
  unfold stepStar, Rand.Float64, quiet.
  destruct (Go.fgt (Star.y s + Star.speed s) 480); cbn; auto 10.
Qed.

Lemma ambient_quiet (g : Game.t) (w : World) : quiet w (snd (ambient g w)).
Proof.
  unfold ambient, updateStars.
  pose proof (forEachW_quiet stepStar stepStar_quiet (stars g) w) as H.
  destruct (forEachW stepStar (stars g) w) as [ss w1]. exact H.
Qed.

Lemma explosionParticle_quiet (x y : float) (w : World) :
  quiet w (snd (explosionParticle M x y w))
  /\ drawn (snd (explosionParticle M x y w)) = (4 + drawn w)%nat.
Proof.
  unfold explosionParticle, Rand.Intn, Rand.Float64, quiet. cbn. auto 10.
Qed.

Lemma explosionLoop_quiet (n : nat) (x y : float) (ps : list Particle.t)
    (w : World) :
  quiet w (snd (explosionLoop M n x y ps w))
  /\ drawn (snd (explosionLoop M n x y ps w)) = (4 * n + drawn w)%nat.
Proof.
  revert ps w. induction n as [| n IH]; intros ps w.
  - cbn. split; [apply quiet_refl | reflexivity].
  - cbn [explosionLoop]. destruct (explosionParticle_quiet x y w) as (H1 & D1).
    destruct (explosionParticle M x y w) as [p w1]. cbn [snd] in *.
    destruct (IH (ps ++ [p]) w1) as (H2 & D2).
    split; [eapply quiet_trans; eassumption | lia].
Qed.

Lemma createExplosion_quiet (x y : float) (c : RGBA) (g : Game.t) (w : World) :
  quiet w (snd (createExplosion M x y c g w)).
Proof.
  rewrite createExplosion_shape. cbn [snd]. apply explosionLoop_quiet.
Qed.

Lemma spawnWave_quiet (g g1 : Game.t) (w w1 : World) :
  spawnWave g w = Some (g1, w1) -> quiet w w1.
Proof.
  unfold spawnWave. intros H.
  destruct (currentSpawn g <? Go.len (waves g)).
  - destruct (totalDelay (waves g) (currentSpawn g) <=? waveTimer g).
    + destruct (Go.index (waves g) (currentSpawn g)); [| discriminate].
      cbn in H. inversion H; subst. apply quiet_next.
    + inversion H; subst. apply quiet_refl.
  - inversion H; subst. apply quiet_refl.
Qed.

Lemma stepEnemy_quiet (px py : float) (e : Enemy.t) (w : World) :
  quiet w (snd (stepEnemy M px py e w)).
Proof.
  unfold stepEnemy. destruct (moveEnemy M e) as [[e1 s1] f1].
  unfold fireEnemy. destruct (Enemy.shootsBullet e1); [| apply quiet_refl].
  cbn [Enemy.bulletCooldown Enemy.set_bulletCooldown].
  destruct (Go.sub (Enemy.bulletCooldown e1) 1 <=? 0); [| apply quiet_refl].
  match goal with
  | |- context [match ?b with Some _ => _ | None => _ end] => destruct b as [[vx vy] |]
  end; cbn; apply quiet_next.
Qed.

Lemma enemiesLoop_quiet (px py : float) (es : list Enemy.t)
    (ebs : list EnemyBullet.t) (ps : list Particle.t) (w : World) :
  quiet w (snd (enemiesLoop M px py es ebs ps w)).
Proof.
  revert ebs ps w. induction es as [| e rest IH]; intros ebs ps w.
  - apply quiet_refl.
  - cbn [enemiesLoop]. pose proof (stepEnemy_quiet px py e w) as H1.
    destruct (stepEnemy M px py e w) as [[[e1 shots] flashes] w1].
    pose proof (IH (ebs ++ shots) (ps ++ flashes) w1) as H2.
    destruct (enemiesLoop M px py rest (ebs ++ shots) (ps ++ flashes) w1)
      as [[[rest1 ebs1] ps1] w2].
    cbn [snd] in *. eapply quiet_trans; eassumption.
Qed.

Lemma advanceEnemies_quiet (k : Key.t) (g g1 : Game.t) (w w1 : World) :
  advanceEnemies M k g w = Some (g1, w1) -> quiet w w1.
Proof.
  unfold advanceEnemies. intros H.
  destruct (spawnWave (movePlayer k g) w) as [[gs ws] |] eqn:Es; [| discriminate].
  pose proof (spawnWave_quiet _ _ _ _ Es) as H1.
  unfold updateEnemies in H.
  match type of H with
  | context [enemiesLoop M ?a ?b ?c ?d ?e ws] =>
      pose proof (enemiesLoop_quiet a b c d e ws) as H2;
      destruct (enemiesLoop M a b c d e ws) as [[[es ebs] ps] w3]
  end.
  inversion H; subst. cbn [snd] in H2. eapply quiet_trans; eassumption.
Qed.

Lemma playerFire_world (k : Key.t) (g : Game.t) (w : World) :
  let w1 := snd (playerFire M k g w) in
  played w1 = (if Key.Space k && (shootCooldown g =? 0)
               then "shoot"%string :: played w else played w)
  /\ draws w1 = draws w /\ (drawn w <= drawn w1)%nat.
Proof.
  unfold playerFire, fireVolley.
  destruct (Key.Space k && (shootCooldown g =? 0)); cbn; auto.
Qed.

Lemma stepBullet_quiet (b : Bullet.t) (kept : list Bullet.t) (g : Game.t)
    (w : World) :
  quiet w (snd (stepBullet M b kept g w)).
Proof.
  unfold stepBullet. destruct (strike b (enemies g)) as [| es | es dead];
    try apply quiet_refl.
  match goal with
  | |- context [createExplosion M ?x ?y ?c ?h w] =>
      pose proof (createExplosion_quiet x y c h w) as H;
      destruct (createExplosion M x y c h w) as [g2 w2]
  end.
  exact H.
Qed.

Lemma bulletsLoop_quiet (bs kept : list Bullet.t) (g : Game.t) (w : World) :
  quiet w (snd (bulletsLoop M bs kept g w)).
Proof.
  revert kept g w. induction bs as [| b rest IH]; intros kept g w.
  - apply quiet_refl.
  - cbn [bulletsLoop]. pose proof (stepBullet_quiet b kept g w) as H1.
    destruct (stepBullet M b kept g w) as [[kept1 g1] w1]. cbn [snd] in H1.
    eapply quiet_trans; [exact H1 | apply IH].
Qed.

Lemma updateBullets_quiet (g : Game.t) (w : World) :
  quiet w (snd (updateBullets M g w)).
Proof.
  unfold updateBullets. pose proof (bulletsLoop_quiet (bullets g) [] g w) as H.
  destruct (bulletsLoop M (bullets g) [] g w) as [[kept g1] w1]. exact H.
Qed.

Lemma enemyBulletsLoop_quiet (ebs kept : list EnemyBullet.t) (g : Game.t)
    (w : World) :
  quiet w (snd (enemyBulletsLoop M ebs kept g w)).
Proof.
  revert kept. induction ebs as [| eb rest IH]; intros kept.
  - apply quiet_refl.
  - cbn [enemyBulletsLoop].
    destruct (enemyBulletHits g (advanceEnemyBullet eb)); [| apply IH].
    match goal with
    | |- context [createExplosion M ?x ?y ?c ?h w] =>
        pose proof (createExplosion_quiet x y c h w) as H;
        destruct (createExplosion M x y c h w) as [g2 w2]
    end.
    exact H.
Qed.

Lemma updateEnemyBullets_quiet (g : Game.t) (w : World) :
  quiet w (snd (updateEnemyBullets M g w)).
Proof.
  unfold updateEnemyBullets.
  pose proof (enemyBulletsLoop_quiet (enemyBullets g) [] g w) as H.
  destruct (enemyBulletsLoop M (enemyBullets g) [] g w) as [[kept g1] w1].
  exact H.
Qed.

Lemma collidePlayer_quiet (g : Game.t) (w : World) :
  quiet w (snd (collidePlayer M g w)).
Proof.
  unfold collidePlayer.
  destruct (existsb (playerTouches g) (enemies g)); [| apply quiet_refl].
  match goal with
  | |- context [createExplosion M ?x ?y ?c ?h w] =>
      pose proof (createExplosion_quiet x y c h w) as H;
      destruct (createExplosion M x y c h w) as [g2 w2]
  end.
  exact H.
Qed.

Lemma resolveCombat_world (k : Key.t) (g : Game.t) (w : World) :
  let w1 := snd (resolveCombat M k g w) in
  played w1 = (if Key.Space k && (shootCooldown g =? 0)
               then "shoot"%string :: played w else played w)
  /\ draws w1 = draws w /\ (drawn w <= drawn w1)%nat.
Proof.
  destruct (resolveCombat_unfold M k g w)
    as (g1 & w1 & g2 & w2 & g3 & w3 & E1 & E2 & E3 & E).
  cbn zeta. rewrite E.
  pose proof (playerFire_world k (checkStageClear g) w) as F1.
  rewrite E1 in F1. cbn [snd] in F1. destruct F1 as (P1 & D1 & N1).
  assert (Hc : shootCooldown (checkStageClear g) = shootCooldown g).
  { destruct (checkStageClear_shape g) as (st & t & f & Ec). rewrite Ec.
    reflexivity. }
  rewrite Hc in P1.
  pose proof (updateBullets_quiet g1 w1) as F2. rewrite E2 in F2.
  pose proof (updateEnemyBullets_quiet g2 w2) as F3. rewrite E3 in F3.
  pose proof (collidePlayer_quiet g3 w3) as F4.
  cbn [snd] in F2, F3.
  destruct (quiet_trans _ _ _ F2 (quiet_trans _ _ _ F3 F4)) as (P & D & N).
  repeat split; try congruence. lia.
Qed.

(** A frame plays the shoot sound once when it fires a volley (playing,
    fire key down, cooldown at 0) and plays nothing otherwise; the random
    source is only moved forward. *)
Theorem one_sound_per_volley (k : Key.t) (g g1 : Game.t) (w w1 : World) :
  Update M stages k g w = Some (g1, w1) ->
  played w1 = (if firesVolley k g then "shoot"%string :: played w else played w)
  /\ draws w1 = draws w /\ (drawn w <= drawn w1)%nat.
Proof.
  intros HU. pose proof (ambient_quiet g w) as Ha.
  destruct (ambient_keeps g w) as (As & Ac & _).
  unfold firesVolley.
  destruct (gameState g) eqn:Es.
  - rewrite Update_unfold, Es in HU. inversion HU; subst. exact Ha.
  - destruct (Update_playing_halves M stages k g g1 w w1 Es HU)
      as (gm & wm & Ea & Er).
    pose proof (advanceEnemies_quiet _ _ _ _ _ Ea) as Hq.
    destruct (advanceEnemies_frame M k _ _ _ _ Ea)
      as (gs & ws & _ & _ & _ & _ & _ & _ & _ & _ & _ & Hc & _).
    pose proof (resolveCombat_world k gm wm) as Hr. rewrite Er in Hr.
    cbn [snd] in Hr. destruct Hr as (P & D & N).
    destruct (quiet_trans _ _ _ Ha Hq) as (P1 & D1 & N1).
    rewrite Hc, Ac in P. rewrite P, P1.
    repeat split; try congruence. lia.
  - rewrite (Update_stageClear M stages k g w Es) in HU. cbn zeta in HU.
    match type of HU with
    | (if ?c then _ else _) = _ => destruct c
    end.
    + match type of HU with
      | context [advanceStage stages ?x] =>
          destruct (advanceStage stages x) as [g3 |]; [| discriminate]
      end.
      inversion HU; subst. exact Ha.
    + inversion HU; subst. exact Ha.
  - rewrite (Update_explosion M stages k g w Es) in HU. inversion HU; subst.
    exact Ha.
  - destruct (Key.R k) eqn:Ek.
    + rewrite (restart_is_NewGame M stages k g w Es Ek) in HU.
      unfold NewGame in HU.
      pose proof (newStars_quiet 60 (snd (ambient g w))) as Hn.
      destruct (newStars 60 (snd (ambient g w))) as [ss w2].
      destruct (Go.index stages 0); [| discriminate].
      inversion HU; subst. cbn [snd] in Hn.
      exact (quiet_trans _ _ _ Ha Hn).
    + rewrite (Update_gameOver M stages k g w Es Ek) in HU.
      inversion HU; subst. exact Ha.
Qed.

(** *** The collections *)

Lemma stepBullet_tidy (b : Bullet.t) (kept : list Bullet.t) (g : Game.t)
    (w : World) :
  Forall (fun e => onScreen e = true) (enemies g) ->
  Forall (fun b => bulletInBounds b = true) kept ->
  Forall (fun e => onScreen e = true)
         (enemies (snd (fst (stepBullet M b kept g w))))
  /\ Forall (fun b => bulletInBounds b = true)
            (fst (fst (stepBullet M b kept g w))).
Proof.
  intros He Hk. pose proof (strike_onScreen b (enemies g) He) as Hs.
  unfold stepBullet. destruct (strike b (enemies g)) as [| es | es dead].
  - cbn [fst snd]. split; [exact He |].
    destruct (bulletInBounds (advanceBullet b)) eqn:Eb; [| exact Hk].
    apply Forall_app. split; [exact Hk |]. constructor; [exact Eb | constructor].
  - cbn. split; assumption.
  - rewrite createExplosion_shape. cbn. split; assumption.
Qed.

Lemma bulletsLoop_tidy (bs kept : list Bullet.t) (g : Game.t) (w : World) :
  Forall (fun e => onScreen e = true) (enemies g) ->
  Forall (fun b => bulletInBounds b = true) kept ->
  Forall (fun e => onScreen e = true)
         (enemies (snd (fst (bulletsLoop M bs kept g w))))
  /\ Forall (fun b => bulletInBounds b = true)
            (fst (fst (bulletsLoop M bs kept g w))).
Proof.
  revert kept g w. induction bs as [| b rest IH]; intros kept g w He Hk.
  - cbn. split; assumption.
  - cbn [bulletsLoop]. destruct (stepBullet_tidy b kept g w He Hk) as (H1 & H2).
    destruct (stepBullet M b kept g w) as [[kept1 g1] w1]. cbn [fst snd] in *.
    apply IH; assumption.
Qed.

Lemma enemyBulletsLoop_tidy (ebs kept : list EnemyBullet.t) (g : Game.t)
    (w : World) :
  Forall (fun eb => enemyBulletInBounds eb = true) kept ->
  Forall (fun eb => enemyBulletInBounds eb = true)
         (fst (fst (enemyBulletsLoop M ebs kept g w))).
Proof.
  revert kept. induction ebs as [| eb rest IH]; intros kept Hk.
  - exact Hk.
  - cbn [enemyBulletsLoop].
    destruct (enemyBulletHits g (advanceEnemyBullet eb)).
    + destruct (createExplosion M (playerX g + 10) (playerY g + 12) green g w).
      exact Hk.
    + apply IH.
      destruct (enemyBulletInBounds (advanceEnemyBullet eb)) eqn:Eb; [| exact Hk].
      apply Forall_app. split; [exact Hk |]. constructor; [exact Eb | constructor].
Qed.

Lemma inBounds_spec (g : Game.t) :
  inBounds g = true <->
  Forall (fun e => onScreen e = true) (enemies g)
  /\ Forall (fun b => bulletInBounds b = true) (bullets g)
  /\ Forall (fun eb => enemyBulletInBounds eb = true) (enemyBullets g).
Proof.
  unfold inBounds. rewrite !andb_true_iff, !forallb_forall, !Forall_forall.
  tauto.
Qed.

Lemma inBounds_ext (g h : Game.t) :
  enemies h = enemies g -> bullets h = bullets g ->
  enemyBullets h = enemyBullets g -> inBounds g = true -> inBounds h = true.
Proof. unfold inBounds. intros -> -> ->. auto. Qed.

(** The second half of a playing frame leaves the three collections
    within bounds when the enemies were. *)
Lemma resolveCombat_tidy (k : Key.t) (g : Game.t) (w : World) :
  Forall (fun e => onScreen e = true) (enemies g) ->
  inBounds (fst (resolveCombat M k g w)) = true.
Proof.
  intros He.
  destruct (resolveCombat_unfold M k g w)
    as (g1 & w1 & g2 & w2 & g3 & w3 & E1 & E2 & E3 & E).
  rewrite E.
  destruct (collidePlayer_keeps M g3 w3) as (_ & _ & _ & N4 & B4 & EB4 & _).
  pose proof (updateEnemyBullets_keeps M g2 w2) as K3.
  rewrite E3 in K3. cbn [fst] in K3. destruct K3 as (_ & _ & _ & N3 & B3 & _).
  pose proof (playerFire_keeps M k (checkStageClear g) w) as K1.
  rewrite E1 in K1. cbn [fst] in K1.
  destruct K1 as (_ & _ & _ & _ & _ & _ & N1 & _).
  assert (N0 : enemies (checkStageClear g) = enemies g).
  { destruct (checkStageClear_shape g) as (st & t & f & Ec). rewrite Ec. reflexivity. }
  assert (He1 : Forall (fun e => onScreen e = true) (enemies g1)) by congruence.
  unfold updateBullets in E2.
  pose proof (bulletsLoop_tidy (bullets g1) [] g1 w1 He1 (Forall_nil _)) as Hb.
  destruct (bulletsLoop M (bullets g1) [] g1 w1) as [[kept h] w'].
  inversion E2; subst g2 w2. cbn [fst snd] in Hb. destruct Hb as (Hb1 & Hb2).
  unfold updateEnemyBullets in E3.
  pose proof (enemyBulletsLoop_tidy (enemyBullets (set_bullets kept h)) []
                (set_bullets kept h) w' (Forall_nil _)) as Hc.
  destruct (enemyBulletsLoop M (enemyBullets (set_bullets kept h)) []
              (set_bullets kept h) w') as [[kept2 h2] w''].
  inversion E3; subst g3 w3. cbn [fst] in Hc.
  apply inBounds_spec. rewrite N4, B4, EB4, N3, B3. cbn.
  repeat split; assumption.
Qed.

Lemma advanceEnemies_onScreen (k : Key.t) (g g1 : Game.t) (w w1 : World) :
  advanceEnemies M k g w = Some (g1, w1) ->
  Forall (fun e => onScreen e = true) (enemies g1).
Proof.
  unfold advanceEnemies. intros H.
  destruct (spawnWave (movePlayer k g) w) as [[gs ws] |]; [| discriminate].
  match type of H with
  | context [updateEnemies M ?a ?b] => destruct (updateEnemies M a b) as [g3 w3]
  end.
  inversion H; subst. unfold cullEnemies. cbn.
  apply Forall_forall. intros e He. apply filter_In in He. apply He.
Qed.

Lemma advanceStage_tidy (g g1 : Game.t) :
  inBounds g = true -> advanceStage stages g = Some g1 -> inBounds g1 = true.
Proof.
  unfold advanceStage. cbn [currentStage set_currentStage]. intros Hi H.
  destruct (Go.len stages <=? Go.add (currentStage g) 1).
  - inversion H; subst. unfold recordHighScore.
    split_ifs; exact Hi.
  - destruct (Go.index stages (Go.add (currentStage g) 1)); [| discriminate].
    inversion H; subst. reflexivity.
Qed.

Lemma Update_tidy (k : Key.t) (g g1 : Game.t) (w w1 : World) :
  inBounds g = true -> Update M stages k g w = Some (g1, w1) ->
  inBounds g1 = true.
Proof.
  intros Hi HU.
  destruct (ambient_keeps g w)
    as (As & _ & _ & _ & _ & _ & _ & Ae & Ab & Aeb & _).
  pose proof (inBounds_ext g (fst (ambient g w)) Ae Ab Aeb Hi) as Ha.
  destruct (gameState g) eqn:Es.
  - rewrite Update_unfold, Es in HU. inversion HU; subst.
    destruct (Key.Space k); exact Ha.
  - destruct (Update_playing_halves M stages k g g1 w w1 Es HU)
      as (gm & wm & Ea & Er).
    pose proof (resolveCombat_tidy k gm wm
                  (advanceEnemies_onScreen _ _ _ _ _ Ea)) as H.
    rewrite Er in H. exact H.
  - rewrite (Update_stageClear M stages k g w Es) in HU. cbn zeta in HU.
    match type of HU with
    | (if ?c then _ else _) = _ => destruct c
    end.
    + match type of HU with
      | context [advanceStage stages ?x] =>
          destruct (advanceStage stages x) as [g3 |] eqn:E3; [| discriminate]
      end.
      inversion HU; subst. refine (advanceStage_tidy _ _ _ E3). exact Ha.
    + inversion HU; subst. exact Ha.
  - rewrite (Update_explosion M stages k g w Es) in HU. inversion HU; subst.
    unfold updatePlayerExplosion. split_ifs; exact Ha.
  - destruct (Key.R k) eqn:Ek.
    + rewrite (restart_is_NewGame M stages k g w Es Ek) in HU.
      destruct (NewGame stages (snd (ambient g w))) as [[fr w2] |] eqn:En;
        [| discriminate].
      inversion HU; subst.
      destruct (NewGame_fields stages _ _ _ En) as (_ & _ & He & Hb & Heb & _).
      unfold inBounds. cbn. rewrite He, Hb, Heb. reflexivity.
    + rewrite (Update_gameOver M stages k g w Es Ek) in HU.
      inversion HU; subst. apply inBounds_spec. apply inBounds_spec in Ha.
      destruct Ha as (_ & H2 & H3). unfold cullEnemies. cbn.
      repeat split; try assumption.
      apply Forall_forall. intros e He. apply filter_In in He. apply He.
Qed.

(** *** The score *)

Lemma stepBullet_worth (b : Bullet.t) (kept : list Bullet.t) (g : Game.t)
    (w : World) :
  let g1 := snd (fst (stepBullet M b kept g w)) in
  Go.wrap (score g1 + worth (enemies g1)) = Go.wrap (score g + worth (enemies g))
  /\ (List.length (enemies g1) <= List.length (enemies g))%nat
  /\ (score g1 = score g <-> List.length (enemies g1) = List.length (enemies g)).
Proof.
  pose proof (strike_worth b (enemies g)) as Hs.
  unfold stepBullet. destruct (strike b (enemies g)) as [| es | es dead].
  - cbn [fst snd]. repeat split; auto.
  - destruct Hs as (Hw & Hl). cbn [fst snd enemies score set_enemies].
    rewrite Hw, Hl. repeat split; auto.
  - destruct Hs as (Hw & Hl). rewrite createExplosion_shape.
    cbn [fst snd enemies score set_enemies set_particles set_score].
    unfold Go.add. rewrite wrap_add_wrap. rewrite <- Hw.
    split; [f_equal; lia |]. split; [lia |].
    split; [| intros; lia].
    intros Hsc. exfalso.
    assert (Hk : killScore dead = 100 \/ killScore dead = 1000)
      by (unfold killScore; destruct (Enemy.enemyType dead =? EnemyTypeBoss); auto).
    assert (H0 : Go.wrap (score g + killScore dead) - score g = 0) by lia.
    unfold Go.wrap in H0.
    pose proof (Z.mod_pos_bound (score g + killScore dead + 2 ^ 63) (2 ^ 64)
                  ltac:(lia)) as Hb.
    pose proof (Z.div_mod (score g + killScore dead + 2 ^ 63) (2 ^ 64)
                  ltac:(lia)) as Hd.
    destruct Hk as [Hk | Hk]; rewrite Hk in *; lia.
Qed.

Lemma bulletsLoop_worth (bs kept : list Bullet.t) (g : Game.t) (w : World) :
  let g1 := snd (fst (bulletsLoop M bs kept g w)) in
  Go.wrap (score g1 + worth (enemies g1)) = Go.wrap (score g + worth (enemies g))
  /\ (List.length (enemies g1) <= List.length (enemies g))%nat.
Proof.
  revert kept g w. induction bs as [| b rest IH]; intros kept g w.
  - cbn. auto.
  - cbn [bulletsLoop]. destruct (stepBullet_worth b kept g w) as (H1 & H2 & _).
    destruct (stepBullet M b kept g w) as [[kept1 g1] w1]. cbn [fst snd] in *.
    destruct (IH kept1 g1 w1) as (H3 & H4). cbn zeta in *.
    split; [congruence | lia].
Qed.

End Collections.

(** In every session reachable from [NewGame] the three moving collections
    hold nothing past the margins at which the loops drop it: every enemy
    has y < 500, every player bullet y > -8 and -8 < x < 648, every enemy
    bullet y < 488 and -8 < x < 648. *)
Theorem nothing_lingers_off_screen (M : Math.Lib) (stages : list Stage.t)
    (g : Game.t) :
  Reachable M stages g ->
  Forall (fun e => onScreen e = true) (enemies g)
  /\ Forall (fun b => bulletInBounds b = true) (bullets g)
  /\ Forall (fun eb => enemyBulletInBounds eb = true) (enemyBullets g).
Proof.
  intros Hr. apply inBounds_spec.
  induction Hr as [w g w1 Hn | k g w g1 w1 Hr IH HU].
  - destruct (NewGame_fields stages _ _ _ Hn) as (_ & _ & He & Hb & Heb & _).
    unfold inBounds. rewrite He, Hb, Heb. reflexivity.
  - exact (Update_tidy M stages k g g1 w w1 IH HU).
Qed.

Lemma nothing_lingers_off_screen_witness :
  match Scenario.session with
  | Some (g, _) =>
      Forall (fun e => onScreen e = true) (enemies g)
      /\ Forall (fun b => bulletInBounds b = true) (bullets g)
      /\ Forall (fun eb => enemyBulletInBounds eb = true) (enemyBullets g)
  | None => False
  end.
Proof.
  pose proof session_runs as Hs.
  destruct Scenario.session as [[g w] |] eqn:E; [| discriminate Hs].
  apply (nothing_lingers_off_screen Sample.math Sample.stages g).
  apply (session_Reachable Sample.math Sample.stages
           (repeat Scenario.keyLeftFire 45) Sample.world g w).
  exact E.
Defined.

Lemma one_sound_per_volley_witness :
  exists g1 w1,
    Update Sample.math Sample.stages Scenario.keySpace Scenario.playing
      Sample.world = Some (g1, w1)
    /\ played w1 = (if firesVolley Scenario.keySpace Scenario.playing
                    then "shoot"%string :: played Sample.world
                    else played Sample.world)
    /\ draws w1 = draws Sample.world /\ (drawn Sample.world <= drawn w1)%nat.
Proof.
  destruct (Update Sample.math Sample.stages Scenario.keySpace Scenario.playing
              Sample.world) as [[g1 w1] |] eqn:E.
  - exists g1, w1. split; [reflexivity |].
    apply (one_sound_per_volley Sample.math Sample.stages Scenario.keySpace
             Scenario.playing g1 Sample.world w1 E).
  - assert (H : option_map (fun _ => tt)
                  (Update Sample.math Sample.stages Scenario.keySpace
                     Scenario.playing Sample.world) = Some tt)
      by (vm_compute; reflexivity).
    rewrite E in H. discriminate H.
Defined.

(** The bullet pass pays for what it removes: the score at its end plus the
    worth of the enemies left (1000 for a boss, 100 otherwise) is the score
    at its start plus the worth of the enemies it found, in [int]
    arithmetic; it never adds an enemy. *)
Theorem kills_are_scored (M : Math.Lib) (g : Game.t) (w : World) :
  let g1 := fst (updateBullets M g w) in
  Go.wrap (score g1 + worth (enemies g1)) = Go.wrap (score g + worth (enemies g))
  /\ (List.length (enemies g1) <= List.length (enemies g))%nat.
Proof.
  unfold updateBullets.
  pose proof (bulletsLoop_worth M (bullets g) [] g w) as H.
  destruct (bulletsLoop M (bullets g) [] g w) as [[kept g1] w1].
  exact H.
Qed.
(** ** Explosions, stars, enemy fire and [nextWave] *)

Section Effects.

Variable M : Math.Lib.
Variable stages : list Stage.t.

Lemma explosionParticle_sparkAt (x y : float) (w : World) :
  sparkAt x y (fst (explosionParticle M x y w)).
Proof.
  unfold explosionParticle, Rand.Float64, Rand.Intn, sparkAt. cbn.
  repeat split; try reflexivity;
    pose proof (Z.mod_pos_bound (draws w (S (S (S (drawn w))))) 20 ltac:(lia));
    rewrite add_small by golia; lia.
Qed.

Lemma explosionLoop_sparks (n : nat) (x y : float) (ps : list Particle.t)
    (w : World) :
  exists news,
    fst (explosionLoop M n x y ps w) = ps ++ news
    /\ List.length news = n /\ Forall (sparkAt x y) news.
Proof.
  revert ps w. induction n as [| n IH]; intros ps w.
  - exists []. cbn. rewrite app_nil_r. auto.
  - cbn [explosionLoop].
    pose proof (explosionParticle_sparkAt x y w) as Hf.
    destruct (explosionParticle M x y w) as [p w1]. cbn [fst] in Hf.
    destruct (IH (ps ++ [p]) w1) as (news & E & Hlen & Hn).
    exists (p :: news). rewrite E, <- app_assoc. cbn.
    split; [reflexivity |]. split; [lia | constructor; assumption].
Qed.

(** *** Stars *)

Lemma newStar_color (w : World) : In (Star.color (fst (newStar w))) starColors.
Proof.
  unfold newStar, Rand.Intn, Rand.Float64. cbn [fst Star.color].
  apply nth_In.
  pose proof (Z.mod_pos_bound (draws w (drawn w)) (Go.len starColors)
                ltac:(reflexivity)) as Hb.
  change (Go.len starColors) with 5 in *. cbn [List.length starColors]. lia.
Qed.

Lemma newStars_spec (n : nat) (w : World) :
  List.length (fst (newStars n w)) = n
  /\ Forall (fun s => In (Star.color s) starColors) (fst (newStars n w)).
Proof.
  revert w. induction n as [| n IH]; intros w.
  - cbn. auto.
  - cbn [newStars]. pose proof (newStar_color w) as Hc.
    destruct (newStar w) as [s w1]. destruct (IH w1) as (Hl & Hf).
    destruct (newStars n w1) as [ss w2]. cbn [fst] in *. cbn.
    split; [lia | constructor; assumption].
Qed.

Lemma stepStar_color (s : Star.t) (w : World) :
  Star.color (fst (stepStar s w)) = Star.color s.
Proof.
  unfold stepStar, Rand.Float64.
  destruct (Go.fgt (Star.y s + Star.speed s) 480); reflexivity.
Qed.

Lemma forEachW_Forall {A B : Type} (f : A -> World -> B * World)
    (P : A -> Prop) (Q : B -> Prop) :
  (forall a w, P a -> Q (fst (f a w))) ->
  forall s w, Forall P s -> Forall Q (fst (forEachW f s w)).
Proof.
  intros Hf. induction s as [| a rest IH]; intros w Hs.
  - constructor.
  - inversion Hs as [| a' rest' Ha Hrest]; subst. cbn [forEachW].
    pose proof (Hf a w Ha) as H1. destruct (f a w) as [b w1].
    pose proof (IH w1 Hrest) as H2. destruct (forEachW f rest w1) as [bs w2].
    cbn [fst] in *. constructor; assumption.
Qed.

Lemma advanceEnemies_stars (k : Key.t) (g g1 : Game.t) (w w1 : World) :
  advanceEnemies M k g w = Some (g1, w1) -> stars g1 = stars g.
Proof.
  unfold advanceEnemies. intros H.
  destruct (spawnWave (movePlayer k g) w) as [[gs ws] |] eqn:Es; [| discriminate].
  destruct (spawnWave_shape _ _ _ _ Es) as (c & es & Egs).
  rewrite (movePlayer_shape k g) in Egs.
  destruct (updateEnemies_shape M (set_waveTimer (Go.add (waveTimer gs) 1) gs) ws)
    as (es3 & ebs3 & ps3 & w3 & E3 & _).
  rewrite E3 in H. inversion H; subst g1 w1. subst gs. reflexivity.
Qed.

(** The star field after a frame: moved by the loop, or made anew. *)
Lemma Update_stars (k : Key.t) (g g1 : Game.t) (w w1 : World) :
  Update M stages k g w = Some (g1, w1) ->
  stars g1 = fst (forEachW stepStar (stars g) w)
  \/ exists w2, stars g1 = fst (newStars 60 w2).
Proof.
  intros HU.
  assert (Ha : stars (fst (ambient g w)) = fst (forEachW stepStar (stars g) w)).
  { unfold ambient, updateStars.
    destruct (forEachW stepStar (stars g) w) as [ss w2]. reflexivity. }
  destruct (gameState g) eqn:Es.
  - left. rewrite Update_unfold, Es in HU. inversion HU; subst.
    destruct (Key.Space k); exact Ha.
  - left. destruct (Update_playing_halves M stages k g g1 w w1 Es HU)
      as (gm & wm & Ea & Er).
    pose proof (resolveCombat_frame M k gm wm) as Hr. rewrite Er in Hr.
    cbn [fst] in Hr. destruct Hr as (_ & _ & _ & _ & _ & _ & Hst).
    rewrite Hst, (advanceEnemies_stars _ _ _ _ _ Ea). exact Ha.
  - left. rewrite (Update_stageClear M stages k g w Es) in HU. cbn zeta in HU.
    match type of HU with
    | (if ?c then _ else _) = _ => destruct c
    end.
    + match type of HU with
      | context [advanceStage stages ?x] =>
          destruct (advanceStage stages x) as [g3 |] eqn:E3; [| discriminate]
      end.
      inversion HU; subst.
      destruct (advanceStage_keeps stages _ _ E3) as (_ & _ & Hst & _).
      rewrite Hst. exact Ha.
    + inversion HU; subst. exact Ha.
  - left. rewrite (Update_explosion M stages k g w Es) in HU.
    inversion HU; subst. unfold updatePlayerExplosion. split_ifs; exact Ha.
  - destruct (Key.R k) eqn:Ek.
    + right. rewrite (restart_is_NewGame M stages k g w Es Ek) in HU.
      destruct (NewGame stages (snd (ambient g w))) as [[fr w2] |] eqn:En;
        [| discriminate].
      inversion HU; subst.
      destruct (NewGame_start stages _ _ _ En) as (_ & _ & Hst & _).
      exists (snd (ambient g w)). exact Hst.
    + left. rewrite (Update_gameOver M stages k g w Es Ek) in HU.
      inversion HU; subst. exact Ha.
Qed.

(** *** Enemy fire *)

(** An enemy that is no boss moves without firing and without touching
    what its gun reads. *)
Lemma moveEnemy_gun (e : Enemy.t) :
  Enemy.enemyType e <> EnemyTypeBoss ->
  let e1 := fst (fst (moveEnemy M e)) in
  snd (fst (moveEnemy M e)) = []
  /\ Enemy.enemyType e1 = Enemy.enemyType e
  /\ Enemy.shootsBullet e1 = Enemy.shootsBullet e
  /\ Enemy.bulletCooldown e1 = Enemy.bulletCooldown e
  /\ Enemy.bulletType e1 = Enemy.bulletType e.
Proof.
  intros Hb. unfold moveEnemy, moveSpecial.
  cbn [Enemy.enemyType Enemy.set_time].
  destruct (Enemy.enemyType e =? EnemyTypeStraight); [cbn; auto |].
  destruct (Enemy.enemyType e =? EnemyTypeSine); [cbn; auto |].
  destruct (Enemy.enemyType e =? EnemyTypeSpecial).
  - split_ifs; cbn; auto.
  - destruct (Enemy.enemyType e =? EnemyTypeBoss) eqn:E3.
    + apply Z.eqb_eq in E3. contradiction.
    + cbn. auto.
Qed.

Lemma bulletVelocity_range (px py : float) (e : Enemy.t) :
  match bulletVelocity M px py e with
  | Some _ => (0 <=? Enemy.bulletType e) && (Enemy.bulletType e <=? 3) = true
  | None => (0 <=? Enemy.bulletType e) && (Enemy.bulletType e <=? 3) = false
  end.
Proof.
  unfold bulletVelocity.
  destruct (Enemy.bulletType e =? 0) eqn:B0;
    [apply Z.eqb_eq in B0; rewrite B0; reflexivity |].
  destruct (Enemy.bulletType e =? 1) eqn:B1;
    [apply Z.eqb_eq in B1; rewrite B1; reflexivity |].
  destruct (Enemy.bulletType e =? 2) eqn:B2;
    [apply Z.eqb_eq in B2; rewrite B2; reflexivity |].
  destruct (Enemy.bulletType e =? 3) eqn:B3;
    [apply Z.eqb_eq in B3; rewrite B3; reflexivity |].
  apply Z.eqb_neq in B0, B1, B2, B3.
  apply andb_false_iff.
  destruct (0 <=? Enemy.bulletType e) eqn:L0; [| auto]. right.
  apply Z.leb_le in L0. apply Z.leb_gt. lia.
Qed.

(** One frame of an armed enemy that is no boss: it waits while its
    cooldown is above 1 and fires, when it has a bullet type, at 1. *)
Lemma stepEnemy_gun (px py : float) (e : Enemy.t) (w : World) :
  Enemy.enemyType e <> EnemyTypeBoss ->
  Enemy.shootsBullet e = true ->
  0 < Enemy.bulletCooldown e <= Go.maxInt ->
  let '(e1, shots, _, w1) := stepEnemy M px py e w in
  Enemy.enemyType e1 = Enemy.enemyType e
  /\ Enemy.shootsBullet e1 = true
  /\ Enemy.bulletType e1 = Enemy.bulletType e
  /\ if Enemy.bulletCooldown e =? 1
     then 60 <= Enemy.bulletCooldown e1 <= 119
          /\ List.length shots
             = (if (0 <=? Enemy.bulletType e) && (Enemy.bulletType e <=? 3)
                then 1%nat else 0%nat)
     else Enemy.bulletCooldown e1 = Enemy.bulletCooldown e - 1 /\ shots = [].
Proof.
  intros Hb Hs Hc. unfold stepEnemy.
  destruct (moveEnemy_gun e Hb) as (Hm & Ht & Hsh & Hcd & Hbt).
  destruct (moveEnemy M e) as [[em sm] fm]. cbn [fst snd] in *. subst sm.
  unfold fireEnemy. rewrite Hsh, Hs.
  cbn [Enemy.bulletCooldown Enemy.set_bulletCooldown]. rewrite Hcd.
  rewrite sub_small by golia.
  destruct (Enemy.bulletCooldown e =? 1) eqn:E1.
  - apply Z.eqb_eq in E1. rewrite E1. change (1 - 1 <=? 0) with true. cbv iota.
    pose proof (bulletVelocity_range px py (Enemy.set_bulletCooldown (1 - 1) em))
      as Hv.
    cbn [Enemy.bulletType Enemy.set_bulletCooldown] in Hv. rewrite Hbt in Hv.
    assert (Hr : 60 <= Go.add 60 (draws w (drawn w) mod 60) <= 119).
    { pose proof (Z.mod_pos_bound (draws w (drawn w)) 60 ltac:(lia)).
      rewrite add_small by golia. lia. }
    unfold Rand.Intn.
    destruct (bulletVelocity M px py (Enemy.set_bulletCooldown (1 - 1) em))
      as [[vx vy] |]; rewrite Hv; cbv beta iota zeta;
      cbn [Enemy.enemyType Enemy.shootsBullet Enemy.bulletType
           Enemy.bulletCooldown Enemy.set_bulletCooldown app List.length];
      repeat split; auto; try lia; congruence.
  - apply Z.eqb_neq in E1.
    replace (Enemy.bulletCooldown e - 1 <=? 0) with false
      by (symmetry; apply Z.leb_gt; lia).
    cbn. repeat split; auto; congruence.
Qed.

Lemma enemyAfter_waits (px py : float) (n : nat) (e : Enemy.t) (w : World) :
  Enemy.enemyType e <> EnemyTypeBoss ->
  Enemy.shootsBullet e = true ->
  Z.of_nat n < Enemy.bulletCooldown e <= Go.maxInt ->
  let e1 := fst (enemyAfter M px py n e w) in
  Enemy.enemyType e1 = Enemy.enemyType e
  /\ Enemy.shootsBullet e1 = true
  /\ Enemy.bulletType e1 = Enemy.bulletType e
  /\ Enemy.bulletCooldown e1 = Enemy.bulletCooldown e - Z.of_nat n.
Proof.
  revert e w. induction n as [| n IH]; intros e w Hb Hs Hc.
  - cbn. repeat split; auto. lia.
  - cbn [enemyAfter].
    pose proof (stepEnemy_gun px py e w Hb Hs ltac:(lia)) as H.
    destruct (stepEnemy M px py e w) as [[[e1 shots] fl] w1].
    destruct H as (Ht & Hsh & Hbt & H).
    replace (Enemy.bulletCooldown e =? 1) with false in H
      by (symmetry; apply Z.eqb_neq; lia).
    destruct H as (Hcd & _).
    destruct (IH e1 w1) as (It & Ish & Ibt & Icd);
      [congruence | exact Hsh | lia |].
    cbn zeta. repeat split; try congruence. lia.
Qed.

Lemma enemyAfter_succ (px py : float) (n : nat) (e : Enemy.t) (w : World) :
  enemyAfter M px py (S n) e w
  = (let '(e1, w1) := enemyAfter M px py n e w in
     let '(e2, _, _, w2) := stepEnemy M px py e1 w1 in (e2, w2)).
Proof.
  revert e w. induction n as [| n IH]; intros e w.
  - cbn. destruct (stepEnemy M px py e w) as [[[e1 s] f] w1]. reflexivity.
  - cbn [enemyAfter]. destruct (stepEnemy M px py e w) as [[[e1 s] f] w1].
    rewrite <- IH. reflexivity.
Qed.

End Effects.

(** [createExplosion] appends exactly 20 particles, all at the given point
    with alpha 1, type 0 and a lifetime from 30 to 49, takes 80 draws from
    the random source, plays no sound, changes no other field, and does the
    same whatever colour it is given. *)
Theorem explosion_of_twenty (M : Math.Lib) (x y : float) (c c1 : RGBA)
    (g : Game.t) (w : World) :
  createExplosion M x y c1 g w = createExplosion M x y c g w
  /\ fst (createExplosion M x y c g w)
     = set_particles (particles (fst (createExplosion M x y c g w))) g
  /\ (exists news,
        particles (fst (createExplosion M x y c g w)) = particles g ++ news
        /\ List.length news = 20%nat /\ Forall (sparkAt x y) news)
  /\ drawn (snd (createExplosion M x y c g w)) = (80 + drawn w)%nat
  /\ played (snd (createExplosion M x y c g w)) = played w.
Proof.
  split; [reflexivity |].
  rewrite createExplosion_shape. cbn [fst snd particles set_particles].
  split; [destruct g; reflexivity |].
  split; [apply explosionLoop_sparks |].
  destruct (explosionLoop_quiet M 20 x y (particles g) w) as ((P & _) & D).
  split; [exact D | exact P].
Qed.

(** In every session reachable from [NewGame] the star field has its 60
    stars, each in one of the five colours of the palette. *)
Theorem star_field_is_constant (M : Math.Lib) (stages : list Stage.t)
    (g : Game.t) :
  Reachable M stages g ->
  List.length (stars g) = 60%nat
  /\ Forall (fun s => In (Star.color s) starColors) (stars g).
Proof.
  induction 1 as [w g w1 Hn | k g w g1 w1 Hr IH HU].
  - destruct (NewGame_start stages _ _ _ Hn) as (_ & _ & Hst & _).
    rewrite Hst. apply newStars_spec.
  - destruct IH as (Hl & Hc).
    destruct (Update_stars M stages k g g1 w w1 HU) as [E | (w2 & E)]; rewrite E.
    + split; [rewrite forEachW_length; exact Hl |].
      apply (forEachW_Forall stepStar
               (fun s => In (Star.color s) starColors)
               (fun s => In (Star.color s) starColors)); [| exact Hc].
      intros s w0 Hs. rewrite stepStar_color. exact Hs.
    + apply newStars_spec.
Qed.

Lemma star_field_is_constant_witness :
  match Scenario.session with
  | Some (g, _) =>
      List.length (stars g) = 60%nat
      /\ Forall (fun s => In (Star.color s) starColors) (stars g)
  | None => False
  end.
Proof.
  pose proof session_runs as Hs.
  destruct Scenario.session as [[g w] |] eqn:E; [| discriminate Hs].
  apply (star_field_is_constant Sample.math Sample.stages g).
  apply (session_Reachable Sample.math Sample.stages
           (repeat Scenario.keyLeftFire 45) Sample.world g w).
  exact E.
Defined.

(** An enemy that shoots and is no boss, with cooldown c >= 1: it fires
    nothing in its next c - 1 frames; in the frame after them it fires one
    bullet when its bullet type is 0 to 3 and none otherwise, and its
    cooldown is set anew between 60 and 119.  So two shots of one enemy are
    60 to 119 frames apart. *)
Theorem enemy_fire_is_spaced (M : Math.Lib) (px py : float) (e : Enemy.t)
    (w : World) :
  Enemy.enemyType e <> EnemyTypeBoss ->
  Enemy.shootsBullet e = true ->
  0 < Enemy.bulletCooldown e <= Go.maxInt ->
  let c := Z.to_nat (Enemy.bulletCooldown e) in
  (forall n, (S n < c)%nat -> shotsAfter M px py n e w = [])
  /\ List.length (shotsAfter M px py (c - 1) e w)
     = (if (0 <=? Enemy.bulletType e) && (Enemy.bulletType e <=? 3)
        then 1%nat else 0%nat)
  /\ 60 <= Enemy.bulletCooldown (fst (enemyAfter M px py c e w)) <= 119.
Proof.
  intros Hb Hs Hc c.
  assert (Hwait : forall n, (n < c)%nat ->
            let '(e1, w1) := enemyAfter M px py n e w in
            Enemy.enemyType e1 <> EnemyTypeBoss
            /\ Enemy.shootsBullet e1 = true
            /\ Enemy.bulletType e1 = Enemy.bulletType e
            /\ Enemy.bulletCooldown e1 = Enemy.bulletCooldown e - Z.of_nat n).
  { intros n Hn.
    pose proof (enemyAfter_waits M px py n e w Hb Hs ltac:(lia)) as H.
    destruct (enemyAfter M px py n e w) as [e1 w1]. cbn [fst] in H.
    destruct H as (Ht & Hsh & Hbt & Hcd). repeat split; congruence. }
  pose proof (fun n => enemyAfter_succ M px py n e w) as Hsucc.
  split; [| split].
  - intros n Hn. unfold shotsAfter. specialize (Hwait n ltac:(lia)).
    destruct (enemyAfter M px py n e w) as [e1 w1].
    destruct Hwait as (Ht & Hsh & Hbt & Hcd).
    pose proof (stepEnemy_gun M px py e1 w1 Ht Hsh ltac:(lia)) as H.
    destruct (stepEnemy M px py e1 w1) as [[[e2 shots] fl] w2].
    destruct H as (_ & _ & _ & H).
    replace (Enemy.bulletCooldown e1 =? 1) with false in H
      by (symmetry; apply Z.eqb_neq; lia).
    cbn. apply H.
  - unfold shotsAfter. specialize (Hwait (c - 1)%nat ltac:(lia)).
    destruct (enemyAfter M px py (c - 1) e w) as [e1 w1].
    destruct Hwait as (Ht & Hsh & Hbt & Hcd).
    pose proof (stepEnemy_gun M px py e1 w1 Ht Hsh ltac:(lia)) as H.
    destruct (stepEnemy M px py e1 w1) as [[[e2 shots] fl] w2].
    destruct H as (_ & _ & _ & H).
    replace (Enemy.bulletCooldown e1 =? 1) with true in H
      by (symmetry; apply Z.eqb_eq; lia).
    cbn. rewrite <- Hbt. apply H.
  - replace c with (S (c - 1)) by lia. rewrite Hsucc.
    specialize (Hwait (c - 1)%nat ltac:(lia)).
    destruct (enemyAfter M px py (c - 1) e w) as [e1 w1].
    destruct Hwait as (Ht & Hsh & Hbt & Hcd).
    pose proof (stepEnemy_gun M px py e1 w1 Ht Hsh ltac:(lia)) as H.
    destruct (stepEnemy M px py e1 w1) as [[[e2 shots] fl] w2].
    destruct H as (_ & _ & _ & H).
    replace (Enemy.bulletCooldown e1 =? 1) with true in H
      by (symmetry; apply Z.eqb_eq; lia).
    cbn. apply H.
Qed.

Lemma enemy_fire_is_spaced_witness :
  let c := Z.to_nat (Enemy.bulletCooldown gunner) in
  (forall n, (S n < c)%nat ->
             shotsAfter Sample.math 320 408 n gunner Sample.world = [])
  /\ List.length (shotsAfter Sample.math 320 408 (c - 1) gunner Sample.world)
     = (if (0 <=? Enemy.bulletType gunner) && (Enemy.bulletType gunner <=? 3)
        then 1%nat else 0%nat)
  /\ 60 <= Enemy.bulletCooldown
             (fst (enemyAfter Sample.math 320 408 c gunner Sample.world))
        <= 119.
Proof.
  apply (enemy_fire_is_spaced Sample.math 320 408 gunner Sample.world).
  - discriminate.
  - reflexivity.
  - cbn. unfold Go.maxInt. lia.
Defined.

(** [nextWave] tests the cursor after rewinding it: in a session with
    waves it only sets cursor and timer to 0 and never advances the stage;
    with an empty wave list it advances the stage index by one. *)
Theorem nextWave_only_rewinds (stages : list Stage.t) (g : Game.t) :
  match waves g with
  | [] =>
      forall g1, nextWave stages g = Some g1 ->
                 currentStage g1 = Go.add (currentStage g) 1
                 /\ currentSpawn g1 = 0 /\ waveTimer g1 = 0
  | _ :: _ => nextWave stages g = Some (set_waveTimer 0 (set_currentSpawn 0 g))
  end.
Proof.
  unfold nextWave.
  cbn [waves currentSpawn set_waveTimer set_currentSpawn currentStage
       set_currentStage].
  destruct (waves g) as [| wv rest] eqn:Ew.
  - change (Go.len (@nil Wave.t) <=? 0) with true. cbv iota.
    intros g1 H.
    destruct (Go.len stages <=? Go.add (currentStage g) 1).
    + inversion H; subst. unfold recordHighScore. split_ifs; cbn; auto.
    + destruct (Go.index stages (Go.add (currentStage g) 1)); [| discriminate].
      inversion H; subst. cbn. auto.
  - replace (Go.len (wv :: rest) <=? 0) with false; [reflexivity |].
    symmetry. apply Z.leb_gt. unfold Go.len. cbn [List.length]. lia.
Qed.
(** ** The sound manager *)

Section SoundSlices.

Context {A : Type}.

Lemma assign_length (l l1 : list A) (i : nat) (a : A) :
  Sound.assign l i a = Some l1 -> List.length l1 = List.length l.
Proof.
  revert i l1. induction l as [| x rest IH]; intros i l1 H.
  - discriminate.
  - destruct i as [| i]; cbn in H.
    + inversion H; subst. reflexivity.
    + destruct (Sound.assign rest i a) as [r1 |] eqn:E; [| discriminate].
      inversion H; subst. cbn. rewrite (IH i r1 E). reflexivity.
Qed.

Lemma assign_total (l : list A) (i : nat) (a : A) :
  (i < List.length l)%nat -> exists l1, Sound.assign l i a = Some l1.
Proof.
  revert i. induction l as [| x rest IH]; intros i H; cbn in H; [lia |].
  destruct i as [| i]; cbn.
  - eexists. reflexivity.
  - destruct (IH i ltac:(lia)) as (r1 & E). rewrite E. eexists. reflexivity.
Qed.

Lemma assign_nth (l l1 : list A) (i j : nat) (a : A) :
  Sound.assign l i a = Some l1 ->
  nth_error l1 j = if Nat.eqb j i then Some a else nth_error l j.
Proof.
  revert i j l1. induction l as [| x rest IH]; intros i j l1 H.
  - discriminate.
  - destruct i as [| i]; cbn in H.
    + inversion H; subst. destruct j; reflexivity.
    + destruct (Sound.assign rest i a) as [r1 |] eqn:E; [| discriminate].
      inversion H; subst. destruct j as [| j]; [reflexivity |].
      cbn. apply (IH i j r1 E).
Qed.

Lemma assign_same (l l1 : list A) (i : nat) (a : A) :
  Sound.assign l i a = Some l1 -> nth_error l1 i = Some a.
Proof. intros H. rewrite (assign_nth l l1 i i a H), Nat.eqb_refl. reflexivity. Qed.

Lemma assign_other (l l1 : list A) (i j : nat) (a : A) :
  Sound.assign l i a = Some l1 -> j <> i -> nth_error l1 j = nth_error l j.
Proof.
  intros H Hn. rewrite (assign_nth l l1 i j a H).
  apply Nat.eqb_neq in Hn. rewrite Hn. reflexivity.
Qed.

Lemma nth_error_total (l : list A) (i : nat) :
  (i < List.length l)%nat -> exists a, nth_error l i = Some a.
Proof.
  intros H. destruct (nth_error l i) as [a |] eqn:E; [eauto |].
  apply nth_error_None in E. lia.
Qed.

End SoundSlices.

Lemma onTimer_length (f : Sound.Timer -> Sound.Timer) (t : nat)
    (l : list Sound.Timer) :
  List.length (Sound.onTimer f t l) = List.length l.
Proof.
  revert t. induction l as [| x rest IH]; intros t; [reflexivity |].
  destruct t; cbn; [reflexivity | rewrite IH; reflexivity].
Qed.

Lemma onTimer_nth (f : Sound.Timer -> Sound.Timer) (t j : nat)
    (l : list Sound.Timer) :
  nth_error (Sound.onTimer f t l) j
  = if Nat.eqb j t then option_map f (nth_error l j) else nth_error l j.
Proof.
  revert t j. induction l as [| x rest IH]; intros t j.
  - cbn. destruct j; destruct (Nat.eqb _ t); reflexivity.
  - destruct t as [| t], j as [| j]; cbn; try reflexivity. apply IH.
Qed.

Lemma onTimer_channels (f : Sound.Timer -> Sound.Timer) (t : nat)
    (l : list Sound.Timer) :
  (forall tm, Sound.channel (f tm) = Sound.channel tm) ->
  Forall (fun tm => (Sound.channel tm < Sound.MaxChannels)%nat) l ->
  Forall (fun tm => (Sound.channel tm < Sound.MaxChannels)%nat)
         (Sound.onTimer f t l).
Proof.
  intros Hf. revert t. induction l as [| x rest IH]; intros t H; [constructor |].
  inversion H as [| x' rest' Hx Hrest]; subst.
  destruct t; cbn; constructor; auto. rewrite Hf. exact Hx.
Qed.

Lemma timerStop_channel (tm : Sound.Timer) :
  Sound.channel (Sound.timerStop tm) = Sound.channel tm.
Proof. unfold Sound.timerStop. destruct (Sound.state tm); reflexivity. Qed.

(** What the search for a free channel returns. *)
Lemma findFree_spec (n i : nat) (flags : list bool) :
  (i + n <= List.length flags)%nat ->
  exists r, Sound.findFree n i flags = Some r
    /\ match r with
       | Some c =>
           (i <= c < i + n)%nat /\ nth_error flags c = Some false
           /\ forall j, (i <= j < c)%nat -> nth_error flags j = Some true
       | None => forall j, (i <= j < i + n)%nat -> nth_error flags j = Some true
       end.
Proof.
  revert i. induction n as [| n IH]; intros i H.
  - exists None. split; [reflexivity |]. intros j Hj. lia.
  - cbn [Sound.findFree]. destruct (nth_error_total flags i ltac:(lia)) as (b & Eb).
    rewrite Eb. cbn [Sound.bind]. destruct b; cbn [negb].
    + destruct (IH (S i) ltac:(lia)) as (r & E & Hr). exists r.
      split; [exact E |]. destruct r as [c |].
      * destruct Hr as (Hc & Hf & Hb).
        split; [lia |]. split; [exact Hf |].
        intros j Hj. destruct (Nat.eq_dec j i) as [-> | Hn]; [exact Eb |].
        apply Hb. lia.
      * intros j Hj. destruct (Nat.eq_dec j i) as [-> | Hn]; [exact Eb |].
        apply Hr. lia.
    + exists (Some i). split; [reflexivity |].
      split; [lia |]. split; [exact Eb |]. intros j Hj. lia.
Qed.

(** A player method on a channel below [MaxChannels]. *)
Lemma onPlayer_spec (m : Sound.Player -> Sound.Player) (ch : nat)
    (s : Sound.SoundEffect) :
  (ch < List.length (Sound.players s))%nat ->
  exists p ps,
    nth_error (Sound.players s) ch = Some p
    /\ Sound.assign (Sound.players s) ch (m p) = Some ps
    /\ Sound.onPlayer m ch s = Some (Sound.set_players ps s).
Proof.
  intros H. unfold Sound.onPlayer.
  destruct (nth_error_total (Sound.players s) ch H) as (p & Ep).
  destruct (assign_total (Sound.players s) ch (m p) H) as (ps & Eps).
  exists p, ps. rewrite Ep. cbn [Sound.bind]. rewrite Eps. auto.
Qed.

Lemma keeps_refl (l : list Sound.Timer) : Sound.keeps l l.
Proof.
  split; [reflexivity |]. intros j tm H. exists tm. auto.
Qed.

Lemma keeps_trans (l l1 l2 : list Sound.Timer) :
  Sound.keeps l l1 -> Sound.keeps l1 l2 -> Sound.keeps l l2.
Proof.
  intros (L1 & K1) (L2 & K2). split; [congruence |].
  intros j tm H. destruct (K1 j tm H) as (tm1 & H1 & C1 & S1).
  destruct (K2 j tm1 H1) as (tm2 & H2 & C2 & S2).
  exists tm2. split; [exact H2 |]. split; [congruence |].
  intros Hn. specialize (S1 Hn). subst tm1. apply S2. exact Hn.
Qed.

Lemma keeps_stop (t : nat) (l : list Sound.Timer) :
  Sound.keeps l (Sound.onTimer Sound.timerStop t l).
Proof.
  split; [apply onTimer_length |].
  intros j tm H. rewrite onTimer_nth, H.
  destruct (Nat.eqb j t).
  - exists (Sound.timerStop tm). split; [reflexivity |].
    split; [apply timerStop_channel |].
    intros Hn. unfold Sound.timerStop.
    destruct (Sound.state tm); try reflexivity. contradiction.
  - exists tm. auto.
Qed.

Lemma keeps_channels (l l1 : list Sound.Timer) :
  Sound.keeps l l1 ->
  Forall (fun tm => (Sound.channel tm < Sound.MaxChannels)%nat) l ->
  Forall (fun tm => (Sound.channel tm < Sound.MaxChannels)%nat) l1.
Proof.
  intros (L & K) H. rewrite Forall_forall in *. intros tm1 Hin.
  apply In_nth_error in Hin. destruct Hin as (j & Hj).
  assert (Hlt : (j < List.length l)%nat).
  { rewrite <- L. apply nth_error_Some. rewrite Hj. discriminate. }
  destruct (nth_error_total l j Hlt) as (tm & Etm).
  destruct (K j tm Etm) as (tm' & E' & C & _).
  rewrite Hj in E'. inversion E'; subst tm'. rewrite C.
  apply H. eapply nth_error_In. exact Etm.
Qed.

Lemma stopTimerOf_spec (ch : nat) (s : Sound.SoundEffect) :
  (ch < List.length (Sound.stopTimers s))%nat ->
  exists ts,
    Sound.stopTimerOf ch s = Some (Sound.set_timers ts s)
    /\ Sound.keeps (Sound.timers s) ts.
Proof.
  intros H. unfold Sound.stopTimerOf.
  destruct (nth_error_total (Sound.stopTimers s) ch H) as (r & Er).
  rewrite Er. cbn [Sound.bind]. destruct r as [t |].
  - eexists. split; [reflexivity | apply keeps_stop].
  - exists (Sound.timers s). split; [| apply keeps_refl].
    destruct s; reflexivity.
Qed.

Lemma assign_assign {A : Type} (l l1 l2 : list A) (i : nat) (a b : A) :
  Sound.assign l i a = Some l1 -> Sound.assign l1 i b = Some l2 ->
  Sound.assign l i b = Some l2.
Proof.
  revert i l1 l2. induction l as [| x rest IH]; intros i l1 l2 H1 H2.
  - discriminate.
  - destruct i as [| i]; cbn in H1.
    + inversion H1; subst. cbn in H2. exact H2.
    + destruct (Sound.assign rest i a) as [r1 |] eqn:E; [| discriminate].
      inversion H1; subst. cbn in H2 |- *.
      destruct (Sound.assign r1 i b) as [r2 |] eqn:E2; [| discriminate].
      rewrite (IH i r1 r2 E E2). exact H2.
Qed.

(** [Play] on an effect of the right shape, in full. *)
Lemma play_spec (s : Sound.SoundEffect) :
  Sound.shaped s ->
  exists ch p ps flags refs ts,
    Sound.play s
    = Some (Sound.mkEffect ps (Sound.volume s) (Sound.pan s) flags refs
              (ts ++ [Sound.mkTimer ch Sound.Waiting]))
    /\ (ch < Sound.MaxChannels)%nat
    /\ (forall j, (j < ch)%nat -> nth_error (Sound.isPlaying s) j = Some true)
    /\ nth_error (Sound.players s) ch = Some p
    /\ ((nth_error (Sound.isPlaying s) ch = Some false
         /\ Sound.assign (Sound.players s) ch (Sound.playerPlay p) = Some ps)
        \/ (ch = O /\ Sound.allBusy s
            /\ Sound.assign (Sound.players s) ch
                 (Sound.playerPlay (Sound.playerRewind (Sound.playerPause p)))
               = Some ps))
    /\ Sound.assign (Sound.isPlaying s) ch true = Some flags
    /\ Sound.assign (Sound.stopTimers s) ch (Some (List.length (Sound.timers s)))
       = Some refs
    /\ Sound.keeps (Sound.timers s) ts.
Proof.
  intros (Lp & Lf & Lr & Ht). unfold Sound.play.
  destruct (findFree_spec Sound.MaxChannels 0 (Sound.isPlaying s)
              ltac:(chlia)) as (r & Ef & Hr).
  rewrite Ef. cbn [Sound.bind]. destruct r as [c |].
  - destruct Hr as (Hc & Hfalse & Hbefore). cbn [Sound.bind].
    destruct (onPlayer_spec Sound.playerPlay c s ltac:(lia)) as (p & ps & Ep & Eps & E1).
    rewrite E1. cbn [Sound.bind Sound.isPlaying Sound.set_players].
    destruct (assign_total (Sound.isPlaying s) c true ltac:(lia)) as (flags & Efl).
    rewrite Efl. cbn [Sound.bind].
    destruct (stopTimerOf_spec c (Sound.set_isPlaying flags (Sound.set_players ps s))
                ltac:(cbn; chlia)) as (ts & E2 & K).
    rewrite E2. cbn [Sound.bind Sound.stopTimers Sound.set_timers Sound.timers
                     Sound.set_isPlaying Sound.set_players].
    destruct (assign_total (Sound.stopTimers s) c (Some (List.length ts))
                ltac:(lia)) as (refs & Er).
    rewrite Er. cbn [Sound.bind].
    exists c, p, ps, flags, refs, ts.
    cbn in K. destruct K as (Kl & K).
    rewrite <- Kl. split; [reflexivity |].
    split; [lia |]. split; [intros j Hj; apply Hbefore; lia |].
    split; [exact Ep |]. split; [left; auto |].
    split; [exact Efl |]. split; [exact Er |]. split; assumption.
  - destruct (stopTimerOf_spec 0 s ltac:(chlia)) as (ts0 & E0 & K0).
    rewrite E0. cbn [Sound.bind].
    destruct (onPlayer_spec Sound.playerPause 0 (Sound.set_timers ts0 s)
                ltac:(cbn; chlia)) as (p & ps1 & Ep & Eps1 & E1).
    rewrite E1. cbn [Sound.bind]. cbn [Sound.players Sound.set_timers] in Ep, Eps1.
    pose proof (assign_length _ _ _ _ Eps1) as Ll1.
    destruct (onPlayer_spec Sound.playerRewind 0
                (Sound.set_players ps1 (Sound.set_timers ts0 s))
                ltac:(cbn; chlia))
      as (p1 & ps2 & Ep1 & Eps2 & E2).
    rewrite E2. cbn [Sound.bind].
    cbn [Sound.players Sound.set_timers Sound.set_players] in Ep1, Eps2.
    rewrite (assign_same _ _ _ _ Eps1) in Ep1. inversion Ep1; subst p1.
    pose proof (assign_assign _ _ _ _ _ _ Eps1 Eps2) as Eps12.
    pose proof (assign_length _ _ _ _ Eps2) as Ll2.
    destruct (onPlayer_spec Sound.playerPlay 0
                (Sound.set_players ps2
                   (Sound.set_players ps1 (Sound.set_timers ts0 s)))
                ltac:(cbn; chlia))
      as (p2 & ps3 & Ep2 & Eps3 & E3).
    rewrite E3. cbn [Sound.bind].
    cbn [Sound.players Sound.set_timers Sound.set_players] in Ep2, Eps3.
    rewrite (assign_same _ _ _ _ Eps2) in Ep2. inversion Ep2; subst p2.
    pose proof (assign_assign _ _ _ _ _ _ Eps12 Eps3) as Eps.
    cbn [Sound.isPlaying Sound.set_players Sound.set_timers].
    destruct (assign_total (Sound.isPlaying s) 0 true ltac:(chlia))
      as (flags & Efl).
    rewrite Efl. cbn [Sound.bind].
    match goal with
    | |- context [Sound.stopTimerOf 0 ?x] =>
        destruct (stopTimerOf_spec 0 x ltac:(cbn; chlia))
          as (ts & E4 & K)
    end.
    rewrite E4. cbn [Sound.bind Sound.stopTimers Sound.set_timers Sound.timers
                     Sound.set_isPlaying Sound.set_players].
    destruct (assign_total (Sound.stopTimers s) 0 (Some (List.length ts))
                ltac:(chlia)) as (refs & Er).
    rewrite Er. cbn [Sound.bind].
    cbn in K. pose proof (keeps_trans _ _ _ K0 K) as K1.
    exists O, p, ps3, flags, refs, ts.
    destruct K1 as (Kl & K1). rewrite <- Kl.
    split; [reflexivity |]. split; [chlia |].
    split; [intros j Hj; lia |]. split; [exact Ep |].
    split; [right; split; [reflexivity |]; split; [| exact Eps] |].
    { intros i Hi. apply Hr. lia. }
    split; [exact Efl |]. split; [exact Er |]. split; assumption.
Qed.

Lemma assign_id {A : Type} (l : list A) (i : nat) (a : A) :
  nth_error l i = Some a -> Sound.assign l i a = Some l.
Proof.
  revert i. induction l as [| x rest IH]; intros i H.
  - destruct i; discriminate.
  - destruct i as [| i]; cbn in H |- *.
    + inversion H; subst. reflexivity.
    + rewrite (IH i H). reflexivity.
Qed.

(** The function of a timer on a channel in use. *)
Lemma callback_spec (ch : nat) (s : Sound.SoundEffect) :
  Sound.shaped s -> (ch < Sound.MaxChannels)%nat ->
  (nth_error (Sound.isPlaying s) ch = Some false -> Sound.callback ch s = Some s)
  /\ (nth_error (Sound.isPlaying s) ch = Some true ->
      exists s1, Sound.callback ch s = Some s1 /\ Sound.silenced ch s s1
                 /\ Sound.timers s1 = Sound.timers s).
Proof.
  intros (Lp & Lf & Lr & Ht) Hch. unfold Sound.callback. split; intros Hb;
    rewrite Hb; cbn [Sound.bind]; [reflexivity |].
  destruct (onPlayer_spec Sound.playerPause ch s ltac:(chlia))
    as (p & ps1 & Ep & Eps1 & E1).
  rewrite E1. cbn [Sound.bind].
  pose proof (assign_length _ _ _ _ Eps1) as Ll1.
  destruct (onPlayer_spec Sound.playerRewind ch (Sound.set_players ps1 s)
              ltac:(cbn; chlia)) as (p1 & ps2 & Ep1 & Eps2 & E2).
  rewrite E2. cbn [Sound.bind].
  cbn [Sound.players Sound.set_players] in Ep1, Eps2.
  rewrite (assign_same _ _ _ _ Eps1) in Ep1. inversion Ep1; subst p1.
  pose proof (assign_assign _ _ _ _ _ _ Eps1 Eps2) as Eps.
  cbn [Sound.isPlaying Sound.set_players].
  destruct (assign_total (Sound.isPlaying s) ch false ltac:(chlia)) as (flags & Efl).
  rewrite Efl. cbn [Sound.bind Sound.stopTimers Sound.set_isPlaying Sound.set_players].
  destruct (assign_total (Sound.stopTimers s) ch None ltac:(chlia)) as (refs & Er).
  rewrite Er. cbn [Sound.bind].
  eexists. split; [reflexivity |]. split; [| reflexivity].
  exists p, ps2, flags, refs, (Sound.timers s).
  repeat split; try assumption; try reflexivity.
  intros j tm H. exists tm. auto.
Qed.

(** One iteration of the loop of [Stop]. *)
Lemma stopChannel_spec (i : nat) (s : Sound.SoundEffect) :
  Sound.shaped s -> (i < Sound.MaxChannels)%nat ->
  (nth_error (Sound.isPlaying s) i = Some false -> Sound.stopChannel i s = Some s)
  /\ (nth_error (Sound.isPlaying s) i = Some true ->
      exists s1, Sound.stopChannel i s = Some s1 /\ Sound.silenced i s s1).
Proof.
  intros (Lp & Lf & Lr & Ht) Hch. unfold Sound.stopChannel. split; intros Hb;
    rewrite Hb; cbn [Sound.bind]; [reflexivity |].
  destruct (nth_error_total (Sound.stopTimers s) i ltac:(chlia)) as (r & Er).
  rewrite Er. cbn [Sound.bind].
  assert (Hr : exists refs ts,
             match r with
             | Some t =>
                 Sound.bind (Sound.assign (Sound.stopTimers s) i None)
                   (fun refs =>
                      Some (Sound.set_stopTimers refs
                              (Sound.set_timers
                                 (Sound.onTimer Sound.timerStop t (Sound.timers s)) s)))
             | None => Some s
             end = Some (Sound.set_stopTimers refs (Sound.set_timers ts s))
             /\ Sound.assign (Sound.stopTimers s) i None = Some refs
             /\ Sound.keeps (Sound.timers s) ts).
  { destruct r as [t |].
    - destruct (assign_total (Sound.stopTimers s) i None ltac:(chlia)) as (refs & E).
      rewrite E. cbn [Sound.bind]. eexists. eexists.
      split; [reflexivity |]. split; [reflexivity | apply keeps_stop].
    - exists (Sound.stopTimers s), (Sound.timers s).
      split; [destruct s; reflexivity |].
      split; [apply assign_id; exact Er | apply keeps_refl]. }
  destruct Hr as (refs & ts & E0 & Erefs & K). rewrite E0. cbn [Sound.bind].
  set (s0 := Sound.set_stopTimers refs (Sound.set_timers ts s)).
  destruct (onPlayer_spec Sound.playerPause i s0 ltac:(cbn; chlia))
    as (p & ps1 & Ep & Eps1 & E1).
  rewrite E1. cbn [Sound.bind].
  cbn [Sound.players Sound.set_players Sound.set_stopTimers Sound.set_timers s0]
    in Ep, Eps1.
  pose proof (assign_length _ _ _ _ Eps1) as Ll1.
  destruct (onPlayer_spec Sound.playerRewind i (Sound.set_players ps1 s0)
              ltac:(cbn; chlia)) as (p1 & ps2 & Ep1 & Eps2 & E2).
  rewrite E2. cbn [Sound.bind].
  cbn [Sound.players Sound.set_players] in Ep1, Eps2.
  rewrite (assign_same _ _ _ _ Eps1) in Ep1. inversion Ep1; subst p1.
  pose proof (assign_assign _ _ _ _ _ _ Eps1 Eps2) as Eps.
  cbn [Sound.isPlaying Sound.set_players Sound.set_stopTimers Sound.set_timers s0].
  destruct (assign_total (Sound.isPlaying s) i false ltac:(chlia)) as (flags & Efl).
  rewrite Efl. cbn [Sound.bind].
  eexists. split; [reflexivity |].
  exists p, ps2, flags, refs, ts.
  repeat split; try assumption; try apply K.
Qed.

(** *** The invariant *)

Lemma newEffect_invariant : Sound.invariant Sound.newEffect.
Proof.
  split.
  - unfold Sound.shaped. cbn. repeat split; constructor.
  - intros j. unfold Sound.chan, Sound.atRest. cbn [Sound.newEffect
      Sound.players Sound.isPlaying Sound.stopTimers].
    intros Hb. split.
    + assert (Hlt : (j < 8)%nat).
      { change 8%nat with (List.length (repeat false Sound.MaxChannels)).
        apply nth_error_Some. rewrite Hb. discriminate. }
      do 8 (destruct j as [| j]; [reflexivity |]). lia.
    + intros p Hp.
      assert (Hin : In p (repeat Sound.newPlayer Sound.MaxChannels))
        by (eapply nth_error_In; exact Hp).
      apply repeat_spec in Hin. subst p. split; reflexivity.
Qed.

(** A step that rewrites one channel and leaves it at rest or in use. *)
Lemma invariant_change (ch : nat) (s s1 : Sound.SoundEffect) :
  Sound.invariant s ->
  Sound.shaped s1 ->
  (forall j, j <> ch -> Sound.chan s1 j = Sound.chan s j) ->
  Sound.atRest (Sound.chan s1 ch) ->
  Sound.invariant s1.
Proof.
  intros (_ & Hr) Hs Ho Hc. split; [exact Hs |].
  intros j. destruct (Nat.eq_dec j ch) as [-> | Hn]; [exact Hc |].
  rewrite (Ho j Hn). apply Hr.
Qed.

Lemma silenced_invariant (ch : nat) (s s1 : Sound.SoundEffect) :
  Sound.invariant s -> Sound.silenced ch s s1 -> Sound.invariant s1.
Proof.
  intros Hi (p & ps & flags & refs & ts & Ep & Eps & Efl & Er & K & E).
  subst s1. pose proof Hi as ((Lp & Lf & Lr & Ht) & _).
  apply (invariant_change ch s); [exact Hi | | |].
  - unfold Sound.shaped. cbn.
    rewrite (assign_length _ _ _ _ Eps), (assign_length _ _ _ _ Efl),
      (assign_length _ _ _ _ Er).
    repeat split; try assumption. apply (keeps_channels _ _ K Ht).
  - intros j Hn. unfold Sound.chan. cbn.
    rewrite (assign_other _ _ _ _ _ Eps Hn), (assign_other _ _ _ _ _ Efl Hn),
      (assign_other _ _ _ _ _ Er Hn). reflexivity.
  - unfold Sound.chan, Sound.atRest. cbn.
    rewrite (assign_same _ _ _ _ Eps), (assign_same _ _ _ _ Er).
    intros _. split; [reflexivity |]. intros p1 H1. inversion H1; subst.
    split; reflexivity.
Qed.

Lemma play_invariant (s s1 : Sound.SoundEffect) :
  Sound.invariant s -> Sound.play s = Some s1 -> Sound.invariant s1.
Proof.
  intros Hi H. pose proof Hi as ((Lp & Lf & Lr & Ht) & _).
  destruct (play_spec s (proj1 Hi))
    as (ch & p & ps & flags & refs & ts & E & Hch & _ & Ep & Hps & Efl & Er & K).
  rewrite E in H. inversion H; subst s1. clear H.
  assert (Eps : exists q, Sound.assign (Sound.players s) ch q = Some ps)
    by (destruct Hps as [(_ & Hq) | (_ & _ & Hq)]; eauto).
  destruct Eps as (q & Eps).
  apply (invariant_change ch s); [exact Hi | | |].
  - unfold Sound.shaped. cbn.
    rewrite (assign_length _ _ _ _ Eps), (assign_length _ _ _ _ Efl),
      (assign_length _ _ _ _ Er).
    repeat split; try assumption. apply Forall_app. split.
    + apply (keeps_channels _ _ K Ht).
    + constructor; [exact Hch | constructor].
  - intros j Hn. unfold Sound.chan. cbn.
    rewrite (assign_other _ _ _ _ _ Eps Hn), (assign_other _ _ _ _ _ Efl Hn),
      (assign_other _ _ _ _ _ Er Hn). reflexivity.
  - unfold Sound.chan, Sound.atRest. cbn.
    rewrite (assign_same _ _ _ _ Efl). discriminate.
Qed.

Lemma timers_invariant (ts : list Sound.Timer) (s : Sound.SoundEffect) :
  Sound.invariant s ->
  Forall (fun tm => (Sound.channel tm < Sound.MaxChannels)%nat) ts ->
  Sound.invariant (Sound.set_timers ts s).
Proof.
  intros ((Lp & Lf & Lr & Ht) & Hr) H. split.
  - unfold Sound.shaped. cbn. auto.
  - intros j. exact (Hr j).
Qed.

Lemma players_invariant (ps : list Sound.Player) (s : Sound.SoundEffect) :
  Sound.invariant s ->
  List.length ps = List.length (Sound.players s) ->
  (forall j p1, nth_error ps j = Some p1 ->
     nth_error (Sound.isPlaying s) j = Some false ->
     exists p, nth_error (Sound.players s) j = Some p
               /\ Sound.running p1 = Sound.running p
               /\ Sound.position p1 = Sound.position p) ->
  Sound.invariant (Sound.set_players ps s).
Proof.
  intros ((Lp & Lf & Lr & Ht) & Hr) Hl Hp. split.
  - unfold Sound.shaped. cbn. rewrite Hl. auto.
  - intros j. specialize (Hr j). unfold Sound.chan, Sound.atRest in *. cbn.
    intros Hb. destruct (Hr Hb) as (R1 & R2). split; [exact R1 |].
    intros p1 H1. destruct (Hp j p1 H1 Hb) as (p & Ep & Er & Epos).
    destruct (R2 p Ep) as (A & B). split; congruence.
Qed.

Lemma run_spec (t : nat) (s s1 : Sound.SoundEffect) :
  Sound.invariant s -> Sound.run t s = Some s1 -> Sound.invariant s1.
Proof.
  intros Hi H. unfold Sound.run in H.
  destruct (nth_error (Sound.timers s) t) as [tm |] eqn:Et;
    [| inversion H; subst; exact Hi].
  destruct (Sound.state tm) eqn:Est; try (inversion H; subst; exact Hi).
  pose proof Hi as ((Lp & Lf & Lr & Ht) & _).
  assert (Hch : (Sound.channel tm < Sound.MaxChannels)%nat).
  { rewrite Forall_forall in Ht. apply Ht. eapply nth_error_In. exact Et. }
  set (s0 := Sound.set_timers
               (Sound.onTimer (fun tm0 => Sound.mkTimer (Sound.channel tm0)
                                            Sound.Finished) t (Sound.timers s)) s)
    in *.
  assert (Hi0 : Sound.invariant s0).
  { apply timers_invariant; [exact Hi |].
    apply onTimer_channels; [reflexivity | exact Ht]. }
  destruct (callback_spec (Sound.channel tm) s0 (proj1 Hi0) Hch) as (C0 & C1).
  destruct (nth_error_total (Sound.isPlaying s0) (Sound.channel tm)
              ltac:(cbn; chlia)) as (b & Eb).
  destruct b.
  - destruct (C1 Eb) as (s2 & E2 & Hs & _). rewrite E2 in H.
    inversion H; subst. apply (silenced_invariant _ _ _ Hi0 Hs).
  - rewrite (C0 Eb) in H. inversion H; subst. exact Hi0.
Qed.

Lemma stopChannel_step (i : nat) (s : Sound.SoundEffect) :
  Sound.invariant s -> (i < Sound.MaxChannels)%nat ->
  exists s1,
    Sound.stopChannel i s = Some s1 /\ Sound.invariant s1
    /\ Sound.volume s1 = Sound.volume s /\ Sound.pan s1 = Sound.pan s
    /\ Sound.keeps (Sound.timers s) (Sound.timers s1)
    /\ nth_error (Sound.isPlaying s1) i = Some false
    /\ (forall j, j <> i -> Sound.chan s1 j = Sound.chan s j)
    /\ (forall j, option_map Sound.gain (nth_error (Sound.players s1) j)
                  = option_map Sound.gain (nth_error (Sound.players s) j)).
Proof.
  intros Hi Hch. pose proof Hi as ((Lp & Lf & Lr & Ht) & _).
  destruct (stopChannel_spec i s (proj1 Hi) Hch) as (C0 & C1).
  destruct (nth_error_total (Sound.isPlaying s) i ltac:(chlia)) as (b & Eb).
  destruct b.
  - destruct (C1 Eb) as (s1 & E & Hs). exists s1. split; [exact E |].
    split; [apply (silenced_invariant _ _ _ Hi Hs) |].
    destruct Hs as (p & ps & flags & refs & ts & Ep & Eps & Efl & Er & K & E1).
    subst s1. cbn. conjs; try assumption; try reflexivity.
    + apply (assign_same _ _ _ _ Efl).
    + intros j Hn. unfold Sound.chan. cbn.
      rewrite (assign_other _ _ _ _ _ Eps Hn), (assign_other _ _ _ _ _ Efl Hn),
        (assign_other _ _ _ _ _ Er Hn). reflexivity.
    + intros j. rewrite (assign_nth _ _ _ j _ Eps).
      destruct (Nat.eqb j i) eqn:Ej; [| reflexivity].
      apply Nat.eqb_eq in Ej. subst j. rewrite Ep. reflexivity.
  - exists s. rewrite (C0 Eb). conjs; auto using keeps_refl.
Qed.

Lemma stopFrom_spec (n i : nat) (s : Sound.SoundEffect) :
  Sound.invariant s -> (i + n <= Sound.MaxChannels)%nat ->
  exists s1,
    Sound.stopFrom n i s = Some s1 /\ Sound.invariant s1
    /\ Sound.volume s1 = Sound.volume s /\ Sound.pan s1 = Sound.pan s
    /\ Sound.keeps (Sound.timers s) (Sound.timers s1)
    /\ (forall j, (i <= j < i + n)%nat ->
                  nth_error (Sound.isPlaying s1) j = Some false)
    /\ (forall j, ~ (i <= j < i + n)%nat -> Sound.chan s1 j = Sound.chan s j)
    /\ (forall j, option_map Sound.gain (nth_error (Sound.players s1) j)
                  = option_map Sound.gain (nth_error (Sound.players s) j)).
Proof.
  revert i s. induction n as [| n IH]; intros i s Hi Hn.
  - exists s. cbn. conjs; auto using keeps_refl.
    intros j Hj. lia.
  - cbn [Sound.stopFrom].
    destruct (stopChannel_step i s Hi ltac:(lia))
      as (s1 & E1 & Hi1 & V1 & P1 & K1 & F1 & O1 & G1).
    rewrite E1. cbn [Sound.bind].
    destruct (IH (S i) s1 Hi1 ltac:(lia))
      as (s2 & E2 & Hi2 & V2 & P2 & K2 & F2 & O2 & G2).
    exists s2. split; [exact E2 |]. split; [exact Hi2 |].
    split; [congruence |]. split; [congruence |].
    split; [apply (keeps_trans _ _ _ K1 K2) |].
    split; [| split].
    + intros j Hj. destruct (Nat.eq_dec j i) as [-> | Hne].
      * assert (Hc : Sound.chan s2 i = Sound.chan s1 i) by (apply O2; lia).
        unfold Sound.chan in Hc. inversion Hc as [[Hp Hf Hr]].
        rewrite Hf. exact F1.
      * apply F2. lia.
    + intros j Hj. rewrite (O2 j ltac:(lia)). apply O1. lia.
    + intros j. rewrite G2. apply G1.
Qed.

Lemma setVolume_invariant (v : float) (s : Sound.SoundEffect) :
  Sound.invariant s -> Sound.invariant (Sound.setVolume v s).
Proof.
  intros Hi. unfold Sound.setVolume.
  assert (H0 : Sound.invariant (Sound.set_volume v s)).
  { destruct Hi as ((Lp & Lf & Lr & Ht) & Hr). split.
    - unfold Sound.shaped. cbn. auto.
    - intros j. exact (Hr j). }
  apply players_invariant; [exact H0 | cbn; apply length_map |].
  intros j p1 H1 _. cbn [Sound.players Sound.set_volume].
  rewrite nth_error_map in H1.
  destruct (nth_error (Sound.players s) j) as [p |]; [| discriminate].
  inversion H1; subst. exists p. auto.
Qed.

Lemma elapse_invariant (ch d : nat) (s : Sound.SoundEffect) :
  Sound.invariant s -> Sound.invariant (Sound.elapse ch d s).
Proof.
  intros Hi. unfold Sound.elapse.
  destruct (nth_error (Sound.players s) ch) as [p |] eqn:Ep; [| exact Hi].
  destruct (Sound.running p) eqn:Er; [| exact Hi].
  destruct (Sound.assign (Sound.players s) ch _) as [ps |] eqn:Eps; [| exact Hi].
  apply players_invariant; [exact Hi | apply (assign_length _ _ _ _ Eps) |].
  intros j p1 H1 Hb. rewrite (assign_nth _ _ _ j _ Eps) in H1.
  destruct (Nat.eqb j ch) eqn:Ej.
  - apply Nat.eqb_eq in Ej. subst j. exfalso.
    destruct Hi as (_ & Hr). specialize (Hr ch).
    unfold Sound.chan, Sound.atRest in Hr. destruct (Hr Hb) as (_ & R).
    destruct (R p Ep) as (A & _). congruence.
  - exists p1. auto.
Qed.

Lemma finish_invariant (ch : nat) (s : Sound.SoundEffect) :
  Sound.invariant s -> Sound.invariant (Sound.finish ch s).
Proof.
  intros Hi. unfold Sound.finish.
  destruct (nth_error (Sound.players s) ch) as [p |] eqn:Ep; [| exact Hi].
  destruct (Sound.running p) eqn:Er; [| exact Hi].
  destruct (Sound.assign (Sound.players s) ch _) as [ps |] eqn:Eps; [| exact Hi].
  apply players_invariant; [exact Hi | apply (assign_length _ _ _ _ Eps) |].
  intros j p1 H1 Hb. rewrite (assign_nth _ _ _ j _ Eps) in H1.
  destruct (Nat.eqb j ch) eqn:Ej.
  - apply Nat.eqb_eq in Ej. subst j. exfalso.
    destruct Hi as (_ & Hr). specialize (Hr ch).
    unfold Sound.chan, Sound.atRest in Hr. destruct (Hr Hb) as (_ & R).
    destruct (R p Ep) as (A & _). congruence.
  - exists p1. auto.
Qed.

Lemma step_invariant (ev : Sound.Event) (s s1 : Sound.SoundEffect) :
  Sound.invariant s -> Sound.step ev s = Some s1 -> Sound.invariant s1.
Proof.
  intros Hi H. destruct ev as [| | v | p | t | t | ch d | ch]; cbn [Sound.step] in H.
  - apply (play_invariant s s1 Hi H).
  - unfold Sound.stop in H.
    destruct (stopFrom_spec Sound.MaxChannels 0 s Hi ltac:(lia))
      as (s2 & E & Hi2 & _).
    rewrite E in H. inversion H; subst. exact Hi2.
  - inversion H; subst. apply setVolume_invariant. exact Hi.
  - inversion H; subst. destruct Hi as ((Lp & Lf & Lr & Ht) & Hr). split.
    + unfold Sound.shaped. cbn. auto.
    + intros j. exact (Hr j).
  - inversion H; subst. unfold Sound.expire. apply timers_invariant; [exact Hi |].
    apply onTimer_channels; [| apply Hi].
    intros tm. destruct (Sound.state tm); reflexivity.
  - apply (run_spec t s s1 Hi H).
  - inversion H; subst. apply elapse_invariant. exact Hi.
  - inversion H; subst. apply finish_invariant. exact Hi.
Qed.

Lemma Reachable_invariant (s : Sound.SoundEffect) :
  Sound.Reachable s -> Sound.invariant s.
Proof.
  induction 1 as [| ev s s1 Hr IH Hs]; [apply newEffect_invariant |].
  apply (step_invariant ev s s1 IH Hs).
Qed.

Lemma step_total (ev : Sound.Event) (s : Sound.SoundEffect) :
  Sound.invariant s -> exists s1, Sound.step ev s = Some s1.
Proof.
  intros Hi. destruct ev as [| | v | p | t | t | ch d | ch]; cbn [Sound.step];
    try (eexists; reflexivity).
  - destruct (play_spec s (proj1 Hi)) as (ch & p & ps & fl & refs & ts & E & _).
    eexists. exact E.
  - destruct (stopFrom_spec Sound.MaxChannels 0 s Hi ltac:(lia)) as (s2 & E & _).
    exists s2. exact E.
  - unfold Sound.run.
    destruct (nth_error (Sound.timers s) t) as [tm |] eqn:Et;
      [| eexists; reflexivity].
    destruct (Sound.state tm) eqn:Est; try (eexists; reflexivity).
    pose proof Hi as ((Lp & Lf & Lr & Ht) & _).
    assert (Hch : (Sound.channel tm < Sound.MaxChannels)%nat).
    { rewrite Forall_forall in Ht. apply Ht. eapply nth_error_In. exact Et. }
    match goal with
    | |- context [Sound.callback _ ?x] => set (s0 := x)
    end.
    assert (Hs0 : Sound.shaped s0).
    { unfold Sound.shaped, s0. cbn. repeat split; try assumption.
      apply onTimer_channels; [reflexivity | exact Ht]. }
    destruct (callback_spec (Sound.channel tm) s0 Hs0 Hch) as (C0 & C1).
    destruct (nth_error_total (Sound.isPlaying s0) (Sound.channel tm)
                ltac:(cbn; chlia)) as (b & Eb).
    destruct b.
    + destruct (C1 Eb) as (s2 & E2 & _). exists s2. exact E2.
    + exists s0. apply (C0 Eb).
Qed.

Lemma steps_Reachable (evs : list Sound.Event) (s s1 : Sound.SoundEffect) :
  Sound.Reachable s -> Sound.steps evs s = Some s1 -> Sound.Reachable s1.
Proof.
  revert s. induction evs as [| ev rest IH]; intros s Hr H.
  - cbn in H. inversion H; subst. exact Hr.
  - cbn [Sound.steps] in H.
    destruct (Sound.step ev s) as [s2 |] eqn:E; [| discriminate].
    cbn [Sound.bind] in H. apply (IH s2); [| exact H].
    apply (Sound.reach_step ev s s2 Hr E).
Qed.

(** *** Counting the channels in use *)

Lemma busy_assign (flags flags1 : list bool) (ch : nat) :
  Sound.assign flags ch true = Some flags1 ->
  List.length (filter (fun b => b) flags1)
  = match nth_error flags ch with
    | Some false => S (List.length (filter (fun b => b) flags))
    | _ => List.length (filter (fun b => b) flags)
    end.
Proof.
  revert ch flags1. induction flags as [| b rest IH]; intros ch flags1 H.
  - discriminate.
  - destruct ch as [| ch]; cbn in H.
    + inversion H; subst. destruct b; reflexivity.
    + destruct (Sound.assign rest ch true) as [r1 |] eqn:E; [| discriminate].
      inversion H; subst. cbn [nth_error filter]. specialize (IH ch r1 E).
      destruct b; cbn [List.length]; rewrite IH;
        destruct (nth_error rest ch) as [[|] |]; reflexivity.
Qed.

(** *** The manager's map *)

Lemma lookup_store_same (name : string) (s : Sound.SoundEffect)
    (m : list (string * Sound.SoundEffect)) :
  Sound.lookup name (Sound.store name s m) = Some s.
Proof.
  induction m as [| [n s0] rest IH]; cbn.
  - rewrite String.eqb_refl. reflexivity.
  - destruct (String.eqb n name) eqn:E; cbn; rewrite E; [reflexivity | exact IH].
Qed.

Lemma lookup_store_other (name other : string) (s : Sound.SoundEffect)
    (m : list (string * Sound.SoundEffect)) :
  other <> name ->
  Sound.lookup other (Sound.store name s m) = Sound.lookup other m.
Proof.
  intros Hn. induction m as [| [n s0] rest IH]; cbn.
  - destruct (String.eqb name other) eqn:E; [| reflexivity].
    apply String.eqb_eq in E. congruence.
  - destruct (String.eqb n name) eqn:E; cbn.
    + apply String.eqb_eq in E. subst n.
      destruct (String.eqb name other) eqn:E2; [| reflexivity].
      apply String.eqb_eq in E2. congruence.
    + rewrite IH. reflexivity.
Qed.

Lemma withSound_spec (name : string)
    (body : Sound.SoundEffect -> option Sound.SoundEffect)
    (sm sm1 : Sound.SoundManager) :
  Sound.withSound name body sm = Some sm1 ->
  (Sound.lookup name (Sound.sounds sm) = None -> sm1 = sm)
  /\ (forall other, other <> name ->
        Sound.lookup other (Sound.sounds sm1) = Sound.lookup other (Sound.sounds sm))
  /\ (forall s, Sound.lookup name (Sound.sounds sm) = Some s ->
        exists s1, body s = Some s1
                   /\ Sound.lookup name (Sound.sounds sm1) = Some s1).
Proof.
  unfold Sound.withSound. intros H.
  destruct (Sound.lookup name (Sound.sounds sm)) as [s |] eqn:El.
  - destruct (body s) as [s1 |] eqn:Eb; [| discriminate].
    cbn [Sound.bind] in H. inversion H; subst. cbn [Sound.sounds].
    split; [discriminate |]. split.
    + intros other Hn. apply lookup_store_other. exact Hn.
    + intros s0 H0. inversion H0; subst. exists s1.
      split; [exact Eb | apply lookup_store_same].
  - inversion H; subst. split; [reflexivity |]. split; [reflexivity |].
    discriminate.
Qed.
Lemma repeat_nth {A : Type} (a : A) (n : nat) (l : list A) :
  List.length l = n ->
  (forall j, (j < n)%nat -> nth_error l j = Some a) ->
  l = repeat a n.
Proof.
  revert l. induction n as [| n IH]; intros l Hl H.
  - destruct l; [reflexivity | discriminate].
  - destruct l as [| x rest]; [discriminate |]. cbn.
    pose proof (H O ltac:(lia)) as H0. cbn in H0. inversion H0; subst x.
    f_equal. apply IH; [cbn in Hl; lia |].
    intros j Hj. apply (H (S j)). lia.
Qed.

(** From a new effect on, no method, no timer function and no passing of
    time stops on an index out of range: every step returns an effect, which
    can be stepped again. *)
Theorem sound_steps_never_panic (s : Sound.SoundEffect) (ev : Sound.Event) :
  Sound.Reachable s ->
  exists s1, Sound.step ev s = Some s1 /\ Sound.Reachable s1.
Proof.
  intros Hr. destruct (step_total ev s (Reachable_invariant s Hr)) as (s1 & E).
  exists s1. split; [exact E | apply (Sound.reach_step ev s s1 Hr E)].
Qed.

Lemma sound_steps_never_panic_witness :
  exists s1, Sound.step Sound.EvPlay Sound.newEffect = Some s1
             /\ Sound.Reachable s1.
Proof.
  apply (sound_steps_never_panic Sound.newEffect Sound.EvPlay).
  apply Sound.reach_new.
Defined.

(** In every effect reachable from a new one the three slices keep their
    eight elements, and a channel whose flag is down has no timer and a
    player paused at the start of the sample. *)
Theorem idle_channels_are_at_rest (s : Sound.SoundEffect) :
  Sound.Reachable s ->
  Sound.shaped s /\ Sound.idleRewound s /\ Sound.idleUnarmed s.
Proof.
  intros Hr. destruct (Reachable_invariant s Hr) as (Hs & Hc).
  split; [exact Hs |]. split.
  - intros i p Hb Hp. specialize (Hc i). unfold Sound.chan, Sound.atRest in Hc.
    destruct (Hc Hb) as (_ & R). apply R. exact Hp.
  - intros i Hb. specialize (Hc i). unfold Sound.chan, Sound.atRest in Hc.
    apply (Hc Hb).
Qed.

Lemma trio_runs : exists s, Sound.trio = Some s.
Proof. vm_compute. eexists. reflexivity. Qed.

Lemma trio_Reachable (s : Sound.SoundEffect) :
  Sound.trio = Some s -> Sound.Reachable s.
Proof.
  unfold Sound.trio. apply steps_Reachable. apply Sound.reach_new.
Qed.

Lemma idle_channels_are_at_rest_witness :
  match Sound.trio with
  | Some s => Sound.shaped s /\ Sound.idleRewound s /\ Sound.idleUnarmed s
  | None => False
  end.
Proof.
  destruct trio_runs as (s & E). rewrite E.
  apply (idle_channels_are_at_rest s). apply trio_Reachable. exact E.
Defined.

(** [Play] on a reachable effect takes the lowest channel whose flag is
    down, and channel 0 when all eight are up: that channel's player plays
    from the start of the sample, its flag is up, its timer reference is a
    new waiting timer for it; no other channel changes, and the number of
    channels in use grows by one, or stays at eight. *)
Theorem play_takes_lowest_idle_channel (s : Sound.SoundEffect) :
  Sound.Reachable s ->
  exists ch s1 p1,
    Sound.play s = Some s1
    /\ (ch < Sound.MaxChannels)%nat
    /\ (forall j, (j < ch)%nat -> nth_error (Sound.isPlaying s) j = Some true)
    /\ ((nth_error (Sound.isPlaying s) ch = Some false
         /\ Sound.busy s1 = S (Sound.busy s))
        \/ (ch = O /\ Sound.allBusy s /\ Sound.busy s1 = Sound.busy s))
    /\ nth_error (Sound.isPlaying s1) ch = Some true
    /\ nth_error (Sound.players s1) ch = Some p1
    /\ Sound.running p1 = true /\ Sound.position p1 = O
    /\ (forall j, j <> ch -> Sound.chan s1 j = Sound.chan s j)
    /\ nth_error (Sound.stopTimers s1) ch
       = Some (Some (List.length (Sound.timers s)))
    /\ nth_error (Sound.timers s1) (List.length (Sound.timers s))
       = Some (Sound.mkTimer ch Sound.Waiting)
    /\ Sound.volume s1 = Sound.volume s /\ Sound.pan s1 = Sound.pan s.
Proof.
  intros Hr. pose proof (Reachable_invariant s Hr) as Hi.
  destruct (play_spec s (proj1 Hi))
    as (ch & p & ps & flags & refs & ts & E & Hch & Hlow & Ep & Hps & Efl & Er & K).
  assert (Eq : exists q, Sound.assign (Sound.players s) ch q = Some ps
                         /\ Sound.running q = true /\ Sound.position q = O).
  { destruct Hps as [(Hb & Hq) | (_ & _ & Hq)].
    - exists (Sound.playerPlay p). split; [exact Hq |]. split; [reflexivity |].
      destruct Hi as (_ & Hc). specialize (Hc ch).
      unfold Sound.chan, Sound.atRest in Hc. destruct (Hc Hb) as (_ & R).
      destruct (R p Ep) as (_ & Hpos). exact Hpos.
    - eexists. split; [exact Hq |]. split; reflexivity. }
  destruct Eq as (q & Eq & Hrun & Hpos).
  eexists ch, _, q. split; [exact E |]. cbn.
  pose proof (busy_assign _ _ _ Efl) as Hb.
  split; [exact Hch |]. split; [exact Hlow |].
  split.
  { destruct Hps as [(Hf & _) | (H0 & Hall & _)].
    - left. split; [exact Hf |]. unfold Sound.busy. cbn. rewrite Hb, Hf.
      reflexivity.
    - right. split; [exact H0 |]. split; [exact Hall |].
      unfold Sound.busy. cbn. rewrite Hb, (Hall ch Hch). reflexivity. }
  split; [apply (assign_same _ _ _ _ Efl) |].
  split; [apply (assign_same _ _ _ _ Eq) |].
  split; [exact Hrun |]. split; [exact Hpos |].
  split.
  { intros j Hn. unfold Sound.chan. cbn.
    rewrite (assign_other _ _ _ _ _ Eq Hn), (assign_other _ _ _ _ _ Efl Hn),
      (assign_other _ _ _ _ _ Er Hn). reflexivity. }
  split; [apply (assign_same _ _ _ _ Er) |].
  split; [| split; reflexivity].
  destruct K as (Kl & _). rewrite <- Kl.
  rewrite nth_error_app2 by lia. rewrite Nat.sub_diag. reflexivity.
Qed.

Lemma play_takes_lowest_idle_channel_witness :
  match Sound.trio with
  | Some s =>
      exists ch s1 p1,
        Sound.play s = Some s1
        /\ (ch < Sound.MaxChannels)%nat
        /\ (forall j, (j < ch)%nat -> nth_error (Sound.isPlaying s) j = Some true)
        /\ ((nth_error (Sound.isPlaying s) ch = Some false
             /\ Sound.busy s1 = S (Sound.busy s))
            \/ (ch = O /\ Sound.allBusy s /\ Sound.busy s1 = Sound.busy s))
        /\ nth_error (Sound.isPlaying s1) ch = Some true
        /\ nth_error (Sound.players s1) ch = Some p1
        /\ Sound.running p1 = true /\ Sound.position p1 = O
        /\ (forall j, j <> ch -> Sound.chan s1 j = Sound.chan s j)
        /\ nth_error (Sound.stopTimers s1) ch
           = Some (Some (List.length (Sound.timers s)))
        /\ nth_error (Sound.timers s1) (List.length (Sound.timers s))
           = Some (Sound.mkTimer ch Sound.Waiting)
        /\ Sound.volume s1 = Sound.volume s /\ Sound.pan s1 = Sound.pan s
  | None => False
  end.
Proof.
  destruct trio_runs as (s & E). rewrite E.
  apply (play_takes_lowest_idle_channel s). apply trio_Reachable. exact E.
Defined.

(** [Stop] on a reachable effect returns with every flag down, every timer
    reference nil and every player paused at the start of the sample; the
    volumes, the pan and the timers that were not waiting are as before. *)
Theorem stop_silences_every_channel (s : Sound.SoundEffect) :
  Sound.Reachable s ->
  exists s1,
    Sound.stop s = Some s1
    /\ Sound.isPlaying s1 = repeat false Sound.MaxChannels
    /\ Sound.stopTimers s1 = repeat None Sound.MaxChannels
    /\ Forall (fun p => Sound.running p = false /\ Sound.position p = O)
         (Sound.players s1)
    /\ map Sound.gain (Sound.players s1) = map Sound.gain (Sound.players s)
    /\ Sound.volume s1 = Sound.volume s /\ Sound.pan s1 = Sound.pan s
    /\ Sound.keeps (Sound.timers s) (Sound.timers s1).
Proof.
  intros Hr. pose proof (Reachable_invariant s Hr) as Hi.
  destruct (stopFrom_spec Sound.MaxChannels 0 s Hi ltac:(lia))
    as (s1 & E & Hi1 & V & P & K & F & _ & G).
  exists s1. split; [exact E |].
  pose proof Hi1 as ((Lp & Lf & Lr & Ht) & Hc).
  split; [apply (repeat_nth false _ _ Lf); intros j Hj; apply F; lia |].
  split.
  { apply (repeat_nth None _ _ Lr). intros j Hj.
    specialize (Hc j). unfold Sound.chan, Sound.atRest in Hc.
    apply Hc. apply F. lia. }
  split.
  { apply Forall_forall. intros p Hin. apply In_nth_error in Hin.
    destruct Hin as (j & Hj).
    assert (Hlt : (j < Sound.MaxChannels)%nat).
    { rewrite <- Lp. apply nth_error_Some. rewrite Hj. discriminate. }
    specialize (Hc j). unfold Sound.chan, Sound.atRest in Hc.
    destruct (Hc (F j ltac:(lia))) as (_ & R). apply R. exact Hj. }
  split.
  { apply nth_error_ext. intros j. rewrite !nth_error_map. apply G. }
  conjs; assumption.
Qed.

Lemma stop_silences_every_channel_witness :
  match Sound.trio with
  | Some s =>
      exists s1,
        Sound.stop s = Some s1
        /\ Sound.isPlaying s1 = repeat false Sound.MaxChannels
        /\ Sound.stopTimers s1 = repeat None Sound.MaxChannels
        /\ Forall (fun p => Sound.running p = false /\ Sound.position p = O)
             (Sound.players s1)
        /\ map Sound.gain (Sound.players s1) = map Sound.gain (Sound.players s)
        /\ Sound.volume s1 = Sound.volume s /\ Sound.pan s1 = Sound.pan s
        /\ Sound.keeps (Sound.timers s) (Sound.timers s1)
  | None => False
  end.
Proof.
  destruct trio_runs as (s & E). rewrite E.
  apply (stop_silences_every_channel s). apply trio_Reachable. exact E.
Defined.

(** A timer that has expired is not cancelled by [Play]: when all eight
    channels are in use and the timer of channel 0 has expired without its
    function having run, [Play] restarts channel 0, and the function, once
    it runs, stops channel 0 again and clears the reference to the timer
    that [Play] has just armed, which is left waiting. *)
Theorem expired_timer_silences_restarted_channel (s0 : Sound.SoundEffect)
    (t : nat) :
  Sound.Reachable s0 ->
  Sound.allBusy s0 ->
  nth_error (Sound.timers s0) t = Some (Sound.mkTimer 0 Sound.Expired) ->
  exists s s1,
    Sound.play s0 = Some s /\ Sound.run t s = Some s1
    /\ nth_error (Sound.isPlaying s) 0 = Some true
    /\ nth_error (Sound.stopTimers s) 0
       = Some (Some (List.length (Sound.timers s0)))
    /\ nth_error (Sound.isPlaying s1) 0 = Some false
    /\ nth_error (Sound.stopTimers s1) 0 = Some None
    /\ nth_error (Sound.timers s1) (List.length (Sound.timers s0))
       = Some (Sound.mkTimer 0 Sound.Waiting).
Proof.
  intros Hr Hall Ht. pose proof (Reachable_invariant s0 Hr) as Hi.
  destruct (play_spec s0 (proj1 Hi))
    as (ch & p & ps & flags & refs & ts & E & Hch & Hlow & Ep & Hps & Efl & Er & K).
  assert (H0 : ch = O).
  { destruct Hps as [(Hf & _) | (H0 & _)]; [| exact H0].
    rewrite (Hall ch Hch) in Hf. discriminate. }
  subst ch.
  set (s := Sound.mkEffect ps (Sound.volume s0) (Sound.pan s0) flags refs
              (ts ++ [Sound.mkTimer 0 Sound.Waiting])) in *.
  assert (His : Sound.invariant s)
    by (apply (play_invariant s0 s Hi E)).
  destruct K as (Kl & K).
  destruct (K t _ Ht) as (tm1 & Etm1 & _ & Hsame).
  specialize (Hsame ltac:(discriminate)). subst tm1.
  assert (Htl : (t < List.length ts)%nat).
  { apply nth_error_Some. rewrite Etm1. discriminate. }
  assert (Et : nth_error (Sound.timers s) t = Some (Sound.mkTimer 0 Sound.Expired)).
  { unfold s. cbn. rewrite nth_error_app1 by exact Htl. exact Etm1. }
  exists s. unfold Sound.run. rewrite Et. cbn [Sound.state Sound.channel].
  match goal with
  | |- context [Sound.callback 0 ?x] => set (s2 := x)
  end.
  assert (Hs2 : Sound.shaped s2).
  { destruct His as ((Lp & Lf & Lr & Hts) & _).
    unfold Sound.shaped, s2. cbn. repeat split; try assumption.
    apply onTimer_channels; [reflexivity | exact Hts]. }
  destruct (callback_spec 0 s2 Hs2 ltac:(chlia)) as (_ & C1).
  assert (Eb : nth_error (Sound.isPlaying s2) 0 = Some true)
    by (apply (assign_same _ _ _ _ Efl)).
  destruct (C1 Eb) as (s1 & E1 & Hsil & Htm).
  exists s1. split; [exact E |]. split; [exact E1 |].
  split; [apply (assign_same _ _ _ _ Efl) |].
  split; [apply (assign_same _ _ _ _ Er) |].
  destruct Hsil as (p0 & ps0 & fl0 & rf0 & ts0 & _ & _ & Efl0 & Er0 & _ & Es1).
  split; [subst s1; apply (assign_same _ _ _ _ Efl0) |].
  split; [subst s1; apply (assign_same _ _ _ _ Er0) |].
  rewrite Htm. unfold s2. cbn. rewrite onTimer_nth.
  replace (Nat.eqb (List.length (Sound.timers s0)) t) with false
    by (symmetry; apply Nat.eqb_neq; lia).
  rewrite <- Kl. rewrite nth_error_app2 by lia. rewrite Nat.sub_diag. reflexivity.
Qed.

Lemma crowded_runs :
  exists s, Sound.crowded = Some s
            /\ Sound.isPlaying s = repeat true 8
            /\ nth_error (Sound.timers s) 0 = Some (Sound.mkTimer 0 Sound.Expired).
Proof. vm_compute. eexists. split; [reflexivity |]. split; reflexivity. Qed.

Lemma crowded_Reachable (s : Sound.SoundEffect) :
  Sound.crowded = Some s -> Sound.Reachable s.
Proof.
  unfold Sound.crowded. apply steps_Reachable. apply Sound.reach_new.
Qed.

Lemma expired_timer_silences_restarted_channel_witness :
  match Sound.crowded with
  | Some s0 =>
      exists s s1,
        Sound.play s0 = Some s /\ Sound.run 0 s = Some s1
        /\ nth_error (Sound.isPlaying s) 0 = Some true
        /\ nth_error (Sound.stopTimers s) 0
           = Some (Some (List.length (Sound.timers s0)))
        /\ nth_error (Sound.isPlaying s1) 0 = Some false
        /\ nth_error (Sound.stopTimers s1) 0 = Some None
        /\ nth_error (Sound.timers s1) (List.length (Sound.timers s0))
           = Some (Sound.mkTimer 0 Sound.Waiting)
  | None => False
  end.
Proof.
  destruct crowded_runs as (s0 & E & Hf & Ht). rewrite E.
  apply (expired_timer_silences_restarted_channel s0 0).
  - apply crowded_Reachable. exact E.
  - intros i Hi. rewrite Hf. unfold Sound.MaxChannels in Hi.
    do 8 (destruct i as [| i]; [reflexivity |]). lia.
  - exact Ht.
Defined.

(** [Play], [Stop], [SetVolume] and [SetPan] touch the named sound only:
    a call that returns leaves every other name with the effect it had, and
    a call with a name that was never loaded changes nothing. *)
Theorem methods_touch_only_the_named_sound (name : string) (v : float)
    (sm sm1 : Sound.SoundManager) :
  Sound.Play name sm = Some sm1 \/ Sound.Stop name sm = Some sm1
  \/ Sound.SetVolume name v sm = Some sm1 \/ Sound.SetPan name v sm = Some sm1 ->
  (Sound.lookup name (Sound.sounds sm) = None -> sm1 = sm)
  /\ (forall other, other <> name ->
        Sound.lookup other (Sound.sounds sm1)
        = Sound.lookup other (Sound.sounds sm)).
Proof.
  unfold Sound.Play, Sound.Stop, Sound.SetVolume, Sound.SetPan.
  intros [H | [H | [H | H]]];
    destruct (withSound_spec _ _ _ _ H) as (A & B & _); split; assumption.
Qed.

Lemma methods_touch_only_the_named_sound_witness :
  match Sound.Play "shoot" Sound.twoSounds with
  | Some sm1 =>
      (Sound.lookup "shoot" (Sound.sounds Sound.twoSounds) = None ->
       sm1 = Sound.twoSounds)
      /\ (forall other, other <> "shoot"%string ->
            Sound.lookup other (Sound.sounds sm1)
            = Sound.lookup other (Sound.sounds Sound.twoSounds))
  | None => False
  end.
Proof.
  destruct (Sound.Play "shoot" Sound.twoSounds) as [sm1 |] eqn:E.
  - apply (methods_touch_only_the_named_sound "shoot" 0 Sound.twoSounds sm1).
    left. exact E.
  - assert (H : option_map (fun _ => tt) (Sound.Play "shoot" Sound.twoSounds)
                = Some tt) by (vm_compute; reflexivity).
    rewrite E in H. discriminate H.
Defined.

(** [Initialize] reports success exactly when the file opens and decodes;
    on success the name shoot holds a new effect of eight idle channels, all
    at volume 0.7, with pan 0, and every other name keeps its effect; on
    failure the manager is unchanged. *)
Theorem initialize_registers_shoot (opens decodes : bool)
    (sm : Sound.SoundManager) :
  exists sm1,
    Sound.Initialize opens decodes sm = Some (sm1, opens && decodes)
    /\ if opens && decodes
       then Sound.lookup "shoot" (Sound.sounds sm1)
            = Some (Sound.mkEffect
                      (repeat (Sound.mkPlayer false 0 0.7) Sound.MaxChannels)
                      0.7 0 (repeat false Sound.MaxChannels)
                      (repeat None Sound.MaxChannels) [])
            /\ forall other, other <> "shoot"%string ->
                 Sound.lookup other (Sound.sounds sm1)
                 = Sound.lookup other (Sound.sounds sm)
       else sm1 = sm.
Proof.
  unfold Sound.Initialize.
  destruct opens; [| exists sm; split; reflexivity].
  destruct decodes; [| exists sm; split; reflexivity].
  cbn [Sound.LoadSound andb].
  unfold Sound.SetVolume, Sound.SetPan, Sound.withSound.
  cbn [Sound.sounds]. rewrite lookup_store_same. cbn [Sound.bind Sound.sounds].
  rewrite lookup_store_same. cbn [Sound.bind Sound.sounds].
  eexists. split; [reflexivity |]. cbn [Sound.sounds]. split.
  - rewrite lookup_store_same. reflexivity.
  - intros other Hn. rewrite !lookup_store_other by exact Hn. reflexivity.
Qed.
